(** * Flappy Bird: the simulation engine of [src/App.js]

    The classes [Bird], [Pipe] and [Game] of [src/App.js] are embedded as
    records and pure functions.  Drawing is left out: it reads the state and
    writes only to the canvas.  Further down come the name form of [App]
    and, from the server file, the handler that stores a score and the two
    helpers of the request log.

    Numbers.  Positions, speeds and sizes are JavaScript numbers.  The
    engine is written once over an interface [JsNumber] that offers the
    literals, the four arithmetic operators and the two comparisons the
    source uses.  Two instances are given: [F64], IEEE 754 binary64 with the
    kernel's primitive floats (what a JavaScript engine computes), and
    [Exact], the rationals (the real-valued reading of the specification).
    Whatever is proved for every instance holds for both; what depends on
    the arithmetic is proved for [F64] from the library's specification of
    the primitive floats, rounding included.  The two counters
    [frameCount] and [score] only ever hold small natural numbers, which a
    binary64 represents exactly, and are kept in [N].

    State updates.  [setState] is applied at once: the handlers run from
    [setInterval] and from listeners installed with [addEventListener],
    outside React's own event dispatch, where the React 16 of this
    repository (README: React 16.8.6) updates [this.state] synchronously.
    The handlers of the two buttons of [render] run inside that dispatch,
    where the update is applied when the handler returns; [restart] and
    [togglePause] read the state only before they set it, and the click
    listener of the document runs after them, so nothing changes for
    them. *)

From Stdlib Require Import Bool List NArith ZArith QArith Lqa Lia.
From Stdlib Require Import Floats Uint63.
From Stdlib Require String Ascii.
Import ListNotations.

Set Warnings "-inexact-float".

(** ** The numbers of the source *)

Class JsNumber (num : Type) : Type := {
  lit : Q -> num;                    (* a numeric literal *)
  num_add : num -> num -> num;       (* a + b *)
  num_sub : num -> num -> num;       (* a - b *)
  num_mul : num -> num -> num;       (* a * b *)
  num_div : num -> num -> num;       (* a / b *)
  num_lt : num -> num -> bool;       (* a < b *)
  num_le : num -> num -> bool        (* a <= b *)
}.

Declare Scope js_scope.
Delimit Scope js_scope with js.
Infix "+" := num_add : js_scope.
Infix "-" := num_sub : js_scope.
Infix "*" := num_mul : js_scope.
Infix "/" := num_div : js_scope.
Notation "a <? b" := (num_lt a b) : js_scope.
Notation "a <=? b" := (num_le a b) : js_scope.
(* [a > b] and [a >= b] are the mirrored comparisons, also on NaN. *)
Notation "a >? b" := (num_lt b a) (only parsing) : js_scope.
Notation "a >=? b" := (num_le b a) (only parsing) : js_scope.

(** *** binary64 *)

Definition f64_of_Z (z : Z) : float :=
  match z with
  | Z0 => 0%float
  | Zpos _ => PrimFloat.of_uint63 (Uint63.of_Z z)
  | Zneg p => PrimFloat.opp (PrimFloat.of_uint63 (Uint63.of_Z (Zpos p)))
  end.

(* A decimal literal n/10^k is the correctly rounded quotient of two small
   integers, which is the binary64 nearest to the decimal. *)
Definition f64_lit (q : Q) : float :=
  PrimFloat.div (f64_of_Z (Qnum q)) (f64_of_Z (Zpos (Qden q))).

#[export] Instance F64 : JsNumber float := {|
  lit := f64_lit;
  num_add := PrimFloat.add;
  num_sub := PrimFloat.sub;
  num_mul := PrimFloat.mul;
  num_div := PrimFloat.div;
  num_lt := PrimFloat.ltb;
  num_le := PrimFloat.leb
|}.

(** *** exact rationals *)

Definition Qlt_b (a b : Q) : bool := negb (Qle_bool b a).

#[export] Instance Exact : JsNumber Q := {|
  lit := fun q => q;
  num_add := Qplus;
  num_sub := Qminus;
  num_mul := Qmult;
  num_div := Qdiv;
  num_lt := Qlt_b;
  num_le := Qle_bool
|}.

(** ** Game constants (App.js, lines 6-11) *)

Section Constants.
Context {num : Type} {ops : JsNumber num}.

Definition HEIGHT : num := lit 500.
Definition WIDTH : num := lit 800.
Definition PIPE_WIDTH : num := lit 60.
Definition MIN_PIPE_HEIGHT : num := lit 30.
Definition PIPE_GAP : num := lit 200.
End Constants.

(** ** Bounding boxes, as [getBounds] returns them *)

Record Bounds {num : Type} : Type := mkBounds {
  left : num;
  right : num;
  top : num;
  bottom : num
}.
Arguments Bounds : clear implicits.

(** ** class Bird (App.js, lines 14-62) *)

Module Bird.

Record t {num : Type} : Type := mk {
  x : num;
  y : num;
  gravity : num;
  velocity : num;
  radius : num
}.
Arguments t : clear implicits.

Section Methods.
Context {num : Type} {ops : JsNumber num}.
Local Open Scope js_scope.

(* constructor *)
Definition new : t num := {|
  x := lit 150;
  y := HEIGHT / lit 2;
  gravity := lit 0.4;
  velocity := lit 0;
  radius := lit 12
|}.

(* this.velocity += this.gravity; this.y += this.velocity; *)
Definition update (b : t num) : t num :=
  let v := velocity b + gravity b in
  {| x := x b;
     y := y b + v;
     gravity := gravity b;
     velocity := v;
     radius := radius b |}.

(* this.velocity = -8; *)
Definition jump (b : t num) : t num :=
  {| x := x b;
     y := y b;
     gravity := gravity b;
     velocity := lit (-8);
     radius := radius b |}.

Definition getBounds (b : t num) : Bounds num :=
  {| left := x b - radius b;
     right := x b + radius b;
     top := y b - radius b;
     bottom := y b + radius b |}.
End Methods.

End Bird.

(** ** class Pipe (App.js, lines 65-125) *)

Module Pipe.

Record t {num : Type} : Type := mk {
  isDead : bool;
  x : num;
  width : num;
  isBottom : bool;
  scored : bool;
  y : num;
  height : num
}.
Arguments t : clear implicits.

Section Methods.
Context {num : Type} {ops : JsNumber num}.
Local Open Scope js_scope.

(* constructor(ctx, height, isBottom = false) *)
Definition new (h : num) (bottomPipe : bool) : t num := {|
  isDead := false;
  x := WIDTH;
  width := PIPE_WIDTH;
  isBottom := bottomPipe;
  scored := false;
  y := if bottomPipe then HEIGHT - h else lit 0;
  height := h
|}.

(* this.x -= 1.5; if (this.x + PIPE_WIDTH < 0) this.isDead = true; *)
Definition update (p : t num) : t num :=
  let x' := x p - lit 1.5 in
  {| isDead := if x' + PIPE_WIDTH <? lit 0 then true else isDead p;
     x := x';
     width := width p;
     isBottom := isBottom p;
     scored := scored p;
     y := y p;
     height := height p |}.

(* pipe.scored = true *)
Definition setScored (p : t num) : t num :=
  {| isDead := isDead p;
     x := x p;
     width := width p;
     isBottom := isBottom p;
     scored := true;
     y := y p;
     height := height p |}.

Definition getBounds (p : t num) : Bounds num :=
  {| left := x p;
     right := x p + width p;
     top := y p;
     bottom := y p + height p |}.
End Methods.

End Pipe.


(** ** class Game (App.js, lines 127-408) *)

Inductive Key : Type := Space | KeyP | KeyR | OtherKey.

(** The four states of the specification, read off the three flags. *)
Inductive Phase : Type := Idle | Running | Paused | Over.

Module Game.

(* this.state *)
Record State : Type := mkState {
  gameStarted : bool;
  gameOver : bool;
  score : N;
  paused : bool
}.

(* The component, and the two things of the page it acts on: the interval
   timers that are registered and not yet cleared, and the scores handed
   to [submitScore]. *)
Record t {num : Type} : Type := mk {
  state : State;
  frameCount : N;
  pipes : list (Pipe.t num);
  bird : Bird.t num;
  loop : option positive;        (* null, or the last handle stored *)
  intervals : list positive;     (* live timers, each calling gameLoop *)
  nextHandle : positive;         (* the handle setInterval returns next *)
  submitted : list N             (* scores posted, latest first *)
}.
Arguments t : clear implicits.

Section Methods.
Context {num : Type} {ops : JsNumber num}.
Local Open Scope js_scope.

(** *** field updates *)

Definition setState (f : State -> State) (g : t num) : t num :=
  {| state := f (state g);
     frameCount := frameCount g;
     pipes := pipes g;
     bird := bird g;
     loop := loop g;
     intervals := intervals g;
     nextHandle := nextHandle g;
     submitted := submitted g |}.

Definition withGameStarted (b : bool) (s : State) : State :=
  {| gameStarted := b; gameOver := gameOver s;
     score := score s; paused := paused s |}.

Definition withGameOver (b : bool) (s : State) : State :=
  {| gameStarted := gameStarted s; gameOver := b;
     score := score s; paused := paused s |}.

Definition withScore (n : N) (s : State) : State :=
  {| gameStarted := gameStarted s; gameOver := gameOver s;
     score := n; paused := paused s |}.

Definition withPaused (b : bool) (s : State) : State :=
  {| gameStarted := gameStarted s; gameOver := gameOver s;
     score := score s; paused := b |}.

(* this.loop = setInterval(this.gameLoop, 1000 / FPS) *)
Definition setInterval (g : t num) : t num :=
  {| state := state g;
     frameCount := frameCount g;
     pipes := pipes g;
     bird := bird g;
     loop := Some (nextHandle g);
     intervals := nextHandle g :: intervals g;
     nextHandle := Pos.succ (nextHandle g);
     submitted := submitted g |}.

(* clearInterval(this.loop); clearing null or a dead handle does nothing *)
Definition clearInterval (g : t num) : t num :=
  {| state := state g;
     frameCount := frameCount g;
     pipes := pipes g;
     bird := bird g;
     loop := loop g;
     intervals :=
       match loop g with
       | Some h => remove Pos.eq_dec h (intervals g)
       | None => intervals g
       end;
     nextHandle := nextHandle g;
     submitted := submitted g |}.

(* The component once mounted: the constructor, then componentDidMount,
   which installs the listeners and calls initGame. *)
Definition mounted : t num :=
  {| state := {| gameStarted := false; gameOver := false;
                 score := 0; paused := false |};
     frameCount := 0;
     pipes := [];
     bird := Bird.new;
     loop := None;
     intervals := [];
     nextHandle := 1;
     submitted := [] |}.

(** *** the state machine (lines 157-218) *)

Definition initGame (g : t num) : t num :=
  {| state := {| gameStarted := false; gameOver := false;
                 score := 0; paused := paused (state g) |};
     frameCount := 0;
     pipes := [];
     bird := Bird.new;
     loop := loop g;
     intervals := intervals g;
     nextHandle := nextHandle g;
     submitted := submitted g |}.

Definition startGame (g : t num) : t num :=
  if negb (gameStarted (state g)) && negb (gameOver (state g))
  then setInterval (setState (withGameStarted true) g)
  else g.

Definition togglePause (g : t num) : t num :=
  if gameStarted (state g) && negb (gameOver (state g))
  then
    let g1 := if paused (state g) then setInterval g else clearInterval g in
    setState (withPaused (negb (paused (state g)))) g1
  else g.

(* if (this.loop) clearInterval(this.loop); this.initGame(); *)
Definition restart (g : t num) : t num :=
  initGame (clearInterval g).

(* if (started && !over && !paused) this.bird.jump(); *)
Definition jumpIfPlaying (g : t num) : t num :=
  if gameStarted (state g) && negb (gameOver (state g))
     && negb (paused (state g))
  then
    {| state := state g;
       frameCount := frameCount g;
       pipes := pipes g;
       bird := Bird.jump (bird g);
       loop := loop g;
       intervals := intervals g;
       nextHandle := nextHandle g;
       submitted := submitted g |}
  else g.

Definition onKeyDown (code : Key) (g : t num) : t num :=
  match code with
  | Space =>
      let g1 := if negb (gameStarted (state g)) then startGame g else g in
      jumpIfPlaying g1
  | KeyP => togglePause g
  | KeyR => restart g
  | OtherKey => g
  end.

Definition onClick (g : t num) : t num :=
  if negb (gameStarted (state g)) then startGame g else jumpIfPlaying g.

Definition phase (g : t num) : Phase :=
  if gameOver (state g) then Over
  else if negb (gameStarted (state g)) then Idle
  else if paused (state g) then Paused
  else Running.

(** *** obstacle generation (lines 221-237) *)

(* const currentGap: the first few pipes get a larger gap *)
Definition currentGap (g : t num) : num :=
  let isEarlyGame := (score (state g) <? 3)%N in
  if isEarlyGame then PIPE_GAP + lit 50 else PIPE_GAP.

(* [rnd] is the value Math.random() returns. *)
Definition generatePipes (rnd : num) (g : t num) : list (Pipe.t num) :=
  let minHeight := MIN_PIPE_HEIGHT in
  let currentGap := currentGap g in
  let maxHeight := HEIGHT - currentGap - minHeight in
  let topPipeHeight := minHeight + rnd * (maxHeight - minHeight) in
  let bottomPipeHeight := HEIGHT - topPipeHeight - currentGap in
  [ Pipe.new topPipeHeight false; Pipe.new bottomPipeHeight true ].

(** *** collision detection (lines 294-313) *)

Definition outOfBounds (birdBounds : Bounds num) : bool :=
  (top birdBounds <=? lit (-5)) || (bottom birdBounds >=? HEIGHT + lit 5).

Definition hitsPipe (birdBounds : Bounds num) (pipe : Pipe.t num) : bool :=
  let margin := lit 3 in
  let pipeBounds := Pipe.getBounds pipe in
  (right birdBounds - margin >? left pipeBounds + margin)
  && (left birdBounds + margin <? right pipeBounds - margin)
  && (bottom birdBounds - margin >? top pipeBounds + margin)
  && (top birdBounds + margin <? bottom pipeBounds - margin).

Definition checkCollisions (g : t num) : bool :=
  let birdBounds := Bird.getBounds (bird g) in
  if outOfBounds birdBounds then true
  else existsb (hitsPipe birdBounds) (pipes g).

(** *** one tick (lines 263-293) *)

(* The body of the forEach over the pipes, for one pipe: the pipe moves,
   and an unscored upper pipe whose trailing edge is left of the bird is
   marked and adds one to the score. *)
Definition visitPipe (birdX : num) (s : N) (pipe : Pipe.t num)
  : Pipe.t num * N :=
  let pipe1 := Pipe.update pipe in
  if negb (Pipe.scored pipe1)
     && (Pipe.x pipe1 + PIPE_WIDTH <? birdX)
     && negb (Pipe.isBottom pipe1)
  then (Pipe.setScored pipe1, (s + 1)%N)
  else (pipe1, s).

(* this.pipes.forEach(...), in list order, the score read back each time *)
Fixpoint forEachPipe (birdX : num) (s : N) (ps : list (Pipe.t num))
  : list (Pipe.t num) * N :=
  match ps with
  | [] => ([], s)
  | pipe :: rest =>
      let (pipe', s1) := visitPipe birdX s pipe in
      let (rest', s2) := forEachPipe birdX s1 rest in
      (pipe' :: rest', s2)
  end.

(* The pipes after the spawn step: frameCount has been incremented. *)
Definition spawnStep (rnd : num) (g : t num) : list (Pipe.t num) :=
  if ((frameCount g + 1) mod 240 =? 0)%N
  then pipes g ++ generatePipes rnd g
  else pipes g.

(* this.submitScore(): the score is posted; the answer is not awaited *)
Definition submitScore (g : t num) : t num :=
  {| state := state g;
     frameCount := frameCount g;
     pipes := pipes g;
     bird := bird g;
     loop := loop g;
     intervals := intervals g;
     nextHandle := nextHandle g;
     submitted := score (state g) :: submitted g |}.

(* Lines 264-285: the counter, the spawn, the pipes and the bird. *)
Definition advance (rnd : num) (g : t num) : t num :=
  let spawned := spawnStep rnd g in
  let (moved, s) := forEachPipe (Bird.x (bird g)) (score (state g)) spawned in
  {| state := withScore s (state g);
     frameCount := (frameCount g + 1)%N;
     pipes := filter (fun pipe => negb (Pipe.isDead pipe)) moved;
     bird := Bird.update (bird g);
     loop := loop g;
     intervals := intervals g;
     nextHandle := nextHandle g;
     submitted := submitted g |}.

(* Lines 287-292: the collision check and the end of the game. *)
Definition update (rnd : num) (g : t num) : t num :=
  let g1 := advance rnd g in
  if checkCollisions g1
  then clearInterval (submitScore (setState (withGameOver true) g1))
  else g1.

(* draw() only paints *)
Definition gameLoop (rnd : num) (g : t num) : t num :=
  if negb (paused (state g)) then update rnd g else g.

(** *** what happens to the component *)

Inductive Event : Type :=
| KeyDown (code : Key)
| Click
| Timer (h : positive) (rnd : num).   (* timer h fires; rnd: the next draw *)

Definition handle (e : Event) (g : t num) : t num :=
  match e with
  | KeyDown code => onKeyDown code g
  | Click => onClick g
  | Timer h rnd =>
      if existsb (Pos.eqb h) (intervals g) then gameLoop rnd g else g
  end.

Definition run (es : list Event) (g : t num) : t num :=
  fold_left (fun g e => handle e g) es g.

(* n firings of timer h in a row, with the draws [rnd k] *)
Fixpoint ticks (h : positive) (rnd : nat -> num) (n : nat) (g : t num)
  : t num :=
  match n with
  | O => g
  | S k => ticks h (fun i => rnd (S i)) k (handle (Timer h (rnd O)) g)
  end.
End Methods.

End Game.

(** ** The collision test in the words of the specification

    Section 4.3 describes the obstacle test as a strict overlap of the two
    rectangles after each has been shrunk inward by the margin.  These two
    definitions follow that wording; [hitsPipe] above follows the source. *)

Section SpecCollision.
Context {num : Type} {ops : JsNumber num}.
Local Open Scope js_scope.



(** The tick as section 4.5 orders it: the spawn test reads the counter,
    which is incremented only at the end of the tick. *)
Definition spawnStep_spec (rnd : num) (g : Game.t num) : list (Pipe.t num) :=
  if (Game.frameCount g mod 240 =? 0)%N
  then Game.pipes g ++ Game.generatePipes rnd g
  else Game.pipes g.
End SpecCollision.

(** ** Auxiliary definitions for the statements *)

Section Auxiliary.
Context {num : Type} {ops : JsNumber num}.
Local Open Scope js_scope.

(* The test of the forEach body, on the pipe before it moves. *)
Definition scoresNow (birdX : num) (pipe : Pipe.t num) : bool :=
  negb (Pipe.scored pipe)
  && (Pipe.x pipe - lit 1.5 + PIPE_WIDTH <? birdX)
  && negb (Pipe.isBottom pipe).

(* One pipe over n successive ticks: the pipe and the running score. *)
Fixpoint visits (birdX : num) (n : nat) (s : N) (pipe : Pipe.t num)
  : Pipe.t num * N :=
  match n with
  | O => (pipe, s)
  | S k => let (pipe', s') := Game.visitPipe birdX s pipe in
           visits birdX k s' pipe'
  end.

(* What the pipes [ps] add to the score over n ticks. *)
Definition increments (birdX : num) (n : nat) (ps : list (Pipe.t num)) : N :=
  fold_right (fun pipe acc => (snd (visits birdX n 0 pipe) + acc)%N) 0%N ps.

(* An upper pipe that is marked dead has been counted. *)
Definition counted_when_gone (pipe : Pipe.t num) : Prop :=
  Pipe.isBottom pipe = false -> Pipe.isDead pipe = true ->
  Pipe.scored pipe = true.

(* The games the mounted component can get into. *)
Inductive reachable : Game.t num -> Prop :=
| reach_mounted : reachable Game.mounted
| reach_handle (e : Game.Event) (g : Game.t num) :
    reachable g -> reachable (Game.handle e g).

(* What stays true of the bird and of every live pipe. *)
Definition pipe_ok (pipe : Pipe.t num) : Prop :=
  Pipe.isDead pipe = false /\
  Pipe.width pipe = PIPE_WIDTH /\
  (Pipe.isBottom pipe = true -> Pipe.scored pipe = false).

Definition wellFormed (g : Game.t num) : Prop :=
  Bird.x (Game.bird g) = lit 150 /\
  Bird.gravity (Game.bird g) = lit 0.4 /\
  Bird.radius (Game.bird g) = lit 12 /\
  Forall pipe_ok (Game.pipes g).
End Auxiliary.

(** ** Rounding in binary64: definitions

    The operations of [F64] are specified by the library through
    [Prim2SF] and the functions of [SpecFloat].  To reason about them a
    positive float is read as an integer, its value times a power of two,
    and the operations as integer operations followed by a rounding. *)

Section RoundingDefinitions.
Local Open Scope Z_scope.

(* M / 2^n rounded to the nearest integer, a tie to the even one. *)
Definition rne (M n : Z) : Z :=
  let q := M / 2 ^ n in
  match 2 * (M mod 2 ^ n) ?= 2 ^ n with
  | Lt => q
  | Gt => q + 1
  | Eq => if Z.even q then q else q + 1
  end.

(* X is the multiple of 2^n nearest to M, the even one on a tie. *)
Definition nearest (M n X : Z) : Prop :=
  - 2 ^ n <= 2 * (X * 2 ^ n - M) <= 2 ^ n /\
  (2 * (X * 2 ^ n - M) = 2 ^ n \/ 2 * (X * 2 ^ n - M) = - 2 ^ n ->
   Z.even X = true).

(* The float nearest to M * 2^e, for M > 0. *)
Definition normalized (M e : Z) : spec_float :=
  let e' := Z.max (Z.log2 M + 1 + e - 53) (-1074) in
  let m := if e' <=? e then M * 2 ^ (e - e') else rne M (e' - e) in
  if m =? 0 then S754_zero false
  else if m =? 2 ^ 53 then S754_finite false (Z.to_pos (2 ^ 52)) (e' + 1)
  else S754_finite false (Z.to_pos m) e'.

(* What the final step of every operation returns for an exact M * 2^e
   that needs no shift to the left. *)
Definition rounded (M e : Z) : spec_float :=
  let e' := Z.max (Z.log2 M + 1 + e - 53) (-1074) in
  let m := rne M (e' - e) in
  if m =? 0 then S754_zero false
  else if m =? 2 ^ 53 then S754_finite false (Z.to_pos (2 ^ 52)) (e' + 1)
  else S754_finite false (Z.to_pos m) e'.

(* The float of value V / 2^sc, for V > 0. *)
Definition fl (sc V : Z) : spec_float :=
  let g := Z.max (Z.log2 V - 52) (sc - 1074) in
  let m := rne V g in
  if m =? 0 then S754_zero false
  else if m =? 2 ^ 53 then S754_finite false (Z.to_pos (2 ^ 52)) (g - sc + 1)
  else S754_finite false (Z.to_pos m) (g - sc).

(* The value of a positive finite float times 2^sc; 0 for the others. *)
Definition sv (sc : Z) (x : spec_float) : Z :=
  match x with
  | S754_finite false m e => Z.pos m * 2 ^ (e + sc)
  | _ => 0
  end.

(* x is a positive finite float that the scale sc can hold *)
Definition posfin (sc : Z) (x : spec_float) : Prop :=
  exists m e, x = S754_finite false m e /\ 0 <= e + sc.

(* A value times 2^48, at least 2^52, rounded to 53 bits. *)
Definition Rz (V : Z) : Z :=
  rne V (Z.log2 V - 52) * 2 ^ (Z.log2 V - 52).

End RoundingDefinitions.

(** ** Sample runs in binary64

    Concrete games reached from the mounted component by key presses and
    timer firings; the statements below are instantiated on them. *)

(* Every call of Math.random() returns 0.5. *)
Definition draw (_ : nat) : float := 0.5%float.

Definition fresh : Game.t float := Game.mounted.

(* Space starts the game (timer 1). *)
Definition started : Game.t float := Game.handle (Game.KeyDown Space) fresh.

(* No further key: the bird falls through the floor within 60 ticks. *)
Definition crashed : Game.t float := Game.ticks 1 draw 60 started.

(* A jump every 39 ticks keeps the bird near mid-height. *)
Definition flap : list (@Game.Event float) :=
  Game.KeyDown Space :: repeat (Game.Timer 1 0.5%float) 39.

Definition hover (rounds : nat) (g : Game.t float) : Game.t float :=
  Game.run (concat (repeat flap rounds)) g.

(* After 239 ticks: the next tick is the 240th. *)
Definition beforeSpawn : Game.t float := Game.ticks 1 draw 5 (hover 6 fresh).

(* After 712 ticks: the first upper pipe is about to pass the bird. *)
Definition beforeScore : Game.t float := Game.ticks 1 draw 10 (hover 18 fresh).

(* After 1677 ticks: five pairs have passed, the gap is down to 200. *)
Definition seasoned : Game.t float := hover 43 fresh.

(* Start, pause, restart, start, resume: timers 2 and 3 are both live. *)
Definition twoTimers : Game.t float :=
  Game.run [Game.KeyDown Space; Game.KeyDown KeyP; Game.KeyDown KeyR;
            Game.KeyDown Space; Game.KeyDown KeyP] fresh.

(** ** The rest of the component: unmounting, the buttons and the clock

    [componentWillUnmount] (App.js, lines 149-155), the two buttons that
    [render] draws (lines 397-402), and what the statements about the
    timers need: a run in which [restart] is never run while the pause flag
    is set, neither by the R key nor by the Restart button, and the state
    of the timers that such a run keeps. *)

Section Clockwork.
Context {num : Type} {ops : JsNumber num}.

(* componentWillUnmount (lines 149-155): the two listeners are removed and
   the timer whose handle [loop] holds is cleared. *)
Definition componentWillUnmount (g : Game.t num) : Game.t num :=
  Game.clearInterval g.

(* All that can happen to the mounted component: an event that the
   document or a timer delivers, or a click on one of the two buttons of
   [render]: <button onClick={this.restart}> (line 398) and
   <button onClick={this.togglePause}> (line 401). *)
Inductive Input : Type :=
  | Happens (e : @Game.Event num)
  | RestartButton
  | PauseButton.

(* A click on a button runs the handler of the button and then, as the
   click reaches the document, the click listener [onClick] that
   componentDidMount has registered there (line 145): the listener of
   React, which runs the handlers of the buttons, is on the document
   since the first render, before componentDidMount. *)
Definition perform (i : Input) (g : Game.t num) : Game.t num :=
  match i with
  | Happens e => Game.handle e g
  | RestartButton => Game.onClick (Game.restart g)
  | PauseButton => Game.onClick (Game.togglePause g)
  end.

Definition play (ins : list Input) (g : Game.t num) : Game.t num :=
  fold_left (fun g i => perform i g) ins g.

(* The inputs that run [restart]: the R key and the Restart button. *)
Definition restarts (i : Input) : bool :=
  match i with
  | Happens (Game.KeyDown KeyR) | RestartButton => true
  | _ => false
  end.

(* [restart] is never run while the pause flag is set. *)
Fixpoint restartsUnpaused (ins : list Input) (g : Game.t num) : bool :=
  match ins with
  | [] => true
  | i :: rest =>
      (if restarts i then negb (Game.paused (Game.state g)) else true)
      && restartsUnpaused rest (perform i g)
  end.

(* One clock: the only live timer is the one in [loop], and it is live
   exactly while the game is Running. *)
Definition oneClock (g : Game.t num) : Prop :=
  match Game.phase g with
  | Running => exists h, Game.loop g = Some h /\ Game.intervals g = [h]
  | _ => Game.intervals g = []
  end.

(* Events that neither toggle the pause nor restart. *)
Definition inert (e : @Game.Event num) : bool :=
  match e with
  | Game.KeyDown KeyP | Game.KeyDown KeyR => false
  | _ => true
  end.

(* The invariant behind the single clock. *)
Definition tidy (g : Game.t num) : Prop :=
  (Game.paused (Game.state g) = true -> Game.phase g = Paused) /\ oneClock g.
End Clockwork.

(** ** The pipes on the screen, tick by tick

    [Pipe.update] moves a pipe by 1.5 to the left on every tick and
    [Game.update] appends a pair on every 240th tick, so the pipes in the
    list after tick n can be told from n alone, up to their heights.  The
    comparisons that the source makes on the x of a pipe (dead, passed,
    beside the bird) are tabulated for each number of moves; the table is
    computed row by row, each x from the one before. *)

Section FleetDefs.
Context {num : Type} {ops : JsNumber num}.
Local Open Scope js_scope.

(* The x of a pipe that has moved k times. *)
Definition xAfter (k : N) : num := N.iter k (fun x => x - lit 1.5) WIDTH.

(* The horizontal half of [hitsPipe], for the bird at x = 150 with radius
   12 and a pipe of width PIPE_WIDTH at x. *)
Definition besideBird (x : num) : bool :=
  let margin := lit 3 in
  (lit 150 + lit 12 - margin >? x + margin)
  && (lit 150 - lit 12 + margin <? x + PIPE_WIDTH - margin).

(* What the comparisons of the source give on a pipe that has moved k
   times: off the screen at k = 574, left of the bird from k = 474 on,
   beside the bird for k = 430, ..., 477. *)
Definition gridEntry (k : N) (x : num) : bool :=
  Bool.eqb (x + PIPE_WIDTH <? lit 0) (574 <=? k)%N &&
  Bool.eqb (x + PIPE_WIDTH <? lit 150) (474 <=? k)%N &&
  Bool.eqb (besideBird x) ((430 <=? k)%N && (k <=? 477)%N).

Definition gridRow (k : N) : bool := gridEntry k (xAfter k).

(* The rows k + 1, ..., k + n, each x computed from the one before as
   [Pipe.update] does. *)
Fixpoint gridRows (n : nat) (k : N) (x : num) : bool :=
  match n with
  | O => true
  | S m =>
      let x' := x - lit 1.5 in
      let k' := (k + 1)%N in
      gridEntry k' x' && gridRows m k' x'
  end.

Definition gridTable : bool := gridRows 574 0 WIDTH.

(* How often the pairs in the list have moved, after tick n: the pairs of
   ticks 240 (q - 2), 240 (q - 1) and 240 q, oldest first, where
   n = 240 q + r; the oldest has left the screen when r > 92. *)
Definition ages (n : N) : list N :=
  let q := (n / 240)%N in
  let r := (n mod 240)%N in
  (if (3 <=? q)%N && (r <=? 92)%N then [(r + 481)%N] else []) ++
  (if (2 <=? q)%N then [(r + 241)%N] else []) ++
  (if (1 <=? q)%N then [(r + 1)%N] else []).

(* A pipe of the list that has moved k times. *)
Definition occupies (k : N) (isBottom : bool) (p : Pipe.t num) : Prop :=
  (k <= 573)%N /\
  Pipe.x p = xAfter k /\
  Pipe.isBottom p = isBottom /\
  Pipe.scored p = negb isBottom && (474 <=? k)%N /\
  Pipe.isDead p = false /\
  Pipe.width p = PIPE_WIDTH.

(* The list holds, for each age, an upper and then a lower pipe. *)
Inductive formation (pairOk : Pipe.t num -> Pipe.t num -> Prop)
  : list N -> list (Pipe.t num) -> Prop :=
| formation_nil : formation pairOk [] []
| formation_pair (k : N) (upper lower : Pipe.t num)
    (ks : list N) (ps : list (Pipe.t num)) :
    occupies k false upper -> occupies k true lower ->
    pairOk upper lower ->
    formation pairOk ks ps ->
    formation pairOk (k :: ks) (upper :: lower :: ps).

Definition scoreAt (n : N) : N := ((n + 7) / 240 - 2)%N.

Definition inFormation (pairOk : Pipe.t num -> Pipe.t num -> Prop)
  (g : Game.t num) : Prop :=
  formation pairOk (ages (Game.frameCount g)) (Game.pipes g) /\
  Game.score (Game.state g) = scoreAt (Game.frameCount g).

(* The draws of the timer events of a run. *)
Definition drawsIn (okDraw : num -> Prop) (es : list (@Game.Event num))
  : Prop :=
  Forall (fun e => match e with
                   | Game.Timer _ rnd => okDraw rnd
                   | _ => True
                   end) es.
End FleetDefs.

(* The age of the pair that the spawn step of tick n + 1 appends. *)
Definition spawnAges (n : N) : list N :=
  if ((n + 1) mod 240 =? 0)%N then [0%N] else [].

(* Still on the list after the filter. *)
Definition onScreen (k : N) : bool := (k <=? 573)%N.

Section Binary64Pipes.
Local Open Scope js_scope.

(* Rows k + 1, ..., k + n of the positions in binary64: the x reached by
   repeated subtraction is 800 - 1.5 k', between -59.5 and 798.5. *)
Fixpoint gridClosed (n : nat) (k : N) (x : float) : bool :=
  match n with
  | O => true
  | S m =>
      let x' := x - lit 1.5 in
      let k' := (k + 1)%N in
      PrimFloat.Leibniz.eqb x' (800 - 1.5 * f64_of_Z (Z.of_N k'))%float
      && PrimFloat.leb (-59.5)%float x' && PrimFloat.leb x' 798.5%float
      && gridClosed m k' x'
  end.

(* Math.random() returns a double in [0, 1). *)
Definition unitDraw (e : @Game.Event float) : bool :=
  match e with
  | Game.Timer _ rnd => PrimFloat.leb 0%float rnd && PrimFloat.ltb rnd 1%float
  | _ => true
  end.

(* A pair as [generatePipes] makes it, in binary64: the upper pipe hangs
   from the top, the lower one ends at the bottom, both are at least 30
   high, and the heights and the gap of 250 or 200 add up to 500. *)
Definition pairOk64 (upper lower : Pipe.t float) : Prop :=
  Pipe.y upper = 0%float /\
  Pipe.y lower = (500 - Pipe.height lower)%float /\
  (30 <=? Pipe.height upper)%float = true /\
  (30 <=? Pipe.height lower)%float = true /\
  ((Pipe.height upper + Pipe.height lower + 250)%float = 500%float \/
   (Pipe.height upper + Pipe.height lower + 200)%float = 500%float).

(* The list as a sequence of pairs. *)
Definition unpair {num : Type} (prs : list (Pipe.t num * Pipe.t num))
  : list (Pipe.t num) :=
  flat_map (fun pr => [fst pr; snd pr]) prs.
End Binary64Pipes.

(** ** The name form of [App] and the score service

    [App.getUsername] (App.js, lines 423-432) takes the name that
    [Game.submitScore] later posts with the score; the handler of
    POST /api/scores in the server file checks both and stores them.
    Strings are sequences of UTF-16 code units, as in JavaScript. *)

(* A JavaScript string: its UTF-16 code units. *)
Definition JsString : Type := list N.

(* WhiteSpace and LineTerminator of ECMAScript: the code units that
   String.prototype.trim removes. *)
Definition isWhiteSpace (c : N) : bool :=
  existsb (N.eqb c)
    [9; 10; 11; 12; 13; 32; 160; 5760;
     8192; 8193; 8194; 8195; 8196; 8197; 8198; 8199; 8200; 8201; 8202;
     8232; 8233; 8239; 8287; 12288; 65279]%N.

Fixpoint trimStart (s : JsString) : JsString :=
  match s with
  | c :: rest => if isWhiteSpace c then trimStart rest else s
  | [] => []
  end.

Definition trimEnd (s : JsString) : JsString := rev (trimStart (rev s)).

(* s.trim() *)
Definition trim (s : JsString) : JsString := trimEnd (trimStart s).

(* A value of a parsed request body. *)
Inductive JsValue : Type :=
| JsUndefined
| JsNull
| JsBoolean (b : bool)
| JsNum (x : float)
| JsStr (s : JsString)
| JsObject.                      (* an array or an object *)

(* !v *)
Definition falsy (v : JsValue) : bool :=
  match v with
  | JsUndefined | JsNull => true
  | JsBoolean b => negb b
  | JsNum x => PrimFloat.eqb x 0%float || PrimFloat.is_nan x
  | JsStr s => (length s =? 0)%nat
  | JsObject => false
  end.

Module App.
Import String.

(* this.state of the component App (App.js, lines 411-417) *)
Record State : Type := mkState {
  username : JsString;
  hasUsername : bool;
  scores : list (JsValue * JsValue);
  loading : bool;
  error : option string
}.

Definition initial : State :=
  {| username := []; hasUsername := false; scores := [];
     loading := true; error := None |}.

(* getUsername (lines 423-432); [value] is e.target.username.value *)
Definition getUsername (value : JsString) (st : State) : State :=
  let username := trim value in
  if negb (List.length username =? 0)%nat
  then {| username := username; hasUsername := true;
          scores := scores st; loading := loading st; error := error st |}
  else st.

(* The body that Game.submitScore posts (lines 247-250): the username
   prop, which render takes from the state of App, and the score. *)
Definition newScore (st : State) (score : N) : JsValue * JsValue :=
  (JsStr (username st), JsNum (f64_of_Z (Z.of_N score))).

End App.

Module Server.
Import String.

(* What the handler answers: res.status(400) or res.status(500) with an
   error, or res.status(201) with the id, the name and the score of the
   new row (and a fixed message, left out here). *)
Inductive Reply : Type :=
| Status400 (error : string)
| Status500 (error : string)
| Status201 (id : N) (username : JsString) (score : float).

(* db.run(query, [cleanUsername, score], callback): the callback gets the
   id of the new row, or an error. *)
Definition DbRun : Type := JsString -> float -> option N.

(* app.post('/api/scores', ...); username and score are the two fields
   of req.body. *)
Definition postScores (dbRun : DbRun) (username score : JsValue) : Reply :=
  match username with
  | JsStr name =>
      if falsy username || (List.length (trim name) =? 0)%nat
      then Status400 "Username is required"
      else
        match score with
        | JsNum sc =>
            if PrimFloat.ltb sc 0%float
            then Status400 "Valid score is required"
            else if (50 <? List.length name)%nat
            then Status400 "Username too long"
            else
              let cleanUsername := firstn 50 (trim name) in
              match dbRun cleanUsername sc with
              | Some lastID => Status201 lastID cleanUsername sc
              | None => Status500 "Failed to save score"
              end
        | _ => Status400 "Valid score is required"
        end
  | _ => Status400 "Username is required"
  end.

(* Two of the messages, for the statements below. *)
Definition usernameRequired : string := "Username is required".
Definition failedToSave : string := "Failed to save score".

End Server.

(** ** Rounding in binary64: signed values

    The bird moves up and down, so its velocity takes both signs.  A
    finite float of either sign is read as an integer, its value times
    2^1074, which is a whole number for every binary64.  The unit [u64] is
    the value of 1/64: 250 is 16000 * u64, the radius 12 is 768 * u64. *)

Section SignedDefinitions.
Local Open Scope Z_scope.

(* The value of a finite float times 2^1074, an integer; 0 for the
   others. *)
Definition zv (x : spec_float) : Z :=
  match x with
  | S754_finite s m e => cond_Zopp s (Z.pos m * 2 ^ (e + 1074))
  | _ => 0
  end.

(* A zero or a finite float: neither an infinity nor NaN. *)
Definition fin (x : spec_float) : bool :=
  match x with
  | S754_zero _ | S754_finite _ _ _ => true
  | _ => false
  end.

(* The same for the floats of the kernel. *)
Definition val (x : float) : Z := zv (Prim2SF x).
Definition finite (x : float) : bool := fin (Prim2SF x).

(* The value 1/64, and the largest error of one rounding of a value below
   8192 in absolute value: 2^-41. *)
Definition u64 : Z := 2 ^ 1068.
Definition ulp : Z := 2 ^ 1033.

(* r is V rounded: a multiple of some 2^g, g <= 1034, nearest to V. *)
Definition rounds (r V : Z) : Prop :=
  exists X g, 0 <= g <= 1034 /\ r = X * 2 ^ g /\
              - 2 ^ g <= 2 * (X * 2 ^ g - V) <= 2 ^ g.

End SignedDefinitions.

(** ** The bird in free fall, in binary64 *)

Section FallDefinitions.
Local Open Scope Z_scope.

(* The bird n ticks into a fall that began with the velocity of value V0
   at the height of value Y0, in binary64: velocity and height are those
   of the closed form, up to the roundings made so far, one for each
   velocity and two for each height. *)
Definition inFreeFall (V0 Y0 : Z) (n : nat) (b : Bird.t float) : Prop :=
  let k := Z.of_nat n in
  let G := val (@lit float F64 0.4) in
  Bird.gravity b = lit 0.4 /\
  finite (Bird.velocity b) = true /\ finite (Bird.y b) = true /\
  Z.abs (val (Bird.velocity b) - (V0 + k * G)) <= k * ulp /\
  Z.abs (2 * val (Bird.y b) - (2 * Y0 + 2 * k * V0 + k * (k + 1) * G))
  <= k * (k + 3) * ulp.

End FallDefinitions.

(** ** The reach of the bird *)

(* Where the bird can be after n ticks, whatever the player does, in exact
   arithmetic. *)
Definition birdInReach (g : Game.t Q) : Prop :=
  let n := inject_Z (Z.of_N (Game.frameCount g)) in
  let b := Game.bird g in
  -8 <= Bird.velocity b /\ Bird.velocity b <= 0.4 * n /\
  250 - 7.6 * n <= Bird.y b /\ Bird.y b <= 250 + 0.2 * n * (n + 1).

(* The same in binary64, for the first 32 ticks, with bounds that are
   multiples of 1/64 and so are not moved by a rounding: the velocity lies
   between -8 and n * 13/32, the height between 250 - n * 31/4 and
   250 + n * (n + 1) * 13/64. *)
Definition birdInReach64 (g : Game.t float) : Prop :=
  let n := Z.of_N (Game.frameCount g) in
  let b := Game.bird g in
  (n <= 32)%Z ->
  finite (Bird.velocity b) = true /\ finite (Bird.y b) = true /\
  (-512 * u64 <= val (Bird.velocity b) <= 26 * n * u64)%Z /\
  ((16000 - 496 * n) * u64 <= val (Bird.y b)
   <= (16000 + 13 * n * (n + 1)) * u64)%Z.

(* No game is over before tick 32. *)
Definition lastsLongEnough {num : Type} (g : Game.t num) : Prop :=
  Game.gameOver (Game.state g) = true -> (32 <= Game.frameCount g)%N.

(** ** The request log of the server: client address and user agent

    [getClientIP] and [parseUserAgent] of the server file (lines 164-198),
    which the logging middleware calls on every request. *)

Module Analytics.
Import String Ascii.
Local Open Scope string_scope.

(* The code units of a string literal of the source. *)
Definition codes (s : string) : JsString :=
  map N_of_ascii (list_ascii_of_string s).

(* s.startsWith(t) *)
Fixpoint startsWith (s t : JsString) : bool :=
  match t, s with
  | [], _ => true
  | c :: t', d :: s' => (c =? d)%N && startsWith s' t'
  | _ :: _, [] => false
  end.

(* s.includes(t) *)
Fixpoint includes (s t : JsString) : bool :=
  startsWith s t ||
  match s with
  | [] => false
  | _ :: s' => includes s' t
  end.

(* s.split(',')[0]: what precedes the first comma *)
Fixpoint firstEntry (s : JsString) : JsString :=
  match s with
  | [] => []
  | c :: rest => if (c =? 44)%N then [] else c :: firstEntry rest
  end.

(* a || b on values that are undefined or strings *)
Definition orElse (a b : option JsString) : option JsString :=
  match a with
  | Some s => if (List.length s =? 0)%nat then b else a
  | None => b
  end.

(* What getClientIP reads of the request. *)
Record Request : Type := mkRequest {
  xForwardedFor : option JsString;     (* req.headers['x-forwarded-for'] *)
  xRealIp : option JsString;           (* req.headers['x-real-ip'] *)
  connectionAddress : option JsString; (* req.connection.remoteAddress *)
  socketAddress : option JsString      (* req.socket.remoteAddress *)
}.

Definition getClientIP (req : Request) : JsString :=
  let forwarded :=
    match xForwardedFor req with
    | Some s => Some (trim (firstEntry s))
    | None => None
    end in
  match orElse forwarded
          (orElse (xRealIp req)
             (orElse (connectionAddress req) (socketAddress req))) with
  | Some s => if (List.length s =? 0)%nat then codes "unknown" else s
  | None => codes "unknown"
  end.

Record UserAgent : Type := mkUserAgent {
  browser : string;
  os : string;
  deviceType : string
}.

Definition parseUserAgent (userAgent : option JsString) : UserAgent :=
  let ua := match orElse userAgent (Some []) with
            | Some s => s
            | None => []
            end in
  let has (t : string) := includes ua (codes t) in
  {| browser :=
       if has "Chrome" && negb (has "Edg") then "Chrome"
       else if has "Safari" && negb (has "Chrome") then "Safari"
       else if has "Firefox" then "Firefox"
       else if has "Edg" then "Edge"
       else if has "Opera" || has "OPR" then "Opera"
       else "Unknown";
     os :=
       if has "Windows" then "Windows"
       else if has "Mac OS X" then "macOS"
       else if has "Linux" then "Linux"
       else if has "Android" then "Android"
       else if has "iPhone" || has "iPad" then "iOS"
       else "Unknown";
     deviceType :=
       if has "Mobile" then "Mobile"
       else if has "Tablet" || has "iPad" then "Tablet"
       else "Desktop" |}.

(* A request that came through a proxy. *)
Definition forwardedHeader : JsString := codes " 10.0.0.7 , 172.16.0.1".

Definition behindProxy : Request :=
  {| xForwardedFor := Some forwardedHeader; xRealIp := None;
     connectionAddress := Some (codes "172.16.0.1"); socketAddress := None |}.

End Analytics.

(** ** More sample runs and inputs *)

(* Start, one tick, the Pause button, the P key, one tick, the Restart
   button, the R key, a click, the Pause button. *)
Definition busy : list (@Input float) :=
  [Happens (Game.KeyDown Space); Happens (Game.Timer 1 0.5%float);
   PauseButton; Happens (Game.KeyDown KeyP);
   Happens (Game.Timer 2 0.5%float); RestartButton;
   Happens (Game.KeyDown KeyR); Happens Game.Click; PauseButton].

(* Start, pause, the Restart button, resume: [restart] runs while the
   pause flag is set. *)
Definition restartInPause : list (@Input float) :=
  [Happens (Game.KeyDown Space); Happens (Game.KeyDown KeyP);
   RestartButton; Happens (Game.KeyDown KeyP)].

(* Start, which also jumps, and 59 ticks: the next tick ends the game. *)
Definition freeFall : list (@Game.Event float) :=
  Game.KeyDown Space :: repeat (Game.Timer 1 0.5%float) 59.

(* The same run with the tick that ends it. *)
Definition fallen : list (@Game.Event float) :=
  freeFall ++ [Game.Timer 1 0.5%float].

(* The run [freeFall] as inputs of the component. *)
Definition untilTheFloor : list (@Input float) := map Happens freeFall.

(* A played game right after its first pair has appeared (tick 240). *)
Definition toFirstPair : list (@Game.Event float) :=
  concat (repeat flap 6) ++ repeat (Game.Timer 1 0.5%float) 6.

(* 520 ticks of a played game: two pairs are on the screen. *)
Definition toSecondPair : list (@Game.Event float) :=
  concat (repeat flap 13).

(* What reaches a paused game besides P and R. *)
Definition whilePaused : list (@Game.Event float) :=
  [Game.Timer 1 0.5%float; Game.KeyDown Space; Game.Click;
   Game.Timer 2 0.5%float; Game.KeyDown OtherKey].

(* 663 ticks of a played game, then sixteen jumps in a row: the bird
   climbs into the upper pipe of the first pair. *)
Definition intoThePipe : list (@Game.Event float) :=
  concat (repeat flap 17)
  ++ concat (repeat [Game.KeyDown Space; Game.Timer 1 0.5%float] 16).

(* A name as typed into the form, with blanks around it: " bird ". *)
Definition paddedName : JsString := [32; 98; 105; 114; 100; 32]%N.

(* A jump before every tick: the bird leaves through the top on tick 32. *)
Definition straightUp : list (@Game.Event Q) :=
  concat (repeat [Game.KeyDown Space; Game.Timer 1 0.5] 32).

(* The same in binary64. *)
Definition straightUp64 : list (@Game.Event float) :=
  concat (repeat [Game.KeyDown Space; Game.Timer 1 0.5%float] 32).

(** ** Facts about one tick, for every number instance *)

Section Tick.
Context {num : Type} {ops : JsNumber num}.
Local Open Scope js_scope.

Lemma visitPipe_scoresNow (birdX : num) (s : N) (pipe : Pipe.t num) :
  Game.visitPipe birdX s pipe =
  if scoresNow birdX pipe
  then (Pipe.setScored (Pipe.update pipe), (s + 1)%N)
  else (Pipe.update pipe, s).
Proof. reflexivity. Qed.

Lemma visitPipe_fst (birdX : num) (s s' : N) (pipe : Pipe.t num) :
  fst (Game.visitPipe birdX s pipe) = fst (Game.visitPipe birdX s' pipe).
Proof.
  rewrite !visitPipe_scoresNow. now destruct (scoresNow birdX pipe).
Qed.

Lemma visitPipe_snd (birdX : num) (s : N) (pipe : Pipe.t num) :
  snd (Game.visitPipe birdX s pipe) =
  (s + if scoresNow birdX pipe then 1 else 0)%N.
Proof.
  rewrite visitPipe_scoresNow.
  destruct (scoresNow birdX pipe); simpl; lia.
Qed.

Lemma forEachPipe_fst (birdX : num) (ps : list (Pipe.t num)) : forall s,
  fst (Game.forEachPipe birdX s ps) =
  map (fun pipe => fst (Game.visitPipe birdX 0 pipe)) ps.
Proof.
  induction ps as [|pipe rest IH]; intro s; simpl; [reflexivity|].
  destruct (Game.visitPipe birdX s pipe) as [pipe' s1] eqn:Ev.
  specialize (IH s1).
  destruct (Game.forEachPipe birdX s1 rest) as [rest' s2]; simpl in *.
  rewrite <- IH. f_equal.
  rewrite (visitPipe_fst birdX 0 s pipe), Ev. reflexivity.
Qed.

Lemma forEachPipe_snd (birdX : num) (ps : list (Pipe.t num)) : forall s,
  snd (Game.forEachPipe birdX s ps) =
  (s + N.of_nat (length (filter (scoresNow birdX) ps)))%N.
Proof.
  induction ps as [|pipe rest IH]; intro s; simpl; [lia|].
  destruct (Game.visitPipe birdX s pipe) as [pipe' s1] eqn:Ev.
  specialize (IH s1).
  destruct (Game.forEachPipe birdX s1 rest) as [rest' s2]; simpl in *.
  pose proof (visitPipe_snd birdX s pipe) as Hs. rewrite Ev in Hs.
  simpl in Hs. subst s1 s2.
  destruct (scoresNow birdX pipe); simpl length; lia.
Qed.

(* Each field of the game after lines 264-285. *)
Lemma advance_fields (rnd : num) (g : Game.t num) :
  let g1 := Game.advance rnd g in
  let birdX := Bird.x (Game.bird g) in
  Game.frameCount g1 = (Game.frameCount g + 1)%N /\
  Game.bird g1 = Bird.update (Game.bird g) /\
  Game.pipes g1 =
    filter (fun pipe => negb (Pipe.isDead pipe))
      (map (fun pipe => fst (Game.visitPipe birdX 0 pipe))
         (Game.spawnStep rnd g)) /\
  Game.score (Game.state g1) =
    (Game.score (Game.state g)
     + N.of_nat (length (filter (scoresNow birdX) (Game.spawnStep rnd g))))%N /\
  Game.gameStarted (Game.state g1) = Game.gameStarted (Game.state g) /\
  Game.gameOver (Game.state g1) = Game.gameOver (Game.state g) /\
  Game.paused (Game.state g1) = Game.paused (Game.state g) /\
  Game.loop g1 = Game.loop g /\
  Game.intervals g1 = Game.intervals g /\
  Game.nextHandle g1 = Game.nextHandle g /\
  Game.submitted g1 = Game.submitted g.
Proof.
  cbv zeta. unfold Game.advance.
  pose proof (forEachPipe_fst (Bird.x (Game.bird g)) (Game.spawnStep rnd g)
                (Game.score (Game.state g))) as Hf.
  pose proof (forEachPipe_snd (Bird.x (Game.bird g)) (Game.spawnStep rnd g)
                (Game.score (Game.state g))) as Hs.
  destruct (Game.forEachPipe _ _ _) as [moved s]; simpl in *.
  subst moved s. repeat split; reflexivity.
Qed.

(* The collision step changes the flag, the timer list and the posted
   scores, and nothing else. *)
Lemma update_fields (rnd : num) (g : Game.t num) :
  let g1 := Game.advance rnd g in
  let g2 := Game.update rnd g in
  Game.frameCount g2 = Game.frameCount g1 /\
  Game.bird g2 = Game.bird g1 /\
  Game.pipes g2 = Game.pipes g1 /\
  Game.score (Game.state g2) = Game.score (Game.state g1) /\
  Game.gameStarted (Game.state g2) = Game.gameStarted (Game.state g1) /\
  Game.paused (Game.state g2) = Game.paused (Game.state g1) /\
  Game.gameOver (Game.state g2) =
    (Game.checkCollisions g1 || Game.gameOver (Game.state g1)).
Proof.
  cbv zeta. unfold Game.update.
  destruct (Game.checkCollisions (Game.advance rnd g)); simpl;
    repeat split; reflexivity.
Qed.

End Tick.

(** ** What holds in every reachable game *)

Section Invariant.
Context {num : Type} {ops : JsNumber num}.
Local Open Scope js_scope.

Lemma wellFormed_fields (g g' : Game.t num) :
  Bird.x (Game.bird g') = Bird.x (Game.bird g) ->
  Bird.gravity (Game.bird g') = Bird.gravity (Game.bird g) ->
  Bird.radius (Game.bird g') = Bird.radius (Game.bird g) ->
  Game.pipes g' = Game.pipes g ->
  wellFormed g -> wellFormed g'.
Proof.
  intros Hx Hg Hr Hp (Wx & Wg & Wr & Wp).
  unfold wellFormed. rewrite Hx, Hg, Hr, Hp. repeat split; assumption.
Qed.

Lemma wellFormed_mounted : wellFormed (@Game.mounted num ops).
Proof.
  unfold wellFormed. simpl. repeat split. constructor.
Qed.

Lemma wellFormed_restart (g : Game.t num) : wellFormed (Game.restart g).
Proof.
  unfold wellFormed. simpl. repeat split. constructor.
Qed.

Lemma wellFormed_startGame (g : Game.t num) :
  wellFormed g -> wellFormed (Game.startGame g).
Proof.
  unfold Game.startGame.
  destruct (negb _ && negb _); [|tauto].
  apply wellFormed_fields; reflexivity.
Qed.

Lemma wellFormed_togglePause (g : Game.t num) :
  wellFormed g -> wellFormed (Game.togglePause g).
Proof.
  unfold Game.togglePause.
  destruct (_ && negb _); [|tauto].
  destruct (Game.paused (Game.state g));
    apply wellFormed_fields; reflexivity.
Qed.

Lemma wellFormed_jumpIfPlaying (g : Game.t num) :
  wellFormed g -> wellFormed (Game.jumpIfPlaying g).
Proof.
  unfold Game.jumpIfPlaying.
  destruct (_ && _ && _); [|tauto].
  apply wellFormed_fields; reflexivity.
Qed.

Lemma pipe_ok_new (h : num) (bottomPipe : bool) :
  pipe_ok (Pipe.new h bottomPipe).
Proof. unfold pipe_ok. simpl. repeat split. Qed.

(* A pipe that is still alive after its move is in order again. *)
Lemma pipe_ok_visitPipe (birdX : num) (pipe : Pipe.t num) :
  pipe_ok pipe ->
  Pipe.isDead (fst (Game.visitPipe birdX 0 pipe)) = false ->
  pipe_ok (fst (Game.visitPipe birdX 0 pipe)).
Proof.
  intros (_ & Hw & Hlow) Halive.
  rewrite visitPipe_scoresNow in Halive |- *.
  unfold pipe_ok.
  destruct (scoresNow birdX pipe) eqn:E; simpl in Halive |- *.
  - split; [exact Halive|]. split; [exact Hw|].
    intro Hb. unfold scoresNow in E. rewrite Hb, andb_false_r in E.
    discriminate.
  - split; [exact Halive|]. split; [exact Hw | exact Hlow].
Qed.

Lemma spawnStep_pipe_ok (rnd : num) (g : Game.t num) :
  Forall pipe_ok (Game.pipes g) -> Forall pipe_ok (Game.spawnStep rnd g).
Proof.
  intro Hps. unfold Game.spawnStep.
  destruct (_ =? 0)%N; [|exact Hps].
  apply Forall_app. split; [exact Hps|].
  unfold Game.generatePipes.
  repeat constructor; apply pipe_ok_new.
Qed.

Lemma wellFormed_update (rnd : num) (g : Game.t num) :
  wellFormed g -> wellFormed (Game.update rnd g).
Proof.
  intros (Wx & Wg & Wr & Wp).
  destruct (update_fields rnd g) as (_ & Hb & Hp & _).
  destruct (advance_fields rnd g) as (_ & Hab & Hap & _).
  cbv zeta in Hb, Hp, Hab, Hap.
  unfold wellFormed. rewrite Hb, Hab, Hp, Hap. simpl.
  repeat (split; [assumption|]).
  apply Forall_forall. intros pipe Hin.
  apply filter_In in Hin. destruct Hin as [Hin Halive].
  apply negb_true_iff in Halive.
  apply in_map_iff in Hin. destruct Hin as (pipe0 & Heq & Hin0).
  subst pipe. apply pipe_ok_visitPipe; [|exact Halive].
  pose proof (spawnStep_pipe_ok rnd g Wp) as Hsp.
  rewrite Forall_forall in Hsp. apply Hsp. exact Hin0.
Qed.

Lemma wellFormed_handle (e : Game.Event) (g : Game.t num) :
  wellFormed g -> wellFormed (Game.handle e g).
Proof.
  intro W. destruct e as [code | | h rnd]; simpl.
  - destruct code; simpl.
    + apply wellFormed_jumpIfPlaying.
      destruct (negb _); [apply wellFormed_startGame|]; exact W.
    + apply wellFormed_togglePause. exact W.
    + apply wellFormed_restart.
    + exact W.
  - unfold Game.onClick.
    destruct (negb _);
      [apply wellFormed_startGame | apply wellFormed_jumpIfPlaying]; exact W.
  - destruct (existsb _ _); [|exact W].
    unfold Game.gameLoop.
    destruct (negb _); [apply wellFormed_update|]; exact W.
Qed.

Lemma reachable_wellFormed (g : Game.t num) : reachable g -> wellFormed g.
Proof.
  induction 1 as [|e g _ IH].
  - apply wellFormed_mounted.
  - apply wellFormed_handle. exact IH.
Qed.

Lemma reachable_run (es : list Game.Event) : forall g : Game.t num,
  reachable g -> reachable (Game.run es g).
Proof.
  induction es as [|e rest IH]; intros g Hg; [exact Hg|].
  change (Game.run (e :: rest) g) with (Game.run rest (Game.handle e g)).
  apply IH. constructor. exact Hg.
Qed.

Lemma reachable_ticks (h : positive) (n : nat) :
  forall (rnd : nat -> num) (g : Game.t num),
    reachable g -> reachable (Game.ticks h rnd n g).
Proof.
  induction n as [|k IH]; intros rnd g Hg; [exact Hg|].
  change (Game.ticks h rnd (S k) g)
    with (Game.ticks h (fun i => rnd (S i)) k
            (Game.handle (Game.Timer h (rnd O)) g)).
  apply IH. constructor. exact Hg.
Qed.

End Invariant.

Lemma reachable_samples :
  reachable fresh /\ reachable started /\ reachable crashed /\
  reachable beforeSpawn /\ reachable beforeScore /\ reachable seasoned /\
  reachable twoTimers.
Proof.
  assert (H0 : reachable fresh) by exact reach_mounted.
  assert (H1 : reachable started)
    by exact (reach_handle (Game.KeyDown Space) fresh H0).
  split; [exact H0|]. split; [exact H1|].
  split; [exact (reachable_ticks 1 60 draw started H1)|].
  split; [exact (reachable_ticks 1 5 draw _ (reachable_run _ fresh H0))|].
  split; [exact (reachable_ticks 1 10 draw _ (reachable_run _ fresh H0))|].
  split; [exact (reachable_run _ fresh H0)|].
  exact (reachable_run _ fresh H0).
Qed.

(** ** The bird (claims C2 and C7) *)

Lemma existsb_handle (h : positive) (hs : list positive) :
  In h hs -> existsb (Pos.eqb h) hs = true.
Proof.
  intro Hin. apply existsb_exists. exists h. split; [exact Hin|].
  apply Pos.eqb_refl.
Qed.

Lemma running_flags {num : Type} {ops : JsNumber num} (g : Game.t num) :
  Game.phase g = Running <->
  Game.gameStarted (Game.state g) = true /\
  Game.gameOver (Game.state g) = false /\
  Game.paused (Game.state g) = false.
Proof.
  unfold Game.phase.
  destruct (Game.gameOver (Game.state g)), (Game.gameStarted (Game.state g)),
    (Game.paused (Game.state g)); simpl; split;
    try discriminate; try tauto; intros (A & B & C); discriminate.
Qed.

Lemma timer_runs_update {num : Type} {ops : JsNumber num}
  (h : positive) (rnd : num) (g : Game.t num) :
  In h (Game.intervals g) -> Game.paused (Game.state g) = false ->
  Game.handle (Game.Timer h rnd) g = Game.update rnd g.
Proof.
  intros Hin Hp. simpl. rewrite (existsb_handle _ _ Hin).
  unfold Game.gameLoop. rewrite Hp. reflexivity.
Qed.

(** C2. On every tick the bird first adds its gravity constant to its
    velocity and then adds the new velocity to its vertical position:
    v' = v + gravity and y' = y + v'.  Nothing else of the bird changes and
    no value is clamped, whatever the position is.  A tick is what a live
    timer triggers while the game is Running. *)
Theorem bird_tick_velocity_before_position :
  forall (num : Type) (ops : JsNumber num) (rnd : num) (g : Game.t num),
    let b := Game.bird g in
    let b' := Game.bird (Game.update rnd g) in
    Bird.velocity b' = (Bird.velocity b + Bird.gravity b)%js /\
    Bird.y b' = (Bird.y b + Bird.velocity b')%js /\
    Bird.x b' = Bird.x b /\
    Bird.gravity b' = Bird.gravity b /\
    Bird.radius b' = Bird.radius b /\
    b' = Bird.update b /\
    (forall h, Game.phase g = Running -> In h (Game.intervals g) ->
       Game.bird (Game.handle (Game.Timer h rnd) g) = Bird.update b) /\
    (reachable g -> Bird.gravity b = lit 0.4).
Proof.
  intros num ops rnd g b b'.
  assert (Hb : b' = Bird.update b).
  { unfold b'.
    destruct (update_fields rnd g) as (_ & Hu & _).
    destruct (advance_fields rnd g) as (_ & Ha & _).
    cbv zeta in Hu, Ha. rewrite Hu. exact Ha. }
  rewrite Hb. do 6 (split; [reflexivity|]). split.
  - intros h Hrun Hin. apply running_flags in Hrun.
    destruct Hrun as (_ & _ & Hp).
    rewrite (timer_runs_update h rnd g Hin Hp). exact Hb.
  - intro Hreach. apply reachable_wellFormed in Hreach.
    destruct Hreach as (_ & Hg & _). exact Hg.
Qed.

(** In the game just started, which is Running with timer 1 live, the
    firing of the timer moves the bird by one step of [Bird.update]. *)
Lemma bird_tick_velocity_before_position_witness :
  Game.bird (Game.handle (Game.Timer 1 0.5%float) started)
  = Bird.update (Game.bird started).
Proof.
  refine (proj1 (proj2 (proj2 (proj2 (proj2 (proj2 (proj2
            (bird_tick_velocity_before_position float F64
               0.5%float started)))))))
            1%positive _ _).
  - vm_compute. reflexivity.
  - vm_compute. left. reflexivity.
Defined.

(** C7. [jump] stores the fixed impulse -8 in the velocity, whatever the
    velocity was, and touches nothing else; the next tick then gives
    -8 + gravity.  With the bird as constructed (gravity 0.4, velocity 0):
    one tick gives velocity 0.4, and a jump followed by one tick gives
    -7.6, both in binary64 and in exact arithmetic. *)
Theorem jump_overrides_velocity :
  (forall (num : Type) (ops : JsNumber num) (b : Bird.t num),
     Bird.velocity (Bird.jump b) = lit (-8) /\
     Bird.velocity (Bird.update (Bird.jump b)) = (lit (-8) + Bird.gravity b)%js /\
     Bird.x (Bird.jump b) = Bird.x b /\
     Bird.y (Bird.jump b) = Bird.y b /\
     Bird.gravity (Bird.jump b) = Bird.gravity b /\
     Bird.radius (Bird.jump b) = Bird.radius b) /\
  (forall (num : Type) (ops : JsNumber num) (b1 b2 : Bird.t num),
     Bird.velocity (Bird.jump b1) = Bird.velocity (Bird.jump b2)) /\
  (Bird.gravity (@Bird.new float F64) = 0.4%float /\
   Bird.velocity (@Bird.new float F64) = 0%float /\
   Bird.velocity (Bird.jump (@Bird.new float F64)) = (-8)%float /\
   Bird.velocity (Bird.update (@Bird.new float F64)) = 0.4%float /\
   Bird.velocity (Bird.update (Bird.jump (@Bird.new float F64)))
     = (-7.6)%float) /\
  (Bird.velocity (Bird.update (@Bird.new Q Exact)) = 0.4%Q /\
   Bird.velocity (Bird.update (Bird.jump (@Bird.new Q Exact))) = (-7.6)%Q).
Proof.
  split; [|split; [|split]].
  - intros num ops b. simpl. repeat split.
  - intros num ops b1 b2. simpl. reflexivity.
  - repeat split; vm_compute; reflexivity.
  - split; vm_compute; reflexivity.
Qed.

(** ** Collision detection (claims C4 and C5) *)

Section Collision.
Context {num : Type} {ops : JsNumber num}.
Local Open Scope js_scope.


Lemma checkCollisions_orb (g : Game.t num) :
  Game.checkCollisions g =
  Game.outOfBounds (Bird.getBounds (Game.bird g))
  || existsb (Game.hitsPipe (Bird.getBounds (Game.bird g))) (Game.pipes g).
Proof.
  unfold Game.checkCollisions.
  destruct (Game.outOfBounds _); reflexivity.
Qed.

Lemma checkCollisions_bird_only (g g' : Game.t num) :
  Game.bird g' = Game.bird g ->
  Game.outOfBounds (Bird.getBounds (Game.bird g)) = true ->
  Game.checkCollisions g' = true.
Proof.
  intros Hb Hout. rewrite checkCollisions_orb, Hb, Hout. reflexivity.
Qed.

End Collision.

(** C4. The collision test answers true as soon as the top of the bird's
    box is at or above -5, or its bottom is at or below HEIGHT + 5 (the
    margin of the boundary test is 5 and HEIGHT is 500), whatever the
    pipes are: any game with the same bird collides too.  In binary64, a
    bird whose box ends at 507 (y = 495, radius 12) collides, for
    HEIGHT + 5 = 505. *)
Theorem out_of_bounds_collides :
  (forall (num : Type) (ops : JsNumber num) (g : Game.t num),
     let bb := Bird.getBounds (Game.bird g) in
     (top bb <=? lit (-5))%js = true \/
     (bottom bb >=? HEIGHT + lit 5)%js = true ->
     Game.checkCollisions g = true /\
     forall g' : Game.t num,
       Game.bird g' = Game.bird g -> Game.checkCollisions g' = true) /\
  ((@HEIGHT float F64 + lit 5)%js = 505%float /\
   forall g : Game.t float,
     Bird.y (Game.bird g) = 495%float ->
     Bird.radius (Game.bird g) = 12%float ->
     bottom (Bird.getBounds (Game.bird g)) = 507%float /\
     Game.checkCollisions g = true).
Proof.
  split.
  - intros num ops g bb Hedge.
    assert (Hout : Game.outOfBounds bb = true).
    { unfold Game.outOfBounds. apply orb_true_iff. exact Hedge. }
    split.
    + apply (checkCollisions_bird_only g g eq_refl Hout).
    + intros g' Hb. apply (checkCollisions_bird_only g g' Hb Hout).
  - split; [vm_compute; reflexivity|].
    intros g Hy Hr.
    assert (Hbot : bottom (Bird.getBounds (Game.bird g)) = 507%float).
    { simpl. rewrite Hy, Hr. vm_compute. reflexivity. }
    split; [exact Hbot|].
    rewrite checkCollisions_orb. unfold Game.outOfBounds.
    rewrite Hbot.
    assert (Hcmp : @num_le float F64 (@HEIGHT float F64 + lit 5)%js 507%float
                   = true) by (vm_compute; reflexivity).
    rewrite Hcmp, orb_true_r. reflexivity.
Qed.

(** The falling bird of [crashed] is below the floor margin: the boundary
    test fires on a game reached by play. *)
Lemma out_of_bounds_collides_witness :
  Game.checkCollisions crashed = true.
Proof.
  refine (proj1 (proj1 out_of_bounds_collides float F64 crashed _)).
  right. vm_compute. reflexivity.
Defined.


(** ** Scoring (claim C1) *)

Section Scoring.
Context {num : Type} {ops : JsNumber num}.
Local Open Scope js_scope.

Lemma scoresNow_iff (birdX : num) (pipe : Pipe.t num) :
  scoresNow birdX pipe = true <->
  Pipe.scored pipe = false /\
  (Pipe.x (Pipe.update pipe) + PIPE_WIDTH <? birdX) = true /\
  Pipe.isBottom pipe = false.
Proof.
  unfold scoresNow. simpl.
  rewrite !andb_true_iff, !negb_true_iff. tauto.
Qed.

Lemma visitPipe_isBottom (birdX : num) (s : N) (pipe : Pipe.t num) :
  Pipe.isBottom (fst (Game.visitPipe birdX s pipe)) = Pipe.isBottom pipe.
Proof.
  rewrite visitPipe_scoresNow. now destruct (scoresNow birdX pipe).
Qed.

(* The score moves exactly when the flag does. *)
Lemma visitPipe_account (birdX : num) (s : N) (pipe : Pipe.t num) :
  (snd (Game.visitPipe birdX s pipe) + N.b2n (Pipe.scored pipe))%N =
  (s + N.b2n (Pipe.scored (fst (Game.visitPipe birdX s pipe))))%N.
Proof.
  rewrite visitPipe_scoresNow.
  destruct (scoresNow birdX pipe) eqn:E; simpl; [|reflexivity].
  apply scoresNow_iff in E. destruct E as (E & _). rewrite E. simpl. lia.
Qed.

Lemma visitPipe_scored_stays (birdX : num) (s : N) (pipe : Pipe.t num) :
  Pipe.scored pipe = true ->
  Game.visitPipe birdX s pipe = (Pipe.update pipe, s) /\
  Pipe.scored (Pipe.update pipe) = true.
Proof.
  intro Hs. rewrite visitPipe_scoresNow. unfold scoresNow.
  rewrite Hs. simpl. split; [reflexivity | exact Hs].
Qed.

Lemma visitPipe_lower (birdX : num) (s : N) (pipe : Pipe.t num) :
  Pipe.isBottom pipe = true ->
  Game.visitPipe birdX s pipe = (Pipe.update pipe, s).
Proof.
  intro Hb. rewrite visitPipe_scoresNow. unfold scoresNow.
  rewrite Hb, andb_false_r. reflexivity.
Qed.

Lemma visits_account (birdX : num) (n : nat) : forall s pipe,
  (snd (visits birdX n s pipe) + N.b2n (Pipe.scored pipe))%N =
  (s + N.b2n (Pipe.scored (fst (visits birdX n s pipe))))%N.
Proof.
  induction n as [|k IH]; intros s pipe; simpl; [reflexivity|].
  pose proof (visitPipe_account birdX s pipe) as Hv.
  destruct (Game.visitPipe birdX s pipe) as [pipe' s']; simpl in Hv.
  specialize (IH s' pipe'). lia.
Qed.

Lemma visits_scored_stays (birdX : num) (n : nat) : forall s pipe,
  Pipe.scored pipe = true ->
  Pipe.scored (fst (visits birdX n s pipe)) = true /\
  snd (visits birdX n s pipe) = s.
Proof.
  induction n as [|k IH]; intros s pipe Hs; simpl; [now split|].
  destruct (visitPipe_scored_stays birdX s pipe Hs) as [Hv Hu].
  rewrite Hv. apply IH. exact Hu.
Qed.

Lemma visits_lower (birdX : num) (n : nat) : forall s pipe,
  Pipe.isBottom pipe = true ->
  snd (visits birdX n s pipe) = s /\
  Pipe.scored (fst (visits birdX n s pipe)) = Pipe.scored pipe.
Proof.
  induction n as [|k IH]; intros s pipe Hb; simpl; [now split|].
  rewrite (visitPipe_lower birdX s pipe Hb).
  destruct (IH s (Pipe.update pipe) Hb) as [H1 H2]. now split.
Qed.

(* A pipe that has left the screen has passed the bird before, when
   "left of 0" implies "left of the bird". *)
Section OffScreen.
Variable birdX : num.
Hypothesis left_of_bird :
  forall a : num, (a <? lit 0) = true -> (a <? birdX) = true.

Lemma visitPipe_counted_when_gone (s : N) (pipe : Pipe.t num) :
  counted_when_gone pipe ->
  counted_when_gone (fst (Game.visitPipe birdX s pipe)).
Proof.
  intros Hinv. unfold counted_when_gone.
  rewrite visitPipe_scoresNow.
  destruct (scoresNow birdX pipe) eqn:E; simpl; [reflexivity|].
  intros Hup Hdead.
  destruct (Pipe.scored pipe) eqn:Hs; [reflexivity|].
  destruct (Pipe.x pipe - lit 1.5 + PIPE_WIDTH <? lit 0) eqn:Hgone.
  - apply left_of_bird in Hgone.
    unfold scoresNow in E. rewrite Hs, Hgone, Hup in E. discriminate.
  - rewrite <- Hs. apply Hinv; assumption.
Qed.

Lemma visits_counted_when_gone (n : nat) : forall s pipe,
  counted_when_gone pipe ->
  counted_when_gone (fst (visits birdX n s pipe)).
Proof.
  induction n as [|k IH]; intros s pipe Hinv; simpl; [exact Hinv|].
  pose proof (visitPipe_counted_when_gone s pipe Hinv) as Hv.
  destruct (Game.visitPipe birdX s pipe) as [pipe' s']; simpl in Hv.
  apply IH. exact Hv.
Qed.

Lemma visits_isBottom (n : nat) : forall s pipe,
  Pipe.isBottom (fst (visits birdX n s pipe)) = Pipe.isBottom pipe.
Proof.
  induction n as [|k IH]; intros s pipe; simpl; [reflexivity|].
  pose proof (visitPipe_isBottom birdX s pipe) as Hv.
  destruct (Game.visitPipe birdX s pipe) as [pipe' s']; simpl in Hv.
  rewrite IH. exact Hv.
Qed.

Lemma upper_pipe_counted_once (n : nat) (s : N) (h : num) :
  Pipe.isDead (fst (visits birdX n s (Pipe.new h false))) = true ->
  snd (visits birdX n s (Pipe.new h false)) = (s + 1)%N.
Proof.
  intro Hdead.
  assert (Hinv : counted_when_gone (Pipe.new h false)).
  { unfold counted_when_gone. simpl. discriminate. }
  pose proof (visits_counted_when_gone n s _ Hinv) as Hfin.
  pose proof (visits_isBottom n s (Pipe.new h false)) as Hb.
  pose proof (visits_account birdX n s (Pipe.new h false)) as Hacc.
  rewrite (Hfin Hb Hdead) in Hacc. simpl in Hacc. lia.
Qed.

End OffScreen.

(* The score never goes down, except by a restart. *)
Lemma update_score_le (rnd : num) (g : Game.t num) :
  (Game.score (Game.state g) <= Game.score (Game.state (Game.update rnd g)))%N.
Proof.
  destruct (update_fields rnd g) as (_ & _ & _ & Hs & _).
  destruct (advance_fields rnd g) as (_ & _ & _ & Ha & _).
  cbv zeta in Hs, Ha. rewrite Hs, Ha. lia.
Qed.

Lemma handle_score_le (e : Game.Event) (g : Game.t num) :
  e <> Game.KeyDown KeyR ->
  (Game.score (Game.state g) <= Game.score (Game.state (Game.handle e g)))%N.
Proof.
  intro Hne.
  assert (Hstart : Game.score (Game.state (Game.startGame g))
                   = Game.score (Game.state g)).
  { unfold Game.startGame.
    destruct (negb _ && negb _); reflexivity. }
  assert (Hjump : forall g0 : Game.t num,
             Game.score (Game.state (Game.jumpIfPlaying g0))
             = Game.score (Game.state g0)).
  { intro g0. unfold Game.jumpIfPlaying.
    destruct (_ && _ && _); reflexivity. }
  destruct e as [code | | h rnd]; simpl.
  - destruct code; simpl.
    + rewrite Hjump.
      destruct (negb (Game.gameStarted (Game.state g)));
        [rewrite Hstart|]; lia.
    + unfold Game.togglePause.
      destruct (_ && _); [|lia].
      destruct (Game.paused (Game.state g)); simpl; lia.
    + contradiction Hne. reflexivity.
    + lia.
  - unfold Game.onClick.
    destruct (negb (Game.gameStarted (Game.state g)));
      [rewrite Hstart | rewrite Hjump]; lia.
  - destruct (existsb _ _); [|lia].
    unfold Game.gameLoop.
    destruct (negb _); [apply update_score_le | lia].
Qed.

Lemma run_score_le (es : list Game.Event) : forall g : Game.t num,
  ~ In (Game.KeyDown KeyR) es ->
  (Game.score (Game.state g) <= Game.score (Game.state (Game.run es g)))%N.
Proof.
  induction es as [|e rest IH]; intros g Hno; [apply N.le_refl|].
  assert (He : e <> Game.KeyDown KeyR).
  { intro Heq. apply Hno. left. exact Heq. }
  assert (Hrest : ~ In (Game.KeyDown KeyR) rest).
  { intro Hin. apply Hno. right. exact Hin. }
  change (Game.run (e :: rest) g) with (Game.run rest (Game.handle e g)).
  apply N.le_trans with (Game.score (Game.state (Game.handle e g))).
  - apply handle_score_le. exact He.
  - apply IH. exact Hrest.
Qed.

End Scoring.

(* In binary64 a number below 0 is below 150, the bird's abscissa. *)
Lemma f64_left_of_bird (a : float) :
  (a <? @lit float F64 0)%js = true ->
  (a <? Bird.x (@Bird.new float F64))%js = true.
Proof.
  change (@lit float F64 0) with (f64_lit 0).
  change (Bird.x (@Bird.new float F64)) with (f64_lit 150).
  simpl num_lt. rewrite !FloatAxioms.ltb_spec.
  replace (Prim2SF (f64_lit 0)) with (S754_zero false)
    by (vm_compute; reflexivity).
  replace (Prim2SF (f64_lit 150))
    with (S754_finite false 5277655813324800 (-45))
    by (vm_compute; reflexivity).
  unfold SFltb, SFcompare.
  destruct (Prim2SF a) as [sa | sa | | sa ma ea]; try discriminate.
  - destruct sa; [reflexivity | discriminate].
  - destruct sa; [reflexivity | discriminate].
Qed.

(** C1. A tick adds to the score one for each upper pipe that, after
    moving, has its trailing edge x + PIPE_WIDTH left of the bird's x while
    its scored flag is still false, and nothing else; so the score never
    decreases on a tick, nor along any run of events without a restart.
    A lower pipe never adds to the score and its flag is never written.  A
    flag that is true stays true and the pipe adds nothing more.  Hence
    over any number of ticks a pipe adds exactly as much as its flag moved:
    a generated pair adds at most one, and one exactly when its upper pipe
    has passed the bird, which is the case of every pair that leaves the
    screen (given that left of 0 is left of the bird). *)
Theorem score_counts_each_passed_pair_once :
  forall (num : Type) (ops : JsNumber num),
    (forall (rnd : num) (g : Game.t num),
       let birdX := Bird.x (Game.bird g) in
       Game.score (Game.state (Game.update rnd g)) =
         (Game.score (Game.state g)
          + N.of_nat (length (filter (scoresNow birdX)
                                (Game.spawnStep rnd g))))%N /\
       (Game.score (Game.state g)
        <= Game.score (Game.state (Game.update rnd g)))%N /\
       Game.pipes (Game.update rnd g) =
         filter (fun pipe => negb (Pipe.isDead pipe))
           (map (fun pipe => fst (Game.visitPipe birdX 0 pipe))
              (Game.spawnStep rnd g))) /\
    (forall (es : list Game.Event) (g : Game.t num),
       ~ In (Game.KeyDown KeyR) es ->
       (Game.score (Game.state g)
        <= Game.score (Game.state (Game.run es g)))%N) /\
    (forall (birdX : num) (pipe : Pipe.t num),
       scoresNow birdX pipe = true <->
       Pipe.scored pipe = false /\
       (Pipe.x (Pipe.update pipe) + PIPE_WIDTH <? birdX)%js = true /\
       Pipe.isBottom pipe = false) /\
    (forall (birdX : num) (s : N) (pipe : Pipe.t num),
       Game.visitPipe birdX s pipe =
       if scoresNow birdX pipe
       then (Pipe.setScored (Pipe.update pipe), (s + 1)%N)
       else (Pipe.update pipe, s)) /\
    (forall (birdX : num) (n : nat) (s : N) (pipe : Pipe.t num),
       Pipe.isBottom pipe = true ->
       snd (visits birdX n s pipe) = s /\
       Pipe.scored (fst (visits birdX n s pipe)) = Pipe.scored pipe) /\
    (forall (birdX : num) (n : nat) (s : N) (pipe : Pipe.t num),
       Pipe.scored pipe = true ->
       Pipe.scored (fst (visits birdX n s pipe)) = true /\
       snd (visits birdX n s pipe) = s) /\
    (forall (birdX : num) (n : nat) (s : N) (pipe : Pipe.t num),
       (snd (visits birdX n s pipe) + N.b2n (Pipe.scored pipe))%N =
       (s + N.b2n (Pipe.scored (fst (visits birdX n s pipe))))%N) /\
    (forall (birdX rnd : num) (n : nat) (g : Game.t num),
       exists upper lower,
         Game.generatePipes rnd g = [upper; lower] /\
         Pipe.isBottom upper = false /\ Pipe.isBottom lower = true /\
         Pipe.scored upper = false /\ Pipe.scored lower = false /\
         increments birdX n [upper; lower] =
           N.b2n (Pipe.scored (fst (visits birdX n 0 upper))) /\
         (increments birdX n [upper; lower] <= 1)%N) /\
    (forall birdX : num,
       (forall a : num, (a <? lit 0)%js = true -> (a <? birdX)%js = true) ->
       forall (n : nat) (s : N) (h : num),
         Pipe.isDead (fst (visits birdX n s (Pipe.new h false))) = true ->
         snd (visits birdX n s (Pipe.new h false)) = (s + 1)%N) /\
    (forall g : Game.t num,
       reachable g ->
       Bird.x (Game.bird g) = lit 150 /\
       forall pipe, In pipe (Game.pipes g) ->
         Pipe.isDead pipe = false /\
         (Pipe.isBottom pipe = true -> Pipe.scored pipe = false)).
Proof.
  intros num ops.
  split; [|split; [|split; [|split; [|split; [|split; [|split; [|split;
    [|split]]]]]]]].
  - intros rnd g birdX.
    destruct (update_fields rnd g) as (_ & _ & Hp & Hs & _).
    destruct (advance_fields rnd g) as (_ & _ & Hap & Has & _).
    cbv zeta in Hp, Hs, Hap, Has. fold birdX in Hap, Has.
    split; [rewrite Hs; exact Has|].
    split; [apply update_score_le|].
    rewrite Hp. exact Hap.
  - intros es g Hno. apply run_score_le. exact Hno.
  - intros birdX pipe. apply scoresNow_iff.
  - intros birdX s pipe. apply visitPipe_scoresNow.
  - intros birdX n s pipe Hb. apply visits_lower. exact Hb.
  - intros birdX n s pipe Hs. apply visits_scored_stays. exact Hs.
  - intros birdX n s pipe. apply visits_account.
  - intros birdX rnd n g. eexists. eexists.
    split; [reflexivity|]. simpl Pipe.isBottom. simpl Pipe.scored.
    repeat (split; [reflexivity|]).
    match goal with |- increments _ _ [?u; ?l] = _ /\ _ =>
      set (upper := u); set (lower := l) end.
    pose proof (visits_account birdX n 0 upper) as Hu.
    destruct (visits_lower birdX n 0 lower eq_refl) as [Hl _].
    assert (Hinc : increments birdX n [upper; lower] =
                   N.b2n (Pipe.scored (fst (visits birdX n 0 upper)))).
    { unfold increments. simpl fold_right. rewrite Hl.
      simpl in Hu. lia. }
    split; [exact Hinc|]. rewrite Hinc.
    destruct (Pipe.scored (fst (visits birdX n 0 upper))); simpl; lia.
  - intros birdX Hlaw n s h Hdead.
    apply (upper_pipe_counted_once birdX Hlaw n s h Hdead).
  - intros g Hreach. apply reachable_wellFormed in Hreach.
    destruct Hreach as (Hx & _ & _ & Hps).
    split; [exact Hx|]. intros pipe Hin.
    rewrite Forall_forall in Hps.
    destruct (Hps pipe Hin) as (Halive & _ & Hlow).
    split; [exact Halive | exact Hlow].
Qed.

(** In binary64, an upper pipe followed from its creation for 600 ticks
    has left the screen and has added exactly one to the score. *)
Lemma score_counts_each_passed_pair_once_witness :
  snd (visits (Bird.x (@Bird.new float F64)) 600 0
         (Pipe.new 125%float false)) = 1%N.
Proof.
  refine (proj1 (proj2 (proj2 (proj2 (proj2 (proj2 (proj2 (proj2 (proj2
            (score_counts_each_passed_pair_once float F64)))))))))
            (Bird.x (@Bird.new float F64)) f64_left_of_bird
            600%nat 0%N 125%float _).
  vm_compute. reflexivity.
Defined.

(** The first pair of a played game: on tick 713 its upper pipe passes
    the bird and the score goes from 0 to 1; the lower pipe is not marked. *)
Lemma first_pair_scores_on_tick_713 :
  Game.phase beforeScore = Running /\
  Game.frameCount beforeScore = 712%N /\
  Game.score (Game.state beforeScore) = 0%N /\
  Game.score (Game.state (Game.update 0.5%float beforeScore)) = 1%N /\
  map (fun pipe => (Pipe.isBottom pipe, Pipe.scored pipe))
      (Game.pipes (Game.update 0.5%float beforeScore))
  = [(false, true); (true, false); (false, false); (true, false)].
Proof.
  repeat split; vm_compute; reflexivity.
Qed.

(** ** Rounding in binary64: the operations on scaled integers

    [generatePipes] computes p = rnd * c, t = 30 + p, u = 500 - t and
    b = u - gap, and the claim is about t + b + gap.  Each operation of
    [SpecFloat] is shown to be the exact operation on the scaled values
    followed by [rne] on a grid fixed by the size of the result
    ([SFadd_fl], [SFsub_fl], [SFmul_fl]).  The product and the first sum
    only need bounds; from t on, all values are multiples of 2^-48 between
    30 and 500, and the four remaining roundings are followed exactly on
    integers ([chain_int]). *)

Section Rounding.
Local Open Scope Z_scope.

Lemma shr_1_spec (m : Z) (r s : bool) :
  0 <= m ->
  shr_1 {| shr_m := m; shr_r := r; shr_s := s |} =
  {| shr_m := m / 2; shr_r := Z.odd m; shr_s := r || s |}.
Proof.
  intro Hm. destruct m as [|p|p]; [reflexivity| |lia].
  destruct p as [p|p|]; simpl shr_1; f_equal.
  - rewrite Pos2Z.inj_xI. apply Z.div_unique with 1; lia.
  - rewrite Pos2Z.inj_xO. apply Z.div_unique with 0; lia.
Qed.

Lemma iter_pos_nat {A : Type} (f : A -> A) (p : positive) : forall x,
  iter_pos f p x = Nat.iter (Pos.to_nat p) f x.
Proof.
  induction p as [p IH|p IH|]; intro x; simpl iter_pos.
  - rewrite !IH, Pos2Nat.inj_xI.
    replace (S (2 * Pos.to_nat p))%nat with (Pos.to_nat p + (Pos.to_nat p + 1))%nat by lia.
    rewrite !Nat.iter_add. simpl. reflexivity.
  - rewrite !IH, Pos2Nat.inj_xO.
    replace (2 * Pos.to_nat p)%nat with (Pos.to_nat p + Pos.to_nat p)%nat by lia.
    rewrite Nat.iter_add. reflexivity.
  - reflexivity.
Qed.

(* After n halvings the record holds the quotient, the next bit and
   whether anything lower was set; V = 2 M. *)
Lemma iter_shr_1 (M : Z) (n : nat) :
  0 <= M ->
  Nat.iter n shr_1 {| shr_m := M; shr_r := false; shr_s := false |} =
  {| shr_m := (2 * M) / 2 ^ (Z.of_nat n + 1);
     shr_r := Z.odd ((2 * M) / 2 ^ Z.of_nat n);
     shr_s := negb ((2 * M) mod 2 ^ Z.of_nat n =? 0) |}.
Proof.
  intro HM. induction n as [|k IH].
  - simpl Nat.iter. change (2 ^ (Z.of_nat 0 + 1)) with 2.
    change (2 ^ Z.of_nat 0) with 1.
    rewrite Z.div_1_r, Z.mod_1_r, Z.mul_comm, Z.div_mul by lia.
    rewrite Z.odd_mul. simpl. rewrite andb_false_r. reflexivity.
  - simpl Nat.iter. rewrite IH.
    assert (Hpk : 0 < 2 ^ Z.of_nat k) by (apply Z.pow_pos_nonneg; lia).
    rewrite shr_1_spec by (apply Z.div_pos; [lia | apply Z.pow_pos_nonneg; lia]).
    rewrite Nat2Z.inj_succ.
    replace (Z.succ (Z.of_nat k) + 1) with ((Z.of_nat k + 1) + 1) by lia.
    rewrite (Z.pow_add_r 2 (Z.of_nat k + 1) 1) by lia.
    rewrite <- Z.div_div by (try apply Z.pow_pos_nonneg; lia).
    change (2 ^ 1) with 2.
    replace (Z.succ (Z.of_nat k)) with (Z.of_nat k + 1) by lia.
    f_equal.
    rewrite (Z.pow_add_r 2 (Z.of_nat k) 1) by lia. change (2 ^ 1) with 2.
    rewrite Z.rem_mul_r by lia.
    set (V := 2 * M). set (P := 2 ^ Z.of_nat k) in *.
    rewrite (Zmod_odd (V / P)).
    destruct (Z.odd (V / P)); simpl.
    + symmetry. apply negb_true_iff, Z.eqb_neq.
      pose proof (Z.mod_pos_bound V P Hpk). lia.
    + rewrite Z.mul_0_r, Z.add_0_r. reflexivity.
Qed.

Lemma round_after_shr (M : Z) (n : nat) :
  0 <= M ->
  let rec := Nat.iter n shr_1 (shr_record_of_loc M loc_Exact) in
  round_nearest_even (shr_m rec) (loc_of_shr_record rec) = rne M (Z.of_nat n).
Proof.
  intros HM rec. unfold rec. simpl shr_record_of_loc.
  rewrite (iter_shr_1 M n HM). unfold rne.
  set (P := 2 ^ Z.of_nat n).
  assert (HP : 0 < P) by (apply Z.pow_pos_nonneg; lia).
  replace (2 ^ (Z.of_nat n + 1)) with (2 * P)
    by (unfold P; rewrite Z.pow_add_r by lia; change (2 ^ 1) with 2; lia).
  rewrite Z.div_mul_cancel_l by lia.
  assert (Hrem : 2 * (M mod P) = (2 * M) mod P + P * (if Z.odd (2 * M / P) then 1 else 0)).
  { rewrite <- Z.mul_mod_distr_l by lia.
    rewrite (Z.mul_comm 2 P), Z.rem_mul_r by lia.
    rewrite (Zmod_odd (2 * M / P)). reflexivity. }
  rewrite Hrem.
  pose proof (Z.mod_pos_bound (2 * M) P HP) as Hb.
  simpl shr_m. unfold loc_of_shr_record.
  destruct (Z.odd (2 * M / P)); destruct (Z.eqb_spec ((2 * M) mod P) 0) as [E|E];
    simpl negb; cbv iota.
  - rewrite E. replace (0 + P * 1 ?= P) with Eq
      by (symmetry; apply Z.compare_eq_iff; lia). reflexivity.
  - replace ((2 * M) mod P + P * 1 ?= P) with Gt
      by (symmetry; apply Z.compare_gt_iff; lia). reflexivity.
  - replace ((2 * M) mod P + P * 0 ?= P) with Lt
      by (symmetry; apply Z.compare_lt_iff; lia). reflexivity.
  - replace ((2 * M) mod P + P * 0 ?= P) with Lt
      by (symmetry; apply Z.compare_lt_iff; lia). reflexivity.
Qed.

Lemma rne_nearest (M n : Z) : 0 <= n -> nearest M n (rne M n).
Proof.
  intro Hn. unfold nearest, rne.
  set (P := 2 ^ n). assert (HP : 0 < P) by (apply Z.pow_pos_nonneg; lia).
  pose proof (Z.div_mod M P ltac:(lia)) as Hdm.
  pose proof (Z.mod_pos_bound M P HP) as Hb.
  set (q := M / P) in *. set (r := M mod P) in *.
  destruct (Z.compare_spec (2 * r) P) as [E|E|E].
  - destruct (Z.even q) eqn:Ev.
    + split; [lia|]. intros _. exact Ev.
    + split; [lia|]. intros _. rewrite Z.even_add, Ev. reflexivity.
  - split; [lia|]. intros [H|H]; lia.
  - split; [lia|]. intros [H|H]; lia.
Qed.

Lemma nearest_unique (M n X Y : Z) :
  0 <= n -> nearest M n X -> nearest M n Y -> X = Y.
Proof.
  intros Hn [HX EX] [HY EY].
  set (P := 2 ^ n) in *. assert (HP : 0 < P) by (apply Z.pow_pos_nonneg; lia).
  assert (HD : -1 <= X - Y <= 1) by nia.
  assert (Hodd : forall a b, Z.even a = true -> Z.even b = true -> a - b <> 1).
  { intros a b Ha Hb Hab. apply Z.even_spec in Ha, Hb.
    destruct Ha as [x Hx], Hb as [y Hy]. lia. }
  destruct (Z.eq_dec (X - Y) 0) as [E0|N0]; [lia|].
  destruct (Z.eq_dec (X - Y) 1) as [E1|N1].
  - exfalso. apply (Hodd X Y); [apply EX | apply EY | exact E1]; nia.
  - assert (E2 : Y - X = 1) by lia.
    exfalso. apply (Hodd Y X); [apply EY | apply EX | exact E2]; nia.
Qed.

Lemma rne_unique (M n X : Z) : 0 <= n -> nearest M n X -> rne M n = X.
Proof.
  intros Hn HX. apply (nearest_unique M n); [exact Hn | | exact HX].
  apply rne_nearest. exact Hn.
Qed.

Lemma rne_exact (X n : Z) : 0 <= n -> rne (X * 2 ^ n) n = X.
Proof.
  intro Hn. apply rne_unique; [exact Hn|].
  assert (HP : 0 < 2 ^ n) by (apply Z.pow_pos_nonneg; lia).
  unfold nearest. split; [lia|]. intros [H|H]; lia.
Qed.

Lemma rne_bounds (M n A B : Z) :
  0 <= n -> A * 2 ^ n <= M <= B * 2 ^ n -> A <= rne M n <= B.
Proof.
  intros Hn HAB. destruct (rne_nearest M n Hn) as [HX _].
  set (P := 2 ^ n) in *. assert (HP : 0 < P) by (apply Z.pow_pos_nonneg; lia).
  split; nia.
Qed.

Lemma rne_scale (M n j : Z) :
  0 <= n -> 0 <= j -> rne (M * 2 ^ j) (n + j) = rne M n.
Proof.
  intros Hn Hj. apply rne_unique; [lia|].
  destruct (rne_nearest M n Hn) as [HX EX].
  unfold nearest. rewrite Z.pow_add_r by lia.
  set (P := 2 ^ n) in *. set (J := 2 ^ j).
  assert (HJ : 0 < J) by (apply Z.pow_pos_nonneg; lia).
  split; [nia|]. intros [H|H]; apply EX; nia.
Qed.

(** Binary digits *)

Lemma digits2_size (p : positive) : digits2_pos p = Pos.size p.
Proof. induction p as [p IH|p IH|]; simpl; congruence. Qed.

Lemma Zdigits2_log2 (M : Z) : 0 < M -> Zdigits2 M = Z.log2 M + 1.
Proof.
  intro HM. destruct M as [|p|p]; try lia.
  simpl Zdigits2. rewrite digits2_size.
  destruct p as [p|p|]; simpl; try rewrite Pos2Z.inj_succ; lia.
Qed.

Lemma Zdigits2_bounds (M k : Z) :
  2 ^ (k - 1) <= M < 2 ^ k -> 0 < k -> Zdigits2 M = k.
Proof.
  intros HM Hk.
  assert (0 < M) by (pose proof (Z.pow_pos_nonneg 2 (k - 1)); lia).
  rewrite Zdigits2_log2 by assumption.
  rewrite (Z.log2_unique M (k - 1)); [lia | lia |].
  replace (Z.succ (k - 1)) with k by lia. exact HM.
Qed.

Lemma fexp64 (x : Z) : fexp prec emax x = Z.max (x - 53) (-1074).
Proof. reflexivity. Qed.

Lemma shr_fexp_exact (m e : Z) :
  shr_fexp prec emax m e loc_Exact =
  let n := Z.max (Zdigits2 m + e - 53) (-1074) - e in
  if n <=? 0 then ({| shr_m := m; shr_r := false; shr_s := false |}, e)
  else (Nat.iter (Z.to_nat n) shr_1
          {| shr_m := m; shr_r := false; shr_s := false |}, e + n).
Proof.
  unfold shr_fexp. rewrite fexp64. cbv zeta.
  set (n := Z.max (Zdigits2 m + e - 53) (-1074) - e).
  unfold shr. simpl shr_record_of_loc.
  destruct n as [|k|k]; simpl Z.leb; cbv iota; try reflexivity.
  rewrite iter_pos_nat. reflexivity.
Qed.

Lemma pos_iter_xO (M k : positive) :
  Zpos (Pos.iter xO M k) = Zpos M * 2 ^ Zpos k.
Proof.
  revert M. induction k as [|k IH] using Pos.peano_ind; intro M.
  - simpl. lia.
  - rewrite Pos.iter_succ, Pos2Z.inj_xO, IH, Pos2Z.inj_succ, Z.pow_succ_r by lia.
    lia.
Qed.

Lemma rne_0 (M : Z) : rne M 0 = M.
Proof.
  replace M with (M * 2 ^ 0) at 1 by (change (2 ^ 0) with 1; lia).
  apply rne_exact. lia.
Qed.

Lemma log2_lt_pow2 (M : Z) : 0 < M -> 2 ^ Z.log2 M <= M < 2 ^ (Z.log2 M + 1).
Proof.
  intro HM. pose proof (Z.log2_spec M HM) as H.
  replace (Z.log2 M + 1) with (Z.succ (Z.log2 M)) by lia. exact H.
Qed.

(* The rounding step that ends every operation, on an integer mantissa
   that needs no shift to the left. *)
Lemma round_aux_spec (M e : Z) :
  0 < M ->
  e <= Z.max (Z.log2 M + 1 + e - 53) (-1074) ->
  Z.max (Z.log2 M + 1 + e - 53) (-1074) + 1 <= 971 ->
  binary_round_aux prec emax false M e loc_Exact = rounded M e.
Proof.
  intros HM Hle Hov. unfold rounded.
  set (e' := Z.max (Z.log2 M + 1 + e - 53) (-1074)) in *. cbv zeta.
  pose proof (log2_lt_pow2 M HM) as HlM.
  assert (Hn : 0 <= e' - e) by lia.
  assert (Hm2 : 0 <= rne M (e' - e) <= 2 ^ 53).
  { apply rne_bounds; [exact Hn|]. split; [lia|].
    rewrite <- Z.pow_add_r by lia.
    assert (2 ^ (Z.log2 M + 1) <= 2 ^ (53 + (e' - e)))
      by (apply Z.pow_le_mono_r; lia).
    lia. }
  unfold binary_round_aux. rewrite shr_fexp_exact.
  rewrite (Zdigits2_log2 M HM). fold e'. cbv zeta.
  assert (Hround :
    (let (mrs', e1) :=
       if e' - e <=? 0
       then ({| shr_m := M; shr_r := false; shr_s := false |}, e)
       else (Nat.iter (Z.to_nat (e' - e)) shr_1
               {| shr_m := M; shr_r := false; shr_s := false |}, e + (e' - e)) in
     (round_nearest_even (shr_m mrs') (loc_of_shr_record mrs'), e1))
    = (rne M (e' - e), e')).
  { destruct (Z.leb_spec (e' - e) 0) as [H0|H0].
    - replace (e' - e) with 0 by lia. rewrite rne_0. simpl. f_equal. lia.
    - pose proof (round_after_shr M (Z.to_nat (e' - e)) ltac:(lia)) as Hr.
      cbv zeta in Hr. simpl shr_record_of_loc in Hr.
      rewrite Hr, Z2Nat.id by lia. f_equal. lia. }
  destruct (if e' - e <=? 0 then _ else _) as [mrs' e1].
  injection Hround as Hr He1. rewrite Hr, He1. clear Hr He1 mrs' e1.
  set (m := rne M (e' - e)) in *.
  rewrite shr_fexp_exact. cbv zeta.
  destruct (Z.eqb_spec m 0) as [E0|N0].
  - rewrite E0. simpl Zdigits2.
    replace (Z.max (0 + e' - 53) (-1074) - e' <=? 0) with true
      by (symmetry; apply Z.leb_le; lia).
    reflexivity.
  - destruct (Z.eqb_spec m (2 ^ 53)) as [E1|N1].
    + rewrite E1. change (Zdigits2 (2 ^ 53)) with 54.
      replace (Z.max (54 + e' - 53) (-1074) - e') with 1 by lia.
      simpl. replace (e' + 1 <=? 971) with true
        by (symmetry; apply Z.leb_le; lia).
      reflexivity.
    + assert (Hd : Zdigits2 m <= 53).
      { rewrite Zdigits2_log2 by lia.
        assert (Z.log2 m < 53); [|lia].
        apply Z.log2_lt_pow2; lia. }
      replace (Z.max (Zdigits2 m + e' - 53) (-1074) - e' <=? 0) with true
        by (symmetry; apply Z.leb_le; lia).
      simpl shr_m. destruct m as [|pm|pm]; try lia.
      replace (e' <=? emax - prec) with true
        by (symmetry; apply Z.leb_le; change (emax - prec) with 971; lia).
      reflexivity.
Qed.

Lemma rounded_normalized (M e : Z) :
  0 < M -> e <= Z.max (Z.log2 M + 1 + e - 53) (-1074) ->
  rounded M e = normalized M e.
Proof.
  intros HM Hle. unfold rounded, normalized. cbv zeta.
  set (e' := Z.max (Z.log2 M + 1 + e - 53) (-1074)) in *.
  destruct (Z.leb_spec e' e) as [H|H]; [|reflexivity].
  replace e' with e by lia. rewrite Z.sub_diag, rne_0.
  change (2 ^ 0) with 1. rewrite Z.mul_1_r. reflexivity.
Qed.

(* The normalisation that ends an addition or a subtraction. *)
Lemma normalize_spec (M e : Z) :
  0 < M ->
  Z.max (Z.log2 M + 1 + e - 53) (-1074) + 1 <= 971 ->
  binary_normalize prec emax M e false = normalized M e.
Proof.
  intros HM Hov.
  destruct M as [|p|p]; try lia.
  unfold binary_normalize, binary_round.
  rewrite fexp64.
  change (Z.pos (digits2_pos p)) with (Zdigits2 (Z.pos p)).
  rewrite (Zdigits2_log2 (Z.pos p) HM).
  set (e' := Z.max (Z.log2 (Z.pos p) + 1 + e - 53) (-1074)) in *.
  pose proof (log2_lt_pow2 (Z.pos p) HM) as HlM.
  unfold shl_align.
  destruct (e' - e) as [|k|k] eqn:Ek.
  - rewrite round_aux_spec by (fold e'; lia).
    apply rounded_normalized; [lia | fold e'; lia].
  - rewrite round_aux_spec by (fold e'; lia).
    apply rounded_normalized; [lia | fold e'; lia].
  - assert (Hk : Z.pos k = e - e') by lia.
    assert (Hmz : Z.pos (Pos.iter xO p k) = Z.pos p * 2 ^ (e - e'))
      by (rewrite pos_iter_xO, Hk; reflexivity).
    assert (Hlog : Z.log2 (Z.pos (Pos.iter xO p k)) = Z.log2 (Z.pos p) + (e - e')).
    { rewrite Hmz, Z.log2_mul_pow2 by lia. lia. }
    assert (He' : Z.max (Z.log2 (Z.pos (Pos.iter xO p k)) + 1 + e' - 53) (-1074) = e').
    { rewrite Hlog. unfold e'. lia. }
    rewrite round_aux_spec by (rewrite ?He'; lia).
    unfold rounded, normalized. cbv zeta. rewrite He'. fold e'.
    rewrite Z.sub_diag, rne_0.
    replace (e' <=? e) with true by (symmetry; apply Z.leb_le; lia).
    rewrite Hmz. reflexivity.
Qed.

Lemma normalized_fl (sc M e : Z) :
  0 < M -> 0 <= e + sc ->
  0 <= Z.max (Z.log2 (M * 2 ^ (e + sc)) - 52) (sc - 1074) ->
  normalized M e = fl sc (M * 2 ^ (e + sc)).
Proof.
  intros HM HeS Hg. unfold normalized, fl. cbv zeta.
  rewrite Z.log2_mul_pow2 in Hg |- * by lia.
  set (e' := Z.max (Z.log2 M + 1 + e - 53) (-1074)).
  replace (Z.max (e + sc + Z.log2 M - 52) (sc - 1074)) with (e' + sc) in Hg |- *
    by (unfold e'; lia).
  assert (Hm : (if e' <=? e then M * 2 ^ (e - e') else rne M (e' - e))
               = rne (M * 2 ^ (e + sc)) (e' + sc)).
  { destruct (Z.leb_spec e' e) as [H|H].
    - replace (M * 2 ^ (e + sc)) with ((M * 2 ^ (e - e')) * 2 ^ (e' + sc)).
      + rewrite rne_exact by lia. reflexivity.
      + rewrite <- Z.mul_assoc, <- Z.pow_add_r by lia. do 2 f_equal. lia.
    - replace (e' + sc) with ((e' - e) + (e + sc)) by lia.
      rewrite rne_scale by lia. reflexivity. }
  rewrite Hm. replace (e' + sc - sc) with e' by lia. reflexivity.
Qed.

Lemma shl_align_fst (m : positive) (e ez : Z) :
  ez <= e -> Z.pos (fst (shl_align m e ez)) = Z.pos m * 2 ^ (e - ez).
Proof.
  intro H. unfold shl_align.
  destruct (ez - e) as [|k|k] eqn:Ek; try lia.
  - replace (e - ez) with 0 by lia. simpl. lia.
  - simpl fst. rewrite pos_iter_xO. f_equal. f_equal. lia.
Qed.

Section Scaled.
Variable sc : Z.

Lemma sv_pos (x : spec_float) : posfin sc x -> 0 < sv sc x.
Proof.
  intros (m & e & -> & He). unfold sv.
  apply Z.mul_pos_pos; [lia | apply Z.pow_pos_nonneg; lia].
Qed.

(* The sum of two positive floats is the float of the sum of their values. *)
Lemma SFadd_fl (x y : spec_float) :
  posfin sc x -> posfin sc y ->
  0 <= Z.max (Z.log2 (sv sc x + sv sc y) - 52) (sc - 1074) ->
  sv sc x + sv sc y < 2 ^ (sc + 1000) ->
  SF64add x y = fl sc (sv sc x + sv sc y).
Proof.
  intros (m1 & e1 & -> & H1) (m2 & e2 & -> & H2) Hg Hov.
  unfold SF64add, SFadd. cbv zeta. simpl cond_Zopp.
  set (ez := Z.min e1 e2).
  rewrite !shl_align_fst by (unfold ez; lia).
  set (M := Z.pos m1 * 2 ^ (e1 - ez) + Z.pos m2 * 2 ^ (e2 - ez)).
  assert (HP1 : 0 < 2 ^ (e1 - ez)) by (apply Z.pow_pos_nonneg; unfold ez; lia).
  assert (HP2 : 0 < 2 ^ (e2 - ez)) by (apply Z.pow_pos_nonneg; unfold ez; lia).
  assert (HM : 0 < M) by (unfold M; nia).
  assert (HV : M * 2 ^ (ez + sc) = sv sc (S754_finite false m1 e1)
                                  + sv sc (S754_finite false m2 e2)).
  { unfold M, sv. rewrite Z.mul_add_distr_r, <- !Z.mul_assoc.
    rewrite <- !Z.pow_add_r by (unfold ez; lia).
    replace (e1 - ez + (ez + sc)) with (e1 + sc) by lia.
    replace (e2 - ez + (ez + sc)) with (e2 + sc) by lia. reflexivity. }
  rewrite <- HV in Hg, Hov |- *.
  assert (HezS : 0 <= ez + sc) by (unfold ez; lia).
  rewrite normalize_spec.
  - apply normalized_fl; assumption.
  - exact HM.
  - assert (Z.log2 (M * 2 ^ (ez + sc)) < sc + 1000).
    { apply Z.log2_lt_pow2; [|exact Hov].
      pose proof (Z.pow_pos_nonneg 2 (ez + sc)). nia. }
    rewrite Z.log2_mul_pow2 in H by lia. lia.
Qed.

Lemma SFsub_fl (x y : spec_float) :
  posfin sc x -> posfin sc y -> sv sc y < sv sc x ->
  0 <= Z.max (Z.log2 (sv sc x - sv sc y) - 52) (sc - 1074) ->
  sv sc x - sv sc y < 2 ^ (sc + 1000) ->
  SF64sub x y = fl sc (sv sc x - sv sc y).
Proof.
  intros (m1 & e1 & -> & H1) (m2 & e2 & -> & H2) Hlt Hg Hov.
  unfold SF64sub, SFsub. cbv zeta. simpl cond_Zopp.
  set (ez := Z.min e1 e2).
  rewrite !shl_align_fst by (unfold ez; lia).
  set (M := Z.pos m1 * 2 ^ (e1 - ez) - Z.pos m2 * 2 ^ (e2 - ez)).
  assert (HezS : 0 <= ez + sc) by (unfold ez; lia).
  assert (HV : M * 2 ^ (ez + sc) = sv sc (S754_finite false m1 e1)
                                  - sv sc (S754_finite false m2 e2)).
  { unfold M, sv. rewrite Z.mul_sub_distr_r, <- !Z.mul_assoc.
    rewrite <- !Z.pow_add_r by (unfold ez; lia).
    replace (e1 - ez + (ez + sc)) with (e1 + sc) by lia.
    replace (e2 - ez + (ez + sc)) with (e2 + sc) by lia. reflexivity. }
  assert (HM : 0 < M).
  { pose proof (Z.pow_pos_nonneg 2 (ez + sc)). nia. }
  rewrite <- HV in Hg, Hov |- *.
  rewrite normalize_spec.
  - apply normalized_fl; assumption.
  - exact HM.
  - assert (Z.log2 (M * 2 ^ (ez + sc)) < sc + 1000).
    { apply Z.log2_lt_pow2; [|exact Hov].
      pose proof (Z.pow_pos_nonneg 2 (ez + sc)). nia. }
    rewrite Z.log2_mul_pow2 in H by lia. lia.
Qed.

Lemma SFmul_fl (m1 m2 : positive) (e1 e2 : Z) :
  52 <= Z.log2 (Z.pos m1 * Z.pos m2) ->
  0 <= e1 + e2 + sc ->
  0 <= Z.max (Z.log2 (Z.pos m1 * Z.pos m2 * 2 ^ (e1 + e2 + sc)) - 52)
             (sc - 1074) ->
  Z.pos m1 * Z.pos m2 * 2 ^ (e1 + e2 + sc) < 2 ^ (sc + 1000) ->
  SF64mul (S754_finite false m1 e1) (S754_finite false m2 e2)
  = fl sc (Z.pos m1 * Z.pos m2 * 2 ^ (e1 + e2 + sc)).
Proof.
  intros Hlog HeS Hg Hov.
  unfold SF64mul, SFmul. simpl xorb. rewrite Pos2Z.inj_mul.
  set (M := Z.pos m1 * Z.pos m2) in *.
  assert (HM : 0 < M) by (unfold M; lia).
  assert (Hl : Z.log2 (M * 2 ^ (e1 + e2 + sc)) < sc + 1000).
  { apply Z.log2_lt_pow2; [|exact Hov].
    pose proof (Z.pow_pos_nonneg 2 (e1 + e2 + sc)). nia. }
  rewrite Z.log2_mul_pow2 in Hl by lia.
  rewrite round_aux_spec by lia.
  rewrite rounded_normalized by lia.
  apply normalized_fl; assumption.
Qed.

(* A valid positive finite float is the float of its own value. *)
Lemma fl_canonical (m : positive) (e : Z) :
  valid_binary (S754_finite false m e) = true -> 0 <= e + sc ->
  fl sc (sv sc (S754_finite false m e)) = S754_finite false m e.
Proof.
  intros Hv HeS. unfold valid_binary, bounded, canonical_mantissa in Hv.
  apply andb_true_iff in Hv. destruct Hv as [Hc _].
  apply Z.eqb_eq in Hc. rewrite fexp64 in Hc.
  change (Z.pos (digits2_pos m)) with (Zdigits2 (Z.pos m)) in Hc.
  rewrite Zdigits2_log2 in Hc by lia.
  unfold fl, sv. cbv zeta. rewrite Z.log2_mul_pow2 by lia.
  replace (Z.max (e + sc + Z.log2 (Z.pos m) - 52) (sc - 1074)) with (e + sc) by lia.
  rewrite rne_exact by lia.
  pose proof (log2_lt_pow2 (Z.pos m) ltac:(lia)) as Hl.
  assert (Z.pos m < 2 ^ 53).
  { apply Z.lt_le_trans with (2 ^ (Z.log2 (Z.pos m) + 1)); [lia|].
    apply Z.pow_le_mono_r; lia. }
  replace (Z.pos m =? 0) with false by (symmetry; apply Z.eqb_neq; lia).
  replace (Z.pos m =? 2 ^ 53) with false by (symmetry; apply Z.eqb_neq; lia).
  simpl Z.to_pos. f_equal. lia.
Qed.

(* The value of the float of V is V rounded on its grid. *)
Lemma sv_fl (V : Z) :
  0 < V ->
  let g := Z.max (Z.log2 V - 52) (sc - 1074) in
  0 <= g ->
  sv sc (fl sc V) = rne V g * 2 ^ g /\
  (0 < rne V g -> posfin sc (fl sc V)).
Proof.
  intros HV g Hg. unfold fl. cbv zeta. fold g.
  pose proof (log2_lt_pow2 V HV) as HlV.
  assert (Hm : 0 <= rne V g <= 2 ^ 53).
  { apply rne_bounds; [exact Hg|]. split; [lia|].
    rewrite <- Z.pow_add_r by lia.
    assert (2 ^ (Z.log2 V + 1) <= 2 ^ (53 + g))
      by (apply Z.pow_le_mono_r; lia).
    lia. }
  destruct (Z.eqb_spec (rne V g) 0) as [E0|N0].
  - rewrite E0. split; [reflexivity | lia].
  - destruct (Z.eqb_spec (rne V g) (2 ^ 53)) as [E1|N1].
    + split.
      * unfold sv. rewrite E1.
        replace (g - sc + 1 + sc) with (g + 1) by lia.
        rewrite Z.pow_add_r by lia.
        change (Z.pos (Z.to_pos (2 ^ 52))) with (2 ^ 52).
        change (2 ^ 53) with (2 ^ 52 * 2 ^ 1). lia.
      * intros _. eexists. eexists. split; [reflexivity | lia].
    + split.
      * unfold sv. rewrite Z2Pos.id by lia.
        replace (g - sc + sc) with g by lia. reflexivity.
      * intros _. eexists. eexists. split; [reflexivity | lia].
Qed.

(* The two shapes of the float of V. *)
Lemma fl_cases (V : Z) :
  0 < V ->
  let g := Z.max (Z.log2 V - 52) (sc - 1074) in
  0 <= g ->
  (fl sc V = S754_zero false /\ rne V g = 0) \/
  (exists m e, fl sc V = S754_finite false m e /\ g - sc <= e /\
               Z.pos m * 2 ^ (e + sc) = rne V g * 2 ^ g).
Proof.
  intros HV g Hg.
  destruct (sv_fl V HV Hg) as [Hsv _]. fold g in Hsv.
  unfold fl in Hsv |- *. cbv zeta in Hsv |- *. fold g in Hsv |- *.
  destruct (Z.eqb_spec (rne V g) 0) as [E0|N0].
  - left. split; [reflexivity | exact E0].
  - right. destruct (Z.eqb_spec (rne V g) (2 ^ 53)) as [E1|N1].
    + eexists. eexists. split; [reflexivity|]. split; [lia|]. exact Hsv.
    + eexists. eexists. split; [reflexivity|]. split; [lia|]. exact Hsv.
Qed.

End Scaled.

Lemma sv_rescale (S1 S2 : Z) (x : spec_float) :
  posfin S1 x -> S1 <= S2 -> sv S2 x = sv S1 x * 2 ^ (S2 - S1).
Proof.
  intros (m & e & -> & He) HS. unfold sv.
  rewrite <- Z.mul_assoc, <- Z.pow_add_r by lia. do 2 f_equal. lia.
Qed.

Lemma posfin_weaken (S1 S2 : Z) (x : spec_float) :
  posfin S1 x -> S1 <= S2 -> posfin S2 x.
Proof.
  intros (m & e & -> & He) HS. exists m, e. split; [reflexivity | lia].
Qed.

Lemma valid_bounds (m : positive) (e : Z) :
  valid_binary (S754_finite false m e) = true ->
  -1074 <= e /\ Z.pos m < 2 ^ 53 /\ (-1074 < e -> 2 ^ 52 <= Z.pos m).
Proof.
  intro Hv. unfold valid_binary, bounded, canonical_mantissa in Hv.
  apply andb_true_iff in Hv. destruct Hv as [Hc _].
  apply Z.eqb_eq in Hc. rewrite fexp64 in Hc.
  change (Z.pos (digits2_pos m)) with (Zdigits2 (Z.pos m)) in Hc.
  rewrite Zdigits2_log2 in Hc by lia.
  pose proof (log2_lt_pow2 (Z.pos m) ltac:(lia)) as Hl.
  split; [lia|]. split.
  - apply Z.lt_le_trans with (2 ^ (Z.log2 (Z.pos m) + 1)); [lia|].
    apply Z.pow_le_mono_r; lia.
  - intro He. apply Z.le_trans with (2 ^ Z.log2 (Z.pos m)); [|lia].
    apply Z.pow_le_mono_r; lia.
Qed.

(* The draws: 0 <= rnd < 1. *)
Lemma unit_interval (rnd : float) :
  (0 <=? rnd)%float = true -> (rnd <? 1)%float = true ->
  (exists s, Prim2SF rnd = S754_zero s) \/
  (exists m e, Prim2SF rnd = S754_finite false m e /\
               -1074 <= e /\ Z.pos m * 2 ^ (e + 1074) < 2 ^ 1074).
Proof.
  intros H0 H1.
  rewrite FloatAxioms.leb_spec in H0. rewrite FloatAxioms.ltb_spec in H1.
  pose proof (Prim2SF_valid rnd) as Hv.
  replace (Prim2SF 0) with (S754_zero false) in H0 by (vm_compute; reflexivity).
  replace (Prim2SF 1) with (S754_finite false (Z.to_pos (2 ^ 52)) (-52)) in H1
    by (vm_compute; reflexivity).
  destruct (Prim2SF rnd) as [s|s| |s m e].
  - left. exists s. reflexivity.
  - destruct s; discriminate.
  - discriminate.
  - right. destruct s; [discriminate|].
    exists m, e. split; [reflexivity|].
    destruct (valid_bounds m e Hv) as (He & Hm & _).
    split; [exact He|].
    unfold SFltb, SFcompare in H1.
    destruct (Z.compare_spec e (-52)) as [E|E|E]; try discriminate.
    + subst e. change (-52 + 1074) with 1022.
      assert (Hlt : Z.pos m < 2 ^ 52).
      { change (Pos.compare_cont Eq m (Z.to_pos (2 ^ 52)))
          with (Pos.compare m (Z.to_pos (2 ^ 52))) in H1.
        destruct (Pos.compare_spec m (Z.to_pos (2 ^ 52))) as [Ec|Ec|Ec];
          try discriminate.
        change (2 ^ 52) with (Z.pos (Z.to_pos (2 ^ 52))).
        apply Pos2Z.pos_lt_pos. exact Ec. }
      change (2 ^ 1074) with (2 ^ 52 * 2 ^ 1022).
      apply Z.mul_lt_mono_pos_r; [apply Z.pow_pos_nonneg; lia | exact Hlt].
    + apply Z.lt_le_trans with (2 ^ 53 * 2 ^ (e + 1074)).
      * apply Z.mul_lt_mono_pos_r; [apply Z.pow_pos_nonneg; lia | exact Hm].
      * rewrite <- Z.pow_add_r by lia. apply Z.pow_le_mono_r; lia.
Qed.

(* The product of a draw with a constant c in [128, 256) is at most c. *)
Lemma product_sf (rnd c : float) (ci : Z) :
  128 <= ci < 256 ->
  Prim2SF c = S754_finite false (Z.to_pos (ci * 2 ^ 45)) (-45) ->
  (0 <=? rnd)%float = true -> (rnd <? 1)%float = true ->
  (exists s, Prim2SF (rnd * c)%float = S754_zero s) \/
  (exists m e, Prim2SF (rnd * c)%float = S754_finite false m e /\
               -1074 <= e /\ Z.pos m * 2 ^ (e + 1074) <= ci * 2 ^ 1074).
Proof.
  intros Hci Hc H0 H1.
  rewrite FloatAxioms.mul_spec, Hc.
  destruct (unit_interval rnd H0 H1) as [[s ->] | (mr & er & -> & Her & Hr)].
  - left. exists (xorb s false). reflexivity.
  - set (mc := Z.to_pos (ci * 2 ^ 45)).
    assert (Hmc : Z.pos mc = ci * 2 ^ 45) by (unfold mc; rewrite Z2Pos.id; lia).
    assert (Hmc52 : 2 ^ 52 <= Z.pos mc < 2 ^ 53).
    { rewrite Hmc. change (2 ^ 52) with (128 * 2 ^ 45).
      change (2 ^ 53) with (256 * 2 ^ 45). lia. }
    set (K := 2 ^ (er + 1074)) in *.
    assert (HK : 0 < K) by (apply Z.pow_pos_nonneg; lia).
    set (V := Z.pos mr * Z.pos mc * 2 ^ (er + -45 + 1119)).
    assert (HVK : V = Z.pos mr * K * Z.pos mc).
    { unfold V, K. replace (er + -45 + 1119) with (er + 1074) by lia. ring. }
    assert (HV0 : 0 < V) by (rewrite HVK; nia).
    assert (HVlt : V < Z.pos mc * 2 ^ 1074).
    { rewrite HVK. nia. }
    assert (HVpow : V < 2 ^ 1127).
    { change (2 ^ 1127) with (2 ^ 53 * 2 ^ 1074).
      assert (0 < 2 ^ 1074) by (apply Z.pow_pos_nonneg; lia). nia. }
    assert (Hlog : Z.log2 V < 1127) by (apply Z.log2_lt_pow2; assumption).
    set (g := Z.max (Z.log2 V - 52) (1119 - 1074)).
    assert (Hg : 45 <= g <= 1074) by (unfold g; lia).
    rewrite (SFmul_fl 1119); fold V.
    + destruct (fl_cases 1119 V HV0) as [[-> _] | (m & e & -> & He & Hval)];
        [fold g; lia | left; exists false; reflexivity |].
      fold g in He, Hval.
      right. exists m, e. split; [reflexivity|]. split; [lia|].
      assert (Hrne : 0 <= rne V g <= Z.pos mc * 2 ^ (1074 - g)).
      { apply rne_bounds; [lia|]. split; [lia|].
        rewrite <- Z.mul_assoc, <- Z.pow_add_r by lia.
        replace (1074 - g + g) with 1074 by lia. lia. }
      assert (Hle : rne V g * 2 ^ g <= Z.pos mc * 2 ^ 1074).
      { replace (2 ^ 1074) with (2 ^ (1074 - g) * 2 ^ g)
          by (rewrite <- Z.pow_add_r by lia; f_equal; lia).
        rewrite Z.mul_assoc.
        apply Z.mul_le_mono_nonneg_r; [apply Z.pow_nonneg; lia | lia]. }
      rewrite <- Hval, Hmc in Hle.
      replace (e + 1119) with ((e + 1074) + 45) in Hle by lia.
      rewrite Z.pow_add_r in Hle by lia.
      replace (ci * 2 ^ 45 * 2 ^ 1074) with (ci * 2 ^ 1074 * 2 ^ 45) in Hle
        by ring.
      rewrite Z.mul_assoc in Hle.
      apply Z.mul_le_mono_pos_r in Hle; [exact Hle | reflexivity].
    + apply Z.log2_le_pow2; [lia|]. nia.
    + lia.
    + fold V. fold g. lia.
    + fold V. apply Z.lt_trans with (2 ^ 1127); [exact HVpow|].
      apply Z.pow_lt_mono_r; lia.
Qed.

Lemma pow2_split (a b : Z) : 0 <= b <= a -> 2 ^ a = 2 ^ (a - b) * 2 ^ b.
Proof.
  intro H. rewrite <- Z.pow_add_r by lia. f_equal. lia.
Qed.

Lemma log2_range (V lo hi : Z) :
  0 <= lo -> 2 ^ lo <= V < 2 ^ hi -> lo <= Z.log2 V < hi.
Proof.
  intros Hlo [H1 H2].
  assert (0 < V) by (pose proof (Z.pow_pos_nonneg 2 lo); lia).
  split; [apply Z.log2_le_pow2 | apply Z.log2_lt_pow2]; assumption.
Qed.

Lemma SF30 : Prim2SF 30 = S754_finite false (Z.to_pos (30 * 2 ^ 48)) (-48).
Proof. vm_compute. reflexivity. Qed.

(* 30 + p for 0 <= p <= c lies between 30 and 30 + c. *)
Lemma top_sf (p : float) (ci : Z) :
  128 <= ci < 256 ->
  ((exists s, Prim2SF p = S754_zero s) \/
   (exists m e, Prim2SF p = S754_finite false m e /\
                -1074 <= e /\ Z.pos m * 2 ^ (e + 1074) <= ci * 2 ^ 1074)) ->
  exists mt et,
    Prim2SF (30 + p)%float = S754_finite false mt et /\ -48 <= et /\
    30 * 2 ^ 48 <= Z.pos mt * 2 ^ (et + 48) <= (30 + ci) * 2 ^ 48.
Proof.
  intros Hci Hp. rewrite FloatAxioms.add_spec, SF30.
  destruct Hp as [[s ->] | (mp & ep & -> & Hep & Hval)].
  - exists (Z.to_pos (30 * 2 ^ 48)), (-48).
    split; [reflexivity|]. split; [lia|].
    change (-48 + 48) with 0. rewrite Z2Pos.id by reflexivity.
    change (2 ^ 0) with 1. lia.
  - set (x := S754_finite false (Z.to_pos (30 * 2 ^ 48)) (-48)).
    set (y := S754_finite false mp ep).
    assert (Hx : posfin 1074 x) by (exists (Z.to_pos (30 * 2 ^ 48)), (-48); split; [reflexivity | lia]).
    assert (Hy : posfin 1074 y) by (exists mp, ep; split; [reflexivity | lia]).
    assert (Hsx : sv 1074 x = 30 * 2 ^ 1074) by (vm_compute; reflexivity).
    assert (Hsy : 0 < sv 1074 y <= ci * 2 ^ 1074).
    { split; [apply sv_pos; exact Hy | exact Hval]. }
    set (V := sv 1074 x + sv 1074 y).
    assert (HVr : 30 * 2 ^ 1074 <= V <= (30 + ci) * 2 ^ 1074).
    { unfold V. rewrite Hsx. lia. }
    assert (HVp : 2 ^ 1078 <= V < 2 ^ 1083).
    { change (2 ^ 1078) with (16 * 2 ^ 1074).
      change (2 ^ 1083) with (512 * 2 ^ 1074).
      assert (0 < 2 ^ 1074) by reflexivity. nia. }
    pose proof (log2_range V 1078 1083 ltac:(lia) HVp) as Hlog.
    assert (HV0 : 0 < V) by lia.
    set (g := Z.max (Z.log2 V - 52) (1074 - 1074)).
    assert (Hg : 1026 <= g <= 1030) by (unfold g; lia).
    rewrite (SFadd_fl 1074 x y Hx Hy); fold V; fold g.
    + assert (Hrne : 30 * 2 ^ (1074 - g) <= rne V g <= (30 + ci) * 2 ^ (1074 - g)).
      { apply rne_bounds; [lia|].
        rewrite <- !Z.mul_assoc, <- (pow2_split 1074 g) by lia. exact HVr. }
      assert (Hpos : 0 < 2 ^ (1074 - g)) by (apply Z.pow_pos_nonneg; lia).
      destruct (fl_cases 1074 V HV0) as [[_ Hz] | (m & e & -> & He & Hv)];
        fold g; try lia.
      * fold g in Hz. nia.
      * fold g in He, Hv. exists m, e. split; [reflexivity|]. split; [lia|].
        assert (H26 : 0 < 2 ^ 1026) by reflexivity.
        assert (Hv' : Z.pos m * 2 ^ (e + 48) * 2 ^ 1026 = rne V g * 2 ^ g).
        { rewrite <- Hv, <- Z.mul_assoc, <- Z.pow_add_r by lia.
          do 2 f_equal. lia. }
        assert (Hb : 30 * 2 ^ 1074 <= rne V g * 2 ^ g <= (30 + ci) * 2 ^ 1074).
        { rewrite (pow2_split 1074 g) by lia.
          assert (0 < 2 ^ g) by (apply Z.pow_pos_nonneg; lia).
          rewrite !Z.mul_assoc. split; apply Z.mul_le_mono_nonneg_r; lia. }
        rewrite <- Hv' in Hb.
        change (2 ^ 1074) with (2 ^ 48 * 2 ^ 1026) in Hb.
        rewrite !Z.mul_assoc in Hb.
        destruct Hb as [Hb1 Hb2].
        apply Z.mul_le_mono_pos_r in Hb1; [|exact H26].
        apply Z.mul_le_mono_pos_r in Hb2; [|exact H26].
        split; assumption.
    + lia.
    + apply Z.lt_trans with (2 ^ 1083); [lia|].
      apply Z.pow_lt_mono_r; lia.
Qed.

Lemma Rz_k (V k : Z) :
  0 <= k -> 2 ^ (52 + k) <= V < 2 ^ (53 + k) ->
  Rz V = rne V k * 2 ^ k /\ nearest V k (rne V k).
Proof.
  intros Hk HV. unfold Rz.
  assert (Hl : Z.log2 V = 52 + k).
  { apply Z.log2_unique; [lia|].
    replace (Z.succ (52 + k)) with (53 + k) by lia. exact HV. }
  rewrite Hl. replace (52 + k - 52) with k by lia.
  split; [reflexivity | apply rne_nearest; exact Hk].
Qed.

(* A value already on a grid at least as coarse as its own is kept. *)
Lemma Rz_exact (V k j Y : Z) :
  0 <= k <= j -> 2 ^ (52 + k) <= V < 2 ^ (53 + k) -> V = Y * 2 ^ j ->
  Rz V = V.
Proof.
  intros Hkj HV HY. destruct (Rz_k V k ltac:(lia) HV) as [-> _].
  assert (HVk : V = (Y * 2 ^ (j - k)) * 2 ^ k).
  { rewrite HY, <- Z.mul_assoc, <- Z.pow_add_r by lia.
    do 2 f_equal. lia. }
  rewrite HVk at 1. rewrite rne_exact by lia. symmetry. exact HVk.
Qed.

Lemma range_k (V : Z) :
  2 ^ 52 <= V < 2 ^ 57 ->
  exists k, 0 <= k <= 4 /\ 2 ^ (52 + k) <= V < 2 ^ (53 + k).
Proof.
  intro HV. exists (Z.log2 V - 52).
  pose proof (log2_range V 52 57 ltac:(lia) HV) as Hl.
  pose proof (log2_lt_pow2 V ltac:(lia)) as Hp.
  replace (52 + (Z.log2 V - 52)) with (Z.log2 V) by lia.
  replace (53 + (Z.log2 V - 52)) with (Z.log2 V + 1) by lia.
  split; [lia | exact Hp].
Qed.

(* The four last operations on integers: T is the upper height, Gi the
   gap.  The difference 500 - T is rounded by at most half a step of its
   grid (8), the lower height U - Gi is exact, and the two sums land on
   500 - Gi (up to one step of 8 for Gi = 250) and on 500, the ties going
   to the even neighbours 300 * 2^44 and 500 * 2^44. *)
Lemma chain_int (T Gi : Z) :
  Gi = 200 \/ Gi = 250 ->
  30 * 2 ^ 48 <= T <= (500 - Gi - 30) * 2 ^ 48 ->
  let V1 := 500 * 2 ^ 48 - T in
  let U := Rz V1 in
  let V2 := U - Gi * 2 ^ 48 in
  let V3 := T + V2 in
  let S1 := Rz V3 in
  let V4 := S1 + Gi * 2 ^ 48 in
  2 ^ 55 <= V1 < 2 ^ 57 /\
  2 ^ 55 <= U <= 470 * 2 ^ 48 /\
  30 * 2 ^ 48 <= V2 <= 270 * 2 ^ 48 /\
  Rz V2 = V2 /\
  2 ^ 55 <= V3 < 2 ^ 57 /\
  2 ^ 55 <= S1 < 2 ^ 57 /\
  2 ^ 56 <= V4 < 2 ^ 57 /\
  rne V4 4 = 500 * 2 ^ 44.
Proof.
  intros HG HT V1 U V2 V3 S1 V4.
  assert (HV1 : (Gi + 30) * 2 ^ 48 <= V1 <= 470 * 2 ^ 48) by (unfold V1; lia).
  assert (HV1p : 2 ^ 55 <= V1 < 2 ^ 57) by lia.
  (* U: on the grid of V1, within half a step, at least (Gi+30) *)
  assert (HU : exists k X, (k = 3 \/ k = 4) /\ U = X * 2 ^ k /\
               - 8 <= U - V1 <= 8 /\
               (Gi + 30) * 2 ^ 48 <= U <= 470 * 2 ^ 48 /\
               (k = 3 -> U <= 2 ^ 56)).
  { destruct (Z_lt_le_dec V1 (2 ^ 56)) as [Hlt|Hge].
    - destruct (Rz_k V1 3 ltac:(lia) ltac:(simpl; lia)) as [HR [Hn _]].
      fold U in HR. exists 3, (rne V1 3). split; [left; reflexivity|].
      split; [exact HR|].
      assert (Hb : (Gi + 30) * 2 ^ 45 <= rne V1 3 <= 2 ^ 53)
        by (apply rne_bounds; lia).
      rewrite HR. change (2 ^ 3) with 8 in *. lia.
    - destruct (Rz_k V1 4 ltac:(lia) ltac:(simpl; lia)) as [HR [Hn _]].
      fold U in HR. exists 4, (rne V1 4). split; [right; reflexivity|].
      split; [exact HR|].
      assert (Hb : (Gi + 30) * 2 ^ 44 <= rne V1 4 <= 470 * 2 ^ 44)
        by (apply rne_bounds; lia).
      rewrite HR. change (2 ^ 4) with 16 in *. lia. }
  destruct HU as (k1 & X1 & Hk1 & HUX & Hd & HUb & HU3).
  assert (HV2 : 30 * 2 ^ 48 <= V2 <= 270 * 2 ^ 48) by (unfold V2; lia).
  assert (HRV2 : Rz V2 = V2).
  { destruct (range_k V2 ltac:(lia)) as (k2 & Hk2 & HV2k).
    assert (Hk21 : k2 <= k1).
    { destruct Hk1 as [-> | ->]; [|lia].
      assert (Hs : V2 < 2 ^ 54) by (unfold V2; specialize (HU3 eq_refl); lia).
      destruct (Z_le_gt_dec k2 1) as [Hk|Hk]; [lia|].
      assert (Hp : 2 ^ 54 <= 2 ^ (52 + k2)) by (apply Z.pow_le_mono_r; lia).
      lia. }
    apply (Rz_exact V2 k2 k1 (X1 - Gi * 2 ^ (48 - k1))); [lia | exact HV2k |].
    unfold V2. rewrite HUX, Z.mul_sub_distr_r, <- Z.mul_assoc.
    rewrite <- Z.pow_add_r by lia.
    replace (48 - k1 + k1) with 48 by lia. reflexivity. }
  assert (HV3 : V3 = (500 - Gi) * 2 ^ 48 + (U - V1)) by (unfold V3, V2, V1; lia).
  assert (HV3p : 2 ^ 55 <= V3 < 2 ^ 57) by lia.
  assert (HS1 : exists eps, (eps = -8 \/ eps = 0 \/ eps = 8) /\
                            S1 = (500 - Gi) * 2 ^ 48 + eps).
  { destruct HG as [-> | ->].
    - (* 300: grid 16, the tie goes to the even 300 * 2^44 *)
      exists 0. split; [lia|].
      destruct (Rz_k V3 4 ltac:(lia) ltac:(simpl; lia)) as [HR _].
      fold S1 in HR. rewrite HR.
      rewrite (rne_unique V3 4 (300 * 2 ^ 44)); [reflexivity | lia |].
      unfold nearest. change (2 ^ 4) with 16.
      split; [lia|]. intros _. reflexivity.
    - destruct (Rz_k V3 3 ltac:(lia) ltac:(simpl; lia)) as [HR [Hn _]].
      fold S1 in HR. change (2 ^ 3) with 8 in *.
      exists (S1 - 250 * 2 ^ 48). split; [|lia].
      rewrite HR. lia. }
  destruct HS1 as (eps & Heps & HS1).
  assert (HS1p : 2 ^ 55 <= S1 < 2 ^ 57) by lia.
  assert (HV4 : V4 = 500 * 2 ^ 48 + eps) by (unfold V4; lia).
  assert (HV4p : 2 ^ 56 <= V4 < 2 ^ 57) by lia.
  repeat (split; [first [assumption | lia]|]).
  apply rne_unique; [lia|].
  unfold nearest. change (2 ^ 4) with 16.
  split; [lia|]. intros _. reflexivity.
Qed.

(** Back to floats *)

Lemma Rz_pos (V : Z) : 2 ^ 52 <= V < 2 ^ 57 ->
  0 < rne V (Z.log2 V - 52) /\ 0 <= Z.log2 V - 52.
Proof.
  intro HV. pose proof (log2_range V 52 57 ltac:(lia) HV) as Hl.
  pose proof (log2_lt_pow2 V ltac:(lia)) as Hp.
  split; [|lia].
  assert (Hb : 2 ^ 52 <= rne V (Z.log2 V - 52) <= 2 ^ 53); [|lia].
  apply rne_bounds; [lia|].
  rewrite <- !Z.pow_add_r by lia.
  replace (52 + (Z.log2 V - 52)) with (Z.log2 V) by lia.
  replace (53 + (Z.log2 V - 52)) with (Z.log2 V + 1) by lia. lia.
Qed.

Lemma fl48 (V : Z) : 2 ^ 52 <= V < 2 ^ 57 ->
  posfin 48 (fl 48 V) /\ sv 48 (fl 48 V) = Rz V.
Proof.
  intro HV. destruct (Rz_pos V HV) as [Hr Hg].
  assert (Hmax : Z.max (Z.log2 V - 52) (48 - 1074) = Z.log2 V - 52) by lia.
  destruct (sv_fl 48 V ltac:(lia)) as [Hsv Hpf]; [lia|].
  rewrite Hmax in Hsv, Hpf. split; [apply Hpf; exact Hr | exact Hsv].
Qed.

Lemma sub48 (x y : float) :
  posfin 48 (Prim2SF x) -> posfin 48 (Prim2SF y) ->
  2 ^ 52 <= sv 48 (Prim2SF x) - sv 48 (Prim2SF y) < 2 ^ 57 ->
  Prim2SF (x - y)%float = fl 48 (sv 48 (Prim2SF x) - sv 48 (Prim2SF y)).
Proof.
  intros Hx Hy HV. rewrite FloatAxioms.sub_spec.
  pose proof (log2_range _ 52 57 ltac:(lia) HV) as Hl.
  apply SFsub_fl; try assumption; lia.
Qed.

Lemma add48 (x y : float) :
  posfin 48 (Prim2SF x) -> posfin 48 (Prim2SF y) ->
  2 ^ 52 <= sv 48 (Prim2SF x) + sv 48 (Prim2SF y) < 2 ^ 57 ->
  Prim2SF (x + y)%float = fl 48 (sv 48 (Prim2SF x) + sv 48 (Prim2SF y)).
Proof.
  intros Hx Hy HV. rewrite FloatAxioms.add_spec.
  pose proof (log2_range _ 52 57 ltac:(lia) HV) as Hl.
  apply SFadd_fl; try assumption; lia.
Qed.

Lemma leb30 (x : float) :
  posfin 48 (Prim2SF x) -> 30 * 2 ^ 48 <= sv 48 (Prim2SF x) ->
  (30 <=? x)%float = true.
Proof.
  intros (m & e & Hx & He) Hv. rewrite FloatAxioms.leb_spec, SF30, Hx.
  rewrite Hx in Hv. unfold sv in Hv.
  unfold SFleb, SFcompare.
  destruct (Z.compare_spec (-48) e) as [E|E|E]; [|reflexivity|lia].
  subst e. change (-48 + 48) with 0 in Hv. change (2 ^ 0) with 1 in Hv.
  change (Pos.compare_cont Eq (Z.to_pos (30 * 2 ^ 48)) m)
    with (Pos.compare (Z.to_pos (30 * 2 ^ 48)) m).
  destruct (Pos.compare_spec (Z.to_pos (30 * 2 ^ 48)) m) as [Ec|Ec|Ec];
    try reflexivity.
  apply Pos2Z.pos_lt_pos in Ec. rewrite Z2Pos.id in Ec by reflexivity. lia.
Qed.

(* The generated pair in binary64: for every draw in [0,1), with the gap
   at 200 (c = 240) or at 250 (c = 190). *)
Theorem pair_binary64 (rnd gap c : float) :
  (gap = 200%float /\ c = 240%float) \/ (gap = 250%float /\ c = 190%float) ->
  (0 <=? rnd)%float = true -> (rnd <? 1)%float = true ->
  let t := (30 + rnd * c)%float in
  let b := (500 - t - gap)%float in
  (30 <=? t)%float = true /\ (30 <=? b)%float = true /\
  (t + b + gap)%float = 500%float.
Proof.
  intros Hgc H0 H1 t b.
  assert (Hpar : exists Gi, (Gi = 200 \/ Gi = 250) /\
            Prim2SF gap = S754_finite false (Z.to_pos (Gi * 2 ^ 45)) (-45) /\
            Prim2SF c = S754_finite false (Z.to_pos ((500 - Gi - 60) * 2 ^ 45)) (-45)).
  { destruct Hgc as [[-> ->] | [-> ->]].
    - exists 200. split; [left; reflexivity|]. split; vm_compute; reflexivity.
    - exists 250. split; [right; reflexivity|]. split; vm_compute; reflexivity. }
  destruct Hpar as (Gi & HGi & Hgap & Hc).
  assert (Hci : 128 <= 500 - Gi - 60 < 256) by lia.
  pose proof (product_sf rnd c (500 - Gi - 60) Hci Hc H0 H1) as Hp.
  destruct (top_sf (rnd * c)%float (500 - Gi - 60) Hci Hp)
    as (mt & et & Ht & Het & HT).
  fold t in Ht.
  assert (Hpt : posfin 48 (Prim2SF t))
    by (rewrite Ht; exists mt, et; split; [reflexivity | lia]).
  assert (HsT : sv 48 (Prim2SF t) = Z.pos mt * 2 ^ (et + 48))
    by (rewrite Ht; reflexivity).
  set (T := Z.pos mt * 2 ^ (et + 48)) in *.
  assert (HT' : 30 * 2 ^ 48 <= T <= (500 - Gi - 30) * 2 ^ 48) by lia.
  assert (Hp500 : posfin 48 (Prim2SF 500) /\ sv 48 (Prim2SF 500) = 500 * 2 ^ 48).
  { split; [|vm_compute; reflexivity].
    exists (Z.to_pos (500 * 2 ^ 44)), (-44). split; [vm_compute; reflexivity | lia]. }
  destruct Hp500 as [Hp500 Hs500].
  assert (Hpg : posfin 48 (Prim2SF gap) /\ sv 48 (Prim2SF gap) = Gi * 2 ^ 48).
  { rewrite Hgap. split.
    - eexists. eexists. split; [reflexivity | lia].
    - unfold sv. rewrite Z2Pos.id by lia.
      change (-45 + 48) with 3. change (2 ^ 48) with (2 ^ 45 * 2 ^ 3). ring. }
  destruct Hpg as [Hpg Hsg].
  destruct (chain_int T Gi HGi HT')
    as (HV1 & HU & HV2 & HRV2 & HV3 & HS1 & HV4 & Hrne).
  cbv zeta in HV1, HU, HV2, HRV2, HV3, HS1, HV4, Hrne.
  (* u = 500 - t *)
  set (u := (500 - t)%float).
  assert (Hu : Prim2SF u = fl 48 (500 * 2 ^ 48 - T)).
  { unfold u. rewrite sub48; rewrite ?Hs500, ?HsT; try assumption.
    - reflexivity.
    - lia. }
  destruct (fl48 (500 * 2 ^ 48 - T) ltac:(lia)) as [Hpu Hsu].
  rewrite <- Hu in Hpu, Hsu.
  (* b = u - gap *)
  assert (Hb : Prim2SF b = fl 48 (Rz (500 * 2 ^ 48 - T) - Gi * 2 ^ 48)).
  { unfold b. fold u. rewrite sub48; rewrite ?Hsu, ?Hsg; try assumption.
    - reflexivity.
    - lia. }
  destruct (fl48 (Rz (500 * 2 ^ 48 - T) - Gi * 2 ^ 48) ltac:(lia)) as [Hpb Hsb].
  rewrite <- Hb in Hpb, Hsb. rewrite HRV2 in Hsb.
  (* s1 = t + b *)
  set (s1 := (t + b)%float).
  assert (Hs1 : Prim2SF s1 = fl 48 (T + (Rz (500 * 2 ^ 48 - T) - Gi * 2 ^ 48))).
  { unfold s1. rewrite add48; rewrite ?HsT, ?Hsb; try assumption.
    - reflexivity.
    - lia. }
  destruct (fl48 (T + (Rz (500 * 2 ^ 48 - T) - Gi * 2 ^ 48)) ltac:(lia))
    as [Hps1 Hss1].
  rewrite <- Hs1 in Hps1, Hss1.
  (* s2 = s1 + gap *)
  set (V4 := Rz (T + (Rz (500 * 2 ^ 48 - T) - Gi * 2 ^ 48)) + Gi * 2 ^ 48) in *.
  assert (Hs2 : Prim2SF (s1 + gap)%float = fl 48 V4).
  { rewrite add48; rewrite ?Hss1, ?Hsg; try assumption.
    - reflexivity.
    - fold V4. lia. }
  split; [apply leb30; [exact Hpt | rewrite HsT; lia]|].
  split; [apply leb30; [exact Hpb | rewrite Hsb; lia]|].
  apply Prim2SF_inj. fold s1. rewrite Hs2.
  unfold fl. cbv zeta.
  assert (Hl4 : Z.log2 V4 = 56).
  { apply Z.log2_unique; [lia|]. exact HV4. }
  rewrite Hl4. change (Z.max (56 - 52) (48 - 1074)) with 4.
  rewrite Hrne. vm_compute. reflexivity.
Qed.

End Rounding.

(** ** Obstacle generation (claim C3) *)

Lemma generatePipes_shape {num : Type} {ops : JsNumber num}
  (rnd : num) (g : Game.t num) :
  let gap := Game.currentGap g in
  let topHeight :=
    (MIN_PIPE_HEIGHT
     + rnd * (HEIGHT - gap - MIN_PIPE_HEIGHT - MIN_PIPE_HEIGHT))%js in
  Game.generatePipes rnd g =
  [ Pipe.new topHeight false;
    Pipe.new (HEIGHT - topHeight - gap)%js true ].
Proof. reflexivity. Qed.

Lemma currentGap_cases {num : Type} {ops : JsNumber num} (g : Game.t num) :
  ((Game.score (Game.state g) < 3)%N /\
   Game.currentGap g = (PIPE_GAP + lit 50)%js) \/
  ((3 <= Game.score (Game.state g))%N /\ Game.currentGap g = PIPE_GAP).
Proof.
  unfold Game.currentGap.
  destruct (N.ltb_spec (Game.score (Game.state g)) 3) as [Hlt | Hge].
  - left. split; [exact Hlt | reflexivity].
  - right. split; [exact Hge | reflexivity].
Qed.

(* The heights of a pair in binary64, for a draw in [0,1). *)
Lemma f64_pair_heights (rnd : float) (g : Game.t float) :
  (0 <=? rnd)%float = true -> (rnd <? 1)%float = true ->
  let gap := Game.currentGap g in
  let topHeight :=
    (MIN_PIPE_HEIGHT
     + rnd * (HEIGHT - gap - MIN_PIPE_HEIGHT - MIN_PIPE_HEIGHT))%js in
  let bottomHeight := (HEIGHT - topHeight - gap)%js in
  (MIN_PIPE_HEIGHT <=? topHeight)%js = true /\
  (MIN_PIPE_HEIGHT <=? bottomHeight)%js = true /\
  (topHeight + bottomHeight + gap)%js = HEIGHT.
Proof.
  intros H0 H1. cbv zeta.
  assert (Hgap : (Game.currentGap g = 200%float /\
                  (HEIGHT - Game.currentGap g
                   - MIN_PIPE_HEIGHT - MIN_PIPE_HEIGHT)%js = 240%float) \/
                 (Game.currentGap g = 250%float /\
                  (HEIGHT - Game.currentGap g
                   - MIN_PIPE_HEIGHT - MIN_PIPE_HEIGHT)%js = 190%float)).
  { destruct (currentGap_cases g) as [[_ E] | [_ E]]; rewrite E.
    - right. split; vm_compute; reflexivity.
    - left. split; vm_compute; reflexivity. }
  assert (H30 : @MIN_PIPE_HEIGHT float F64 = 30%float)
    by (vm_compute; reflexivity).
  assert (H500 : @HEIGHT float F64 = 500%float) by (vm_compute; reflexivity).
  set (gap := Game.currentGap g) in *.
  set (c := (HEIGHT - gap - MIN_PIPE_HEIGHT - MIN_PIPE_HEIGHT)%js) in *.
  rewrite H30, H500.
  assert (Hgc : (gap = 200%float /\ c = 240%float) \/
                (gap = 250%float /\ c = 190%float)) by exact Hgap.
  exact (pair_binary64 rnd gap c Hgc H0 H1).
Qed.

(* The heights of a pair in exact arithmetic, for a draw in [0,1). *)
Lemma exact_pair_heights (rnd : Q) (g : Game.t Q) :
  0 <= rnd -> rnd < 1 ->
  let gap := Game.currentGap g in
  let topHeight := 30 + rnd * (500 - gap - 30 - 30) in
  let bottomHeight := 500 - topHeight - gap in
  30 <= topHeight /\ 30 < bottomHeight /\
  topHeight + bottomHeight + gap == 500.
Proof.
  intros H0 H1 gap topHeight bottomHeight.
  assert (Hgap : gap == 250 \/ gap == 200).
  { unfold gap.
    destruct (currentGap_cases g) as [[_ E] | [_ E]]; rewrite E.
    - left. vm_compute. reflexivity.
    - right. vm_compute. reflexivity. }
  unfold bottomHeight, topHeight.
  destruct Hgap as [E | E]; rewrite E; repeat split; try lra.
Qed.

(** C3. [generatePipes] returns exactly two pipes, the first an upper
    one of height minHeight + rnd * (maxHeight - minHeight) and the second
    a lower one of height HEIGHT - topPipeHeight - currentGap, for every
    number instance.  For every draw in [0,1), both heights are at least
    MIN_PIPE_HEIGHT = 30, and the two heights and the gap in force (250
    while the score is below 3, 200 afterwards) add up to HEIGHT = 500
    exactly; with gap 200, upper + lower + 200 = 500.  This holds in
    binary64, for every double in [0,1) with the rounding of each
    operation taken into account, and in exact arithmetic. *)
Theorem generated_pair_fills_the_height :
  (forall (num : Type) (ops : JsNumber num) (rnd : num) (g : Game.t num),
     exists upper lower,
       Game.generatePipes rnd g = [upper; lower] /\
       Pipe.isBottom upper = false /\ Pipe.isBottom lower = true /\
       Pipe.y upper = lit 0 /\
       Pipe.y lower = (HEIGHT - Pipe.height lower)%js /\
       Pipe.height upper =
         (MIN_PIPE_HEIGHT
          + rnd * (HEIGHT - Game.currentGap g
                   - MIN_PIPE_HEIGHT - MIN_PIPE_HEIGHT))%js /\
       Pipe.height lower =
         (HEIGHT - Pipe.height upper - Game.currentGap g)%js) /\
  (forall (rnd : float) (g : Game.t float),
     (0 <=? rnd)%float = true -> (rnd <? 1)%float = true ->
     exists upper lower,
       Game.generatePipes rnd g = [upper; lower] /\
       Pipe.isBottom upper = false /\ Pipe.isBottom lower = true /\
       (30 <=? Pipe.height upper)%float = true /\
       (30 <=? Pipe.height lower)%float = true /\
       (Pipe.height upper + Pipe.height lower + Game.currentGap g)%float
         = 500%float /\
       ((3 <= Game.score (Game.state g))%N ->
        (Pipe.height upper + Pipe.height lower + 200)%float = 500%float)) /\
  (forall (rnd : Q) (g : Game.t Q),
     0 <= rnd -> rnd < 1 ->
     exists upper lower,
       Game.generatePipes rnd g = [upper; lower] /\
       Pipe.isBottom upper = false /\ Pipe.isBottom lower = true /\
       @MIN_PIPE_HEIGHT Q Exact <= Pipe.height upper /\
       @MIN_PIPE_HEIGHT Q Exact <= Pipe.height lower /\
       Pipe.height upper + Pipe.height lower + Game.currentGap g
         == @HEIGHT Q Exact /\
       ((3 <= Game.score (Game.state g))%N ->
        Pipe.height upper + Pipe.height lower + 200 == 500)).
Proof.
  split; [|split].
  - intros num ops rnd g. eexists. eexists.
    split; [apply generatePipes_shape|].
    cbv zeta. simpl. repeat split.
  - intros rnd g H0 H1. eexists. eexists.
    split; [apply generatePipes_shape|].
    cbv zeta. simpl Pipe.isBottom. simpl Pipe.height.
    destruct (f64_pair_heights rnd g H0 H1) as (Ht & Hb & Hsum).
    cbv zeta in Ht, Hb, Hsum.
    assert (H30 : @MIN_PIPE_HEIGHT float F64 = 30%float)
      by (vm_compute; reflexivity).
    assert (H500 : @HEIGHT float F64 = 500%float) by (vm_compute; reflexivity).
    rewrite H30 in Ht, Hb. rewrite H500 in Hsum.
    split; [reflexivity|]. split; [reflexivity|].
    split; [exact Ht|]. split; [exact Hb|]. split; [exact Hsum|].
    intro Hscore.
    destruct (currentGap_cases g) as [[Hlt _] | [_ E]]; [lia|].
    rewrite E in Hsum.
    replace (@PIPE_GAP float F64) with 200%float in Hsum
      by (vm_compute; reflexivity).
    rewrite E.
    replace (@PIPE_GAP float F64) with 200%float
      by (vm_compute; reflexivity).
    exact Hsum.
  - intros rnd g H0 H1. eexists. eexists.
    split; [apply generatePipes_shape|].
    cbv zeta. simpl Pipe.isBottom. simpl Pipe.height.
    destruct (exact_pair_heights rnd g H0 H1) as (Ht & Hb & Hsum).
    cbv zeta in Ht, Hb, Hsum.
    split; [reflexivity|]. split; [reflexivity|].
    split; [exact Ht|]. split; [apply Qlt_le_weak; exact Hb|].
    split; [exact Hsum|].
    intro Hscore.
    destruct (currentGap_cases g) as [[Hlt _] | [_ E]]; [lia|].
    rewrite E in Hsum |- *. exact Hsum.
Qed.

(** The binary64 statement at the draw 0.5 of a fresh game: both pipes
    are 125 high around a gap of 250. *)
Lemma generated_pair_fills_the_height_witness :
  exists upper lower,
    Game.generatePipes 0.5%float fresh = [upper; lower] /\
    Pipe.isBottom upper = false /\ Pipe.isBottom lower = true /\
    (30 <=? Pipe.height upper)%float = true /\
    (30 <=? Pipe.height lower)%float = true /\
    (Pipe.height upper + Pipe.height lower + Game.currentGap fresh)%float
      = 500%float /\
    ((3 <= Game.score (Game.state fresh))%N ->
     (Pipe.height upper + Pipe.height lower + 200)%float = 500%float).
Proof.
  refine (proj1 (proj2 generated_pair_fills_the_height)
            0.5%float fresh _ _).
  - vm_compute. reflexivity.
  - vm_compute. reflexivity.
Defined.

(** The same pair computed: heights 125 and 125, gap 250. *)
Lemma generated_pair_at_one_half :
  map (fun pipe => (Pipe.isBottom pipe, Pipe.y pipe, Pipe.height pipe))
      (Game.generatePipes 0.5%float fresh)
  = [(false, 0%float, 125%float); (true, 375%float, 125%float)].
Proof. vm_compute. reflexivity. Qed.

(** ** The spawn step (claim C6) *)

Lemma spawnStep_after_increment {num : Type} {ops : JsNumber num}
  (rnd : num) (g : Game.t num) :
  let count := Game.frameCount (Game.update rnd g) in
  count = (Game.frameCount g + 1)%N /\
  ((count mod 240 = 0)%N ->
   Game.spawnStep rnd g = Game.pipes g ++ Game.generatePipes rnd g) /\
  ((count mod 240 <> 0)%N -> Game.spawnStep rnd g = Game.pipes g).
Proof.
  cbv zeta.
  destruct (update_fields rnd g) as (Hf & _).
  destruct (advance_fields rnd g) as (Ha & _).
  cbv zeta in Hf, Ha. rewrite Hf, Ha. unfold Game.spawnStep.
  split; [reflexivity|].
  destruct (N.eqb_spec ((Game.frameCount g + 1) mod 240) 0) as [E | E].
  - split; [reflexivity | intro Hne; contradiction].
  - split; [intro Heq; contradiction | reflexivity].
Qed.

(** C6, as stated, fails.  The first tick of a started game finds the
    counter at 0, a multiple of 240: a tick that tests the counter first and
    increments it last would spawn a pair, but [update] increments first,
    tests 1 and spawns nothing.  The 240th tick finds the counter at 239,
    not a multiple of 240, and [update] spawns a pair on it. *)
Lemma spawn_test_reads_incremented_counter :
  Game.phase started = Running /\
  Game.frameCount started = 0%N /\
  length (spawnStep_spec 0.5%float started) = 2%nat /\
  Game.spawnStep 0.5%float started = [] /\
  Game.pipes (Game.update 0.5%float started) = [] /\
  Game.phase beforeSpawn = Running /\
  Game.frameCount beforeSpawn = 239%N /\
  spawnStep_spec 0.5%float beforeSpawn = [] /\
  length (Game.spawnStep 0.5%float beforeSpawn) = 2%nat /\
  length (Game.pipes (Game.update 0.5%float beforeSpawn)) = 2%nat /\
  ~ (forall (rnd : float) (g : Game.t float),
       Game.spawnStep rnd g = spawnStep_spec rnd g).
Proof.
  repeat (split; [vm_compute; reflexivity|]).
  intro Hall. specialize (Hall 0.5%float started).
  apply (f_equal (@length _)) in Hall. vm_compute in Hall. discriminate.
Qed.

(** C6, amended.  A tick first increments the counter and then tests the
    incremented value: the pipes handed to the rest of the tick are the old
    ones followed by a new pair exactly when the counter after the tick is
    a multiple of 240, and the old ones alone otherwise.  The new pair is
    appended at the end, upper pipe first, and moves on that same tick.
    Counted from a fresh counter, the pairs appear on ticks 240, 480, ...
    and never on the first tick. *)
Theorem spawn_on_incremented_multiples_of_240 :
  forall (num : Type) (ops : JsNumber num) (rnd : num) (g : Game.t num),
    let count := Game.frameCount (Game.update rnd g) in
    let birdX := Bird.x (Game.bird g) in
    count = (Game.frameCount g + 1)%N /\
    ((count mod 240 = 0)%N <->
     Game.spawnStep rnd g = Game.pipes g ++ Game.generatePipes rnd g) /\
    ((count mod 240 <> 0)%N <-> Game.spawnStep rnd g = Game.pipes g) /\
    Game.pipes (Game.update rnd g) =
      filter (fun pipe => negb (Pipe.isDead pipe))
        (map (fun pipe => fst (Game.visitPipe birdX 0 pipe))
           (Game.spawnStep rnd g)) /\
    (Game.frameCount g = 0%N -> Game.spawnStep rnd g = Game.pipes g).
Proof.
  intros num ops rnd g count birdX.
  destruct (spawnStep_after_increment rnd g) as (Hc & Hyes & Hno).
  fold count in Hc, Hyes, Hno.
  assert (Hlen : length (Game.pipes g ++ Game.generatePipes rnd g)
                 = S (S (length (Game.pipes g)))).
  { rewrite length_app, generatePipes_shape. simpl. lia. }
  split; [exact Hc|]. split; [|split; [|split]].
  - split; [exact Hyes|]. intro Hspawn.
    destruct (N.eq_dec (count mod 240) 0) as [E | E]; [exact E|].
    rewrite (Hno E) in Hspawn.
    apply (f_equal (@length _)) in Hspawn. rewrite Hlen in Hspawn. lia.
  - split; [exact Hno|]. intros Hkeep Hzero.
    rewrite (Hyes Hzero) in Hkeep.
    apply (f_equal (@length _)) in Hkeep. rewrite Hlen in Hkeep. lia.
  - destruct (update_fields rnd g) as (_ & _ & Hp & _).
    destruct (advance_fields rnd g) as (_ & _ & Hap & _).
    cbv zeta in Hp, Hap. rewrite Hp. exact Hap.
  - intro Hfresh. apply Hno. rewrite Hc, Hfresh. vm_compute. discriminate.
Qed.

(** On the 240th tick of the hovering game the counter becomes 240 and
    the pair is appended. *)
Lemma spawn_on_incremented_multiples_of_240_witness :
  Game.spawnStep 0.5%float beforeSpawn =
  Game.pipes beforeSpawn ++ Game.generatePipes 0.5%float beforeSpawn.
Proof.
  refine (proj1 (proj1 (proj2
            (spawn_on_incremented_multiples_of_240 float F64
               0.5%float beforeSpawn))) _).
  vm_compute. reflexivity.
Defined.

(** ** The state machine (claims C8, C9 and C10) *)

Section StateMachine.
Context {num : Type} {ops : JsNumber num}.

Lemma phase_Over (g : Game.t num) :
  Game.phase g = Over <-> Game.gameOver (Game.state g) = true.
Proof.
  unfold Game.phase.
  destruct (Game.gameOver (Game.state g)),
    (Game.gameStarted (Game.state g)), (Game.paused (Game.state g));
    simpl; split; congruence.
Qed.

Lemma phase_Idle (g : Game.t num) :
  Game.phase g = Idle <->
  Game.gameStarted (Game.state g) = false /\
  Game.gameOver (Game.state g) = false.
Proof.
  unfold Game.phase.
  destruct (Game.gameOver (Game.state g)),
    (Game.gameStarted (Game.state g)), (Game.paused (Game.state g));
    simpl; split; try congruence; try tauto; intros [A B]; congruence.
Qed.

Lemma phase_Paused (g : Game.t num) :
  Game.phase g = Paused <->
  Game.gameStarted (Game.state g) = true /\
  Game.gameOver (Game.state g) = false /\
  Game.paused (Game.state g) = true.
Proof.
  unfold Game.phase.
  destruct (Game.gameOver (Game.state g)),
    (Game.gameStarted (Game.state g)), (Game.paused (Game.state g));
    simpl; split; try congruence; try tauto; intros (A & B & C); congruence.
Qed.

(* What restart leaves behind, from any state. *)
Lemma restart_fields (g : Game.t num) :
  let g' := Game.restart g in
  Game.state g' =
    {| Game.gameStarted := false; Game.gameOver := false;
       Game.score := 0; Game.paused := Game.paused (Game.state g) |} /\
  Game.frameCount g' = 0%N /\
  Game.pipes g' = [] /\
  Game.bird g' = Bird.new /\
  Game.loop g' = Game.loop g /\
  Game.intervals g' =
    match Game.loop g with
    | Some h => remove Pos.eq_dec h (Game.intervals g)
    | None => Game.intervals g
    end /\
  Game.nextHandle g' = Game.nextHandle g /\
  Game.submitted g' = Game.submitted g.
Proof. cbv zeta. unfold Game.restart. simpl. repeat split. Qed.

Lemma restart_phase (g : Game.t num) : Game.phase (Game.restart g) = Idle.
Proof. reflexivity. Qed.

(* clearInterval(this.loop) stops every timer when this.loop is the only
   one that is live. *)
Lemma remove_only_handle (h : positive) (hs : list positive) :
  (forall k, In k hs -> k = h) -> remove Pos.eq_dec h hs = [].
Proof.
  induction hs as [|k rest IH]; intro Hall; simpl; [reflexivity|].
  destruct (Pos.eq_dec h k) as [E | E].
  - apply IH. intros j Hj. apply Hall. right. exact Hj.
  - exfalso. apply E. symmetry. apply Hall. left. reflexivity.
Qed.

Lemma startGame_after_restart (g : Game.t num) :
  let g1 := Game.startGame (Game.restart g) in
  Game.gameStarted (Game.state g1) = true /\
  Game.gameOver (Game.state g1) = false /\
  Game.phase g1 = if Game.paused (Game.state g) then Paused else Running.
Proof.
  cbv zeta. unfold Game.startGame, Game.phase. simpl.
  repeat split.
Qed.

(* The guarded jump does nothing unless the game is Running. *)
Lemma jumpIfPlaying_not_running (g : Game.t num) :
  Game.phase g <> Running -> Game.jumpIfPlaying g = g.
Proof.
  intro Hne. unfold Game.jumpIfPlaying.
  destruct (Game.gameStarted (Game.state g)) eqn:Es;
    destruct (Game.gameOver (Game.state g)) eqn:Eo;
    destruct (Game.paused (Game.state g)) eqn:Ep; simpl; try reflexivity.
  exfalso. apply Hne. apply running_flags. repeat split; assumption.
Qed.

Lemma jumpIfPlaying_phase (g : Game.t num) :
  Game.phase (Game.jumpIfPlaying g) = Game.phase g.
Proof.
  unfold Game.jumpIfPlaying.
  destruct (_ && _ && _); reflexivity.
Qed.

Lemma togglePause_not_playing (g : Game.t num) :
  Game.phase g = Over \/ Game.phase g = Idle -> Game.togglePause g = g.
Proof.
  intro Hph. unfold Game.togglePause.
  destruct Hph as [Hover | Hidle].
  - apply phase_Over in Hover. rewrite Hover, andb_false_r. reflexivity.
  - apply phase_Idle in Hidle. destruct Hidle as [Hs _].
    rewrite Hs. reflexivity.
Qed.

End StateMachine.

(** C8. From any Over state, restart yields the Idle state: the score is
    0, the pipe list is empty, the tick counter is 0, the bird is a newly
    constructed one (x = 150, y = HEIGHT / 2, velocity 0) and both flags
    are false.  The R key does just that.  The next start trigger then
    starts the game, which runs when it was not paused. *)
Theorem restart_when_over_gives_idle :
  forall (num : Type) (ops : JsNumber num) (g : Game.t num),
    Game.phase g = Over ->
    let g' := Game.restart g in
    Game.phase g' = Idle /\
    Game.score (Game.state g') = 0%N /\
    Game.pipes g' = [] /\
    Game.frameCount g' = 0%N /\
    Game.bird g' = Bird.new /\
    Game.gameStarted (Game.state g') = false /\
    Game.gameOver (Game.state g') = false /\
    Game.onKeyDown KeyR g = g' /\
    Game.gameStarted (Game.state (Game.startGame g')) = true /\
    (Game.paused (Game.state g) = false ->
     Game.phase (Game.onClick g') = Running /\
     Game.phase (Game.onKeyDown Space g') = Running).
Proof.
  intros num ops g Hover g'.
  destruct (restart_fields g) as (Hst & Hfc & Hps & Hb & _).
  fold g' in Hst, Hfc, Hps, Hb.
  destruct (startGame_after_restart g) as (Hs1 & _ & Hph).
  fold g' in Hs1, Hph.
  split; [apply restart_phase|].
  rewrite Hst. simpl.
  repeat (split; [first [reflexivity | assumption]|]).
  intro Hp. rewrite Hp in Hph.
  split.
  - change (Game.onClick g') with (Game.startGame g'). exact Hph.
  - change (Game.onKeyDown Space g')
      with (Game.jumpIfPlaying (Game.startGame g')).
    rewrite jumpIfPlaying_phase. exact Hph.
Qed.

(** The game that ended when the bird fell through the floor is Over;
    restarting it gives the Idle state with everything reset. *)
Lemma restart_when_over_gives_idle_witness :
  Game.phase crashed = Over /\
  Game.phase (Game.restart crashed) = Idle /\
  Game.score (Game.state (Game.restart crashed)) = 0%N /\
  Game.pipes (Game.restart crashed) = [] /\
  Game.frameCount (Game.restart crashed) = 0%N /\
  Game.bird (Game.restart crashed) = Bird.new.
Proof.
  assert (Hover : Game.phase crashed = Over) by (vm_compute; reflexivity).
  split; [exact Hover|].
  destruct (restart_when_over_gives_idle float F64 crashed Hover)
    as (H1 & H2 & H3 & H4 & H5 & _).
  repeat split; assumption.
Defined.

(** C9.  No handler fails.  The jump in the handlers is guarded and acts
    only while Running, so the Space key or a click while Paused or Over
    leaves the whole component unchanged; a click while Idle only starts
    the game and leaves the bird, and so its velocity, alone; the pause
    toggle (and the P key) while Over or Idle leaves the whole component
    unchanged.  The Space key while Idle is where the code departs from
    the claim: the keydown handler starts the game and then tests
    gameStarted again, in a second [if] and not in the [else if] of the
    click handler, finds the game started and jumps, unless the pause flag
    is set.  On the mounted component, which is Idle with velocity 0, the
    Space key gives a Running game whose bird has velocity -8, while a
    click gives a Running game whose bird is untouched. *)
Theorem triggers_outside_running :
  (forall (num : Type) (ops : JsNumber num) (g : Game.t num),
     (Game.phase g <> Running -> Game.jumpIfPlaying g = g) /\
     (Game.phase g = Paused \/ Game.phase g = Over ->
      Game.onKeyDown Space g = g /\ Game.onClick g = g) /\
     (Game.phase g = Idle ->
      Game.onClick g = Game.startGame g /\
      Game.bird (Game.onClick g) = Game.bird g) /\
     (Game.phase g = Over \/ Game.phase g = Idle ->
      Game.togglePause g = g /\ Game.onKeyDown KeyP g = g) /\
     (Game.phase g = Idle ->
      Game.onKeyDown Space g = Game.jumpIfPlaying (Game.startGame g) /\
      (Game.paused (Game.state g) = false ->
       Game.phase (Game.onKeyDown Space g) = Running /\
       Game.bird (Game.onKeyDown Space g) = Bird.jump (Game.bird g)) /\
      (Game.paused (Game.state g) = true ->
       Game.phase (Game.onKeyDown Space g) = Paused /\
       Game.bird (Game.onKeyDown Space g) = Game.bird g))) /\
  (fresh = @Game.mounted float F64
   /\ Game.phase fresh = Idle
   /\ Bird.velocity (Game.bird fresh) = 0%float
   /\ Game.phase (Game.onKeyDown Space fresh) = Running
   /\ Bird.velocity (Game.bird (Game.onKeyDown Space fresh)) = (-8)%float
   /\ Bird.velocity (Game.bird (Game.onKeyDown Space fresh))
      <> Bird.velocity (Game.bird fresh)
   /\ Game.phase (Game.onClick fresh) = Running
   /\ Game.bird (Game.onClick fresh) = Game.bird fresh).
Proof.
  split.
  - intros num ops g.
    split; [apply jumpIfPlaying_not_running|].
    split; [|split; [|split]].
    + intros [Hp | Ho].
      * apply phase_Paused in Hp. destruct Hp as (A & B & C).
        unfold Game.onKeyDown, Game.onClick. rewrite A. cbn [negb].
        unfold Game.jumpIfPlaying. rewrite A, B, C. split; reflexivity.
      * apply phase_Over in Ho.
        assert (Hstart : Game.startGame g = g).
        { unfold Game.startGame. rewrite Ho, andb_false_r. reflexivity. }
        assert (Hjump : Game.jumpIfPlaying g = g).
        { unfold Game.jumpIfPlaying. rewrite Ho, andb_false_r. reflexivity. }
        unfold Game.onKeyDown, Game.onClick. rewrite Hstart.
        destruct (negb (Game.gameStarted (Game.state g)));
          split; first [exact Hjump | reflexivity].
    + intro Hi. apply phase_Idle in Hi. destruct Hi as [A B].
      unfold Game.onClick, Game.startGame. rewrite A, B. split; reflexivity.
    + intro Hph. split; apply togglePause_not_playing; exact Hph.
    + intro Hi. apply phase_Idle in Hi. destruct Hi as [A B].
      destruct g as [[gs go sc pa] fc ps b lp iv nh sub].
      simpl in A, B. subst gs go.
      split; [reflexivity|].
      split; intro C; simpl in C; subst pa; split; reflexivity.
  - do 5 (split; [vm_compute; reflexivity|]).
    split; [|split; vm_compute; reflexivity].
    intro Heq.
    apply (f_equal (fun v => PrimFloat.ltb v 0%float)) in Heq.
    vm_compute in Heq. discriminate.
Qed.

(** The crashed game is Over: the pause toggle leaves it as it is. *)
Lemma triggers_outside_running_witness :
  Game.togglePause crashed = crashed /\ Game.onKeyDown KeyP crashed = crashed.
Proof.
  refine (proj1 (proj2 (proj2 (proj2
            (proj1 triggers_outside_running float F64 crashed)))) _).
  left. vm_compute. reflexivity.
Defined.

(** C10.  From every state [restart] resets the score, the pipes, the
    tick counter, the bird and the started and over flags, leaves the
    pause flag as it was, and clears the timer whose handle [loop] holds;
    when no other timer is live, no timer is left and the clock stands
    still.  After start, pause, restart, start and resume, however, two
    timers are live and [loop] holds only the later one: restart clears
    it, the earlier one stays, and its next firing runs [update] on the
    game that restart has just put in the Idle state. *)
Theorem restart_in_every_state :
  (forall (num : Type) (ops : JsNumber num) (g : Game.t num),
     let g' := Game.restart g in
     Game.phase g' = Idle /\
     Game.score (Game.state g') = 0%N /\
     Game.pipes g' = [] /\
     Game.frameCount g' = 0%N /\
     Game.bird g' = Bird.new /\
     Game.gameStarted (Game.state g') = false /\
     Game.gameOver (Game.state g') = false /\
     Game.paused (Game.state g') = Game.paused (Game.state g) /\
     Game.onKeyDown KeyR g = g' /\
     (forall h, Game.loop g = Some h -> ~ In h (Game.intervals g')) /\
     ((forall h, In h (Game.intervals g) -> Game.loop g = Some h) ->
      Game.intervals g' = [])) /\
  (twoTimers =
     Game.run [Game.KeyDown Space; Game.KeyDown KeyP; Game.KeyDown KeyR;
               Game.KeyDown Space; Game.KeyDown KeyP] (@Game.mounted float F64)
   /\ Game.phase twoTimers = Running
   /\ Game.loop twoTimers = Some 3%positive
   /\ Game.intervals twoTimers = [3%positive; 2%positive]
   /\ Game.phase (Game.restart twoTimers) = Idle
   /\ Game.intervals (Game.restart twoTimers) = [2%positive]
   /\ Game.frameCount
        (Game.handle (Game.Timer 2 0.5%float) (Game.restart twoTimers)) = 1%N
   /\ Game.bird (Game.handle (Game.Timer 2 0.5%float) (Game.restart twoTimers))
      = Bird.update Bird.new).
Proof.
  split.
  - intros num ops g g'. subst g'.
    destruct (restart_fields g) as (Hst & Hfc & Hps & Hb & _ & Hiv & _).
    cbv zeta in Hst, Hfc, Hps, Hb, Hiv.
    split; [apply restart_phase|].
    split; [rewrite Hst; reflexivity|].
    split; [exact Hps|]. split; [exact Hfc|]. split; [exact Hb|].
    do 3 (split; [rewrite Hst; reflexivity|]).
    split; [reflexivity|].
    split.
    + intros h Hl Hin. rewrite Hiv, Hl in Hin.
      apply in_remove in Hin. destruct Hin as [_ Hne]. apply Hne. reflexivity.
    + intro Honly. rewrite Hiv.
      destruct (Game.loop g) as [h|] eqn:Hl.
      * apply remove_only_handle. intros k Hk.
        specialize (Honly k Hk). congruence.
      * destruct (Game.intervals g) as [|k rest]; [reflexivity|].
        specialize (Honly k (or_introl eq_refl)). discriminate.
  - repeat split; vm_compute; reflexivity.
Qed.

(** In the running game [started] the only live timer is the one in
    [loop]: restart leaves no timer. *)
Lemma restart_in_every_state_witness :
  Game.intervals (Game.restart started) = [].
Proof.
  refine (proj2 (proj2 (proj2 (proj2 (proj2 (proj2 (proj2 (proj2 (proj2
            (proj2 (proj1 restart_in_every_state float F64 started))))))))))
            _).
  intros h Hin. vm_compute in Hin. destruct Hin as [E | []].
  rewrite <- E. vm_compute. reflexivity.
Defined.

(** ** The state machine and its clock *)

Section Machine.
Context {num : Type} {ops : JsNumber num}.

Lemma paused_flags (g : Game.t num) :
  Game.phase g = Paused <->
  Game.gameStarted (Game.state g) = true /\
  Game.gameOver (Game.state g) = false /\
  Game.paused (Game.state g) = true.
Proof.
  unfold Game.phase.
  destruct (Game.gameOver (Game.state g)), (Game.gameStarted (Game.state g)),
    (Game.paused (Game.state g)); simpl; split;
    try discriminate; try tauto; intros (A & B & C); discriminate.
Qed.

Lemma paused_inert (e : Game.Event) (g : Game.t num) :
  Game.phase g = Paused -> inert e = true -> Game.handle e g = g.
Proof.
  intros Hp He. apply paused_flags in Hp. destruct Hp as (A & B & C).
  destruct g as [[gs go sc pa] fc ps b lp iv nh sub]. simpl in A, B, C.
  subst gs go pa.
  destruct e as [[| | |]| |h rnd]; try discriminate; try reflexivity.
  simpl. destruct (existsb _ _); reflexivity.
Qed.

Lemma paused_run_inert (es : list Game.Event) (g : Game.t num) :
  Game.phase g = Paused -> forallb inert es = true -> Game.run es g = g.
Proof.
  intros Hp. induction es as [|e rest IH]; intro Hall; [reflexivity|].
  simpl in Hall. apply andb_true_iff in Hall. destruct Hall as [He Hrest].
  change (Game.run (e :: rest) g) with (Game.run rest (Game.handle e g)).
  rewrite (paused_inert e g Hp He). apply IH. exact Hrest.
Qed.

Lemma run_app (es1 es2 : list Game.Event) (g : Game.t num) :
  Game.run (es1 ++ es2) g = Game.run es2 (Game.run es1 g).
Proof. unfold Game.run. apply fold_left_app. Qed.

End Machine.

(** X1. Pausing a Running game clears the timer whose handle [loop]
    holds and makes the game Paused.  While it is Paused, timer firings,
    the Space key, clicks and other keys leave the whole component as it
    is.  The next P resumes: the game is Running again with the state, the
    tick counter, the pipes, the bird and the posted scores it had when it
    was paused, on a newly registered timer.  No tick is caught up. *)
Theorem pause_then_resume_loses_nothing :
  forall (num : Type) (ops : JsNumber num) (g : Game.t num)
         (during : list Game.Event),
    Game.phase g = Running ->
    forallb inert during = true ->
    let p := Game.handle (Game.KeyDown KeyP) g in
    let g' := Game.run (Game.KeyDown KeyP :: during ++ [Game.KeyDown KeyP]) g in
    Game.phase p = Paused /\
    (forall h, Game.loop g = Some h -> ~ In h (Game.intervals p)) /\
    Game.run during p = p /\
    Game.phase g' = Running /\
    Game.state g' = Game.state g /\
    Game.frameCount g' = Game.frameCount g /\
    Game.pipes g' = Game.pipes g /\
    Game.bird g' = Game.bird g /\
    Game.submitted g' = Game.submitted g /\
    Game.loop g' = Some (Game.nextHandle g) /\
    In (Game.nextHandle g) (Game.intervals g').
Proof.
  intros num ops g during Hrun Hin p g'.
  pose proof Hrun as Hflags. apply running_flags in Hflags.
  destruct Hflags as (A & B & C).
  assert (Hp : Game.phase p = Paused).
  { unfold p. simpl. unfold Game.togglePause. rewrite A, B, C. simpl.
    unfold Game.phase. simpl. rewrite A, B. reflexivity. }
  assert (Hd : Game.run during p = p) by (apply paused_run_inert; assumption).
  assert (Hg' : g' = Game.togglePause p).
  { unfold g'.
    change (Game.run (Game.KeyDown KeyP :: during ++ [Game.KeyDown KeyP]) g)
      with (Game.run (during ++ [Game.KeyDown KeyP]) p).
    rewrite run_app, Hd. reflexivity. }
  split; [exact Hp|]. split.
  { intros h Hl Hi. unfold p in Hi. simpl in Hi. unfold Game.togglePause in Hi.
    rewrite A, B, C in Hi. simpl in Hi. rewrite Hl in Hi.
    apply in_remove in Hi. destruct Hi as [_ Hne]. apply Hne. reflexivity. }
  split; [exact Hd|].
  rewrite Hg'. unfold p. simpl. unfold Game.togglePause at 2.
  rewrite A, B, C. simpl. unfold Game.togglePause. simpl. rewrite A, B. simpl.
  unfold Game.phase. simpl. rewrite A, B.
  destruct g as [[gs go sc pa] fc ps b lp iv nh sub]. simpl in *. subst.
  repeat split. left. reflexivity.
Qed.

(** The game started by the Space key, paused, left alone while timers
    fire and keys are pressed, and resumed. *)
Lemma pause_then_resume_loses_nothing_witness :
  let g' := Game.run (Game.KeyDown KeyP :: whilePaused ++ [Game.KeyDown KeyP])
              started in
  Game.phase g' = Running /\
  Game.state g' = Game.state started /\
  Game.frameCount g' = Game.frameCount started /\
  Game.pipes g' = Game.pipes started /\
  Game.bird g' = Game.bird started /\
  Game.submitted g' = Game.submitted started /\
  Game.loop g' = Some (Game.nextHandle started) /\
  In (Game.nextHandle started) (Game.intervals g').
Proof.
  refine (proj2 (proj2 (proj2
            (pause_then_resume_loses_nothing float F64 started whilePaused
               _ _)))).
  - vm_compute. reflexivity.
  - vm_compute. reflexivity.
Defined.

Section Clock.
Context {num : Type} {ops : JsNumber num}.

(* What the end of [update] does to the flags, the timers and the posts. *)
Lemma update_effects (rnd : num) (g : Game.t num) :
  let g1 := Game.advance rnd g in
  let g2 := Game.update rnd g in
  let hit := Game.checkCollisions g1 in
  Game.gameStarted (Game.state g2) = Game.gameStarted (Game.state g) /\
  Game.paused (Game.state g2) = Game.paused (Game.state g) /\
  Game.gameOver (Game.state g2) = (hit || Game.gameOver (Game.state g)) /\
  Game.loop g2 = Game.loop g /\
  Game.nextHandle g2 = Game.nextHandle g /\
  Game.intervals g2 =
    (if hit then Game.intervals (Game.clearInterval g)
     else Game.intervals g) /\
  Game.submitted g2 =
    (if hit then Game.score (Game.state g2) :: Game.submitted g
     else Game.submitted g).
Proof.
  cbv zeta.
  destruct (advance_fields rnd g)
    as (_ & _ & _ & _ & Hgs & Hgo & Hpa & Hl & Hi & Hn & Hs).
  cbv zeta in Hgs, Hgo, Hpa, Hl, Hi, Hn, Hs.
  unfold Game.update.
  destruct (Game.checkCollisions (Game.advance rnd g)); simpl.
  - rewrite Hgs, Hpa, Hl, Hi, Hn, Hs. repeat split; reflexivity.
  - rewrite Hgs, Hpa, Hgo, Hl, Hi, Hn, Hs. repeat split; reflexivity.
Qed.

Lemma phase_update (rnd : num) (g : Game.t num) :
  Game.phase (Game.update rnd g) =
  if Game.checkCollisions (Game.advance rnd g) then Over else Game.phase g.
Proof.
  destruct (update_effects rnd g) as (Hgs & Hpa & Hgo & _).
  cbv zeta in Hgs, Hpa, Hgo. unfold Game.phase. rewrite Hgs, Hpa, Hgo.
  destruct (Game.checkCollisions (Game.advance rnd g)); reflexivity.
Qed.

Lemma timer_cases (h : positive) (rnd : num) (g : Game.t num) :
  (Game.handle (Game.Timer h rnd) g = g) \/
  (In h (Game.intervals g) /\ Game.paused (Game.state g) = false /\
   Game.handle (Game.Timer h rnd) g = Game.update rnd g).
Proof.
  simpl. destruct (existsb (Pos.eqb h) (Game.intervals g)) eqn:E;
    [|left; reflexivity].
  unfold Game.gameLoop.
  destruct (Game.paused (Game.state g)) eqn:P; [left; reflexivity|].
  right. split; [|split; reflexivity].
  apply existsb_exists in E. destruct E as (k & Hin & Hk).
  apply Pos.eqb_eq in Hk. subst k. exact Hin.
Qed.

Lemma tidy_mounted : tidy (@Game.mounted num ops).
Proof. split; [discriminate | reflexivity]. Qed.

Lemma remove_single (h : positive) : remove Pos.eq_dec h [h] = [].
Proof. simpl. destruct (Pos.eq_dec h h); [reflexivity | congruence]. Qed.

Lemma tidy_update (rnd : num) (g : Game.t num) :
  tidy g -> Game.paused (Game.state g) = false -> tidy (Game.update rnd g).
Proof.
  intros [Hp Hc] Hpa.
  destruct (update_effects rnd g) as (Hgs & Hpa' & Hgo & Hl & _ & Hi & _).
  cbv zeta in Hgs, Hpa', Hgo, Hl, Hi.
  split.
  - rewrite Hpa', Hpa. discriminate.
  - unfold oneClock in *. rewrite phase_update, Hi, Hl.
    destruct (Game.checkCollisions (Game.advance rnd g)).
    + unfold Game.clearInterval; simpl.
      destruct (Game.phase g); try (rewrite Hc; destruct (Game.loop g); reflexivity).
      destruct Hc as (h & Hh & Hiv). rewrite Hh, Hiv. apply remove_single.
    + exact Hc.
Qed.

Lemma tidy_handle (e : Game.Event) (g : Game.t num) :
  tidy g ->
  (e = Game.KeyDown KeyR -> Game.paused (Game.state g) = false) ->
  tidy (Game.handle e g).
Proof.
  intros T Hr.
  destruct e as [code| |h rnd].
  - destruct T as [Hp Hc].
    destruct g as [[gs go sc pa] fc ps b lp iv nh sub].
    unfold tidy, oneClock, Game.phase in *. simpl in *.
    destruct code; simpl; unfold Game.togglePause; simpl.
    + destruct gs, go, pa; simpl in *;
        try (specialize (Hp eq_refl); discriminate);
        (split; [first [discriminate | intros _; reflexivity | assumption]|]);
        first [ assumption | subst iv; eexists; split; reflexivity ].
    + destruct gs, go, pa; simpl in *;
        try (specialize (Hp eq_refl); discriminate);
        (split; [first [discriminate | intros _; reflexivity | assumption]|]);
        first [ assumption
              | subst iv; eexists; split; reflexivity
              | destruct Hc as (h & Hh & Hiv); subst; apply remove_single ].
    + specialize (Hr eq_refl). subst pa. split; [discriminate|].
      destruct gs, go; simpl in *;
        try (rewrite Hc; destruct lp; reflexivity).
      destruct Hc as (h & Hh & Hiv). subst. apply remove_single.
    + split; assumption.
  - destruct T as [Hp Hc].
    destruct g as [[gs go sc pa] fc ps b lp iv nh sub].
    unfold tidy, oneClock, Game.phase in *. simpl in *.
    unfold Game.onClick; simpl.
    destruct gs, go, pa; simpl in *;
        try (specialize (Hp eq_refl); discriminate);
        (split; [first [discriminate | intros _; reflexivity | assumption]|]);
        first [ assumption | subst iv; eexists; split; reflexivity ].
  - destruct (timer_cases h rnd g) as [E | (_ & Hpa & E)]; rewrite E.
    + exact T.
    + apply tidy_update; assumption.
Qed.

(* A click on a button is the handler of the button, which the R key or
   the P key runs as well, followed by a click. *)
Lemma perform_button (i : Input) (g : Game.t num) :
  perform i g =
  match i with
  | Happens e => Game.handle e g
  | RestartButton =>
      Game.handle Game.Click (Game.handle (Game.KeyDown KeyR) g)
  | PauseButton =>
      Game.handle Game.Click (Game.handle (Game.KeyDown KeyP) g)
  end.
Proof. destruct i; reflexivity. Qed.

Lemma tidy_perform (i : Input) (g : Game.t num) :
  tidy g ->
  (restarts i = true -> Game.paused (Game.state g) = false) ->
  tidy (perform i g).
Proof.
  intros T Hr. rewrite perform_button.
  destruct i as [e| |].
  - apply tidy_handle; [exact T|]. intro Heq. subst e. apply Hr. reflexivity.
  - apply tidy_handle; [|discriminate].
    apply tidy_handle; [exact T|]. intros _. apply Hr. reflexivity.
  - apply tidy_handle; [|discriminate].
    apply tidy_handle; [exact T|]. discriminate.
Qed.

Lemma tidy_play (ins : list Input) : forall g : Game.t num,
  tidy g -> restartsUnpaused ins g = true -> tidy (play ins g).
Proof.
  induction ins as [|i rest IH]; intros g T Hd; [exact T|].
  change (play (i :: rest) g) with (play rest (perform i g)).
  simpl in Hd. apply andb_true_iff in Hd. destruct Hd as [Hi Hrest].
  apply IH; [|exact Hrest].
  apply tidy_perform; [exact T|].
  intro Hres. rewrite Hres in Hi. apply negb_true_iff in Hi. exact Hi.
Qed.

(* With one clock, a game that is over reacts to nothing but R. *)
Lemma over_frozen (e : Game.Event) (g : Game.t num) :
  Game.phase g = Over -> Game.intervals g = [] ->
  e <> Game.KeyDown KeyR -> Game.handle e g = g.
Proof.
  intros Ho Hi Hne. apply phase_Over in Ho.
  destruct g as [[gs go sc pa] fc ps b lp iv nh sub]. simpl in Ho, Hi.
  subst go iv.
  destruct e as [[| | |]| |h rnd]; try congruence; simpl.
  - destruct gs; reflexivity.
  - unfold Game.togglePause. simpl. rewrite andb_false_r. reflexivity.
  - reflexivity.
  - unfold Game.onClick; simpl. destruct gs; reflexivity.
  - reflexivity.
Qed.

(* The same for the buttons: nothing but the R key and the Restart button
   moves a game that is over. *)
Lemma over_frozen_input (i : Input) (g : Game.t num) :
  Game.phase g = Over -> Game.intervals g = [] ->
  restarts i = false -> perform i g = g.
Proof.
  intros Ho Hi Hne. rewrite perform_button.
  destruct i as [e| |]; try discriminate.
  - apply over_frozen; try assumption. intro Heq. subst e. discriminate.
  - rewrite (over_frozen (Game.KeyDown KeyP) g Ho Hi) by discriminate.
    apply over_frozen; try assumption. discriminate.
Qed.
End Clock.

Lemma keys_keep_posts {num : Type} {ops : JsNumber num}
  (e : Game.Event) (g : Game.t num) :
  (forall h rnd, e <> Game.Timer h rnd) ->
  Game.submitted (Game.handle e g) = Game.submitted g.
Proof.
  intro Hk.
  destruct g as [[gs go sc pa] fc ps b lp iv nh sub].
  destruct e as [[| | |]| |h rnd]; simpl;
    unfold Game.togglePause, Game.onClick; simpl;
    try (destruct gs, go, pa; reflexivity).
  exfalso. apply (Hk h rnd). reflexivity.
Qed.

Lemma buttons_keep_posts {num : Type} {ops : JsNumber num}
  (i : Input) (g : Game.t num) :
  (forall h rnd, i <> Happens (Game.Timer h rnd)) ->
  Game.submitted (perform i g) = Game.submitted g.
Proof.
  intro Hk. rewrite perform_button.
  destruct i as [e| |].
  - apply keys_keep_posts. intros h rnd Heq. subst e. apply (Hk h rnd).
    reflexivity.
  - rewrite keys_keep_posts by discriminate.
    apply keys_keep_posts. discriminate.
  - rewrite keys_keep_posts by discriminate.
    apply keys_keep_posts. discriminate.
Qed.

(** X2. The state machine as the handlers implement it.  R leads to Idle
    from every state.  P turns Running into Paused and Paused into Running
    and changes no other state.  The Space key and a click turn Idle into
    Running (into Paused when the pause flag was left set) and change no
    other state.  Any other key changes nothing at all.  A timer firing
    keeps the state, or ends the game; it ends it only when the timer is
    live, the pause flag is not set and the collision test after the tick
    is true. *)
Theorem phase_transitions :
  forall (num : Type) (ops : JsNumber num) (e : Game.Event) (g : Game.t num),
    let p := Game.phase g in
    let p' := Game.phase (Game.handle e g) in
    match e with
    | Game.KeyDown KeyR => p' = Idle
    | Game.KeyDown KeyP =>
        p' = match p with Running => Paused | Paused => Running | s => s end
    | Game.KeyDown Space | Game.Click =>
        p' = match p with
             | Idle => if Game.paused (Game.state g) then Paused else Running
             | s => s
             end
    | Game.KeyDown OtherKey => Game.handle e g = g
    | Game.Timer h rnd =>
        p' = p \/
        (p' = Over /\ In h (Game.intervals g) /\
         Game.paused (Game.state g) = false /\
         Game.checkCollisions (Game.advance rnd g) = true)
    end.
Proof.
  intros num ops e g p p'. subst p p'.
  destruct e as [[| | |]| |h rnd].
  - destruct g as [[gs go sc pa] fc ps b lp iv nh sub].
    destruct gs, go, pa; reflexivity.
  - destruct g as [[gs go sc pa] fc ps b lp iv nh sub].
    destruct gs, go, pa; reflexivity.
  - apply restart_phase.
  - reflexivity.
  - destruct g as [[gs go sc pa] fc ps b lp iv nh sub].
    destruct gs, go, pa; reflexivity.
  - destruct (timer_cases h rnd g) as [E | (Hin & Hpa & E)]; rewrite E.
    + left. reflexivity.
    + rewrite phase_update.
      destruct (Game.checkCollisions (Game.advance rnd g)).
      * right. repeat split; assumption.
      * left. reflexivity.
Qed.

(** X3. In a run of the mounted component (keys, clicks, timer firings
    and clicks on the Restart and Pause buttons) in which [restart] is
    never run while the pause flag is set, neither by the R key nor by the
    Restart button, there is one clock.  In the Running state exactly one
    timer is live and [loop] holds its handle; in every other state no
    timer is live, so a timer firing changes nothing; the pause flag is
    set only in the Paused state; and unmounting leaves no timer behind. *)
Theorem one_clock_without_restart_in_pause :
  forall (num : Type) (ops : JsNumber num) (ins : list Input),
    restartsUnpaused ins Game.mounted = true ->
    let g := play ins Game.mounted in
    (Game.phase g = Running ->
     exists h, Game.loop g = Some h /\ Game.intervals g = [h]) /\
    (Game.phase g <> Running ->
     Game.intervals g = [] /\
     forall h rnd, Game.handle (Game.Timer h rnd) g = g) /\
    (Game.paused (Game.state g) = true -> Game.phase g = Paused) /\
    Game.intervals (componentWillUnmount g) = [].
Proof.
  intros num ops ins Hd g.
  destruct (tidy_play ins Game.mounted tidy_mounted Hd) as [Hp Hc].
  fold g in Hp, Hc. unfold oneClock in Hc.
  split; [|split; [|split]].
  - intro Hr. rewrite Hr in Hc. exact Hc.
  - intro Hn.
    assert (Hi : Game.intervals g = [])
      by (destruct (Game.phase g); try exact Hc; congruence).
    split; [exact Hi|]. intros h rnd. simpl. rewrite Hi. reflexivity.
  - exact Hp.
  - unfold componentWillUnmount, Game.clearInterval. simpl.
    destruct (Game.phase g);
      try (rewrite Hc; destruct (Game.loop g); reflexivity).
    destruct Hc as (h & Hh & Hiv). rewrite Hh, Hiv. apply remove_single.
Qed.

(** A run with both buttons, a pause, a resume and restarts outside the
    pause. *)
Lemma one_clock_without_restart_in_pause_witness :
  let g := play busy (@Game.mounted float F64) in
  (Game.phase g = Running ->
   exists h, Game.loop g = Some h /\ Game.intervals g = [h]) /\
  (Game.phase g <> Running ->
   Game.intervals g = [] /\
   forall h rnd, Game.handle (Game.Timer h rnd) g = g) /\
  (Game.paused (Game.state g) = true -> Game.phase g = Paused) /\
  Game.intervals (componentWillUnmount g) = [].
Proof.
  refine (one_clock_without_restart_in_pause float F64 busy _).
  vm_compute. reflexivity.
Defined.

(** The condition on the run is needed, for the button as for the key:
    after start, pause, a click on the Restart button and resume, the game
    is Running on two live timers. *)
Lemma restart_button_in_pause_leaves_two_timers :
  restartsUnpaused restartInPause (@Game.mounted float F64) = false /\
  Game.phase (play restartInPause Game.mounted) = Running /\
  Game.intervals (play restartInPause (@Game.mounted float F64))
    = [3%positive; 2%positive].
Proof. repeat split; vm_compute; reflexivity. Qed.

(** X4. In a run of the mounted component (keys, clicks, timer firings
    and clicks on the Restart and Pause buttons) in which [restart] is
    never run while the pause flag is set, whatever comes next either
    leaves the list of posted scores as it is, or it is the tick that ends
    a Running game, and this tick posts exactly one score: the score of
    the state it leaves.  Once the game is Over, everything but the R key
    and the Restart button leaves the whole component as it is, so nothing
    more is posted before a restart. *)
Theorem score_posted_once_per_game_over :
  forall (num : Type) (ops : JsNumber num) (ins : list Input),
    restartsUnpaused ins Game.mounted = true ->
    let g := play ins Game.mounted in
    forall i : Input,
      let g' := perform i g in
      (Game.submitted g' = Game.submitted g \/
       (Game.phase g = Running /\ Game.phase g' = Over /\
        Game.submitted g' = Game.score (Game.state g') :: Game.submitted g)) /\
      (Game.phase g = Over -> restarts i = false -> g' = g).
Proof.
  intros num ops ins Hd g i g'.
  destruct (tidy_play ins Game.mounted tidy_mounted Hd) as [Hp Hc].
  fold g in Hp, Hc. unfold oneClock in Hc.
  split.
  - destruct i as [[code| |h rnd]| |];
      try (left; apply buttons_keep_posts; discriminate).
    unfold g'. cbn [perform].
    destruct (timer_cases h rnd g) as [E | (Hin & Hpa & E)]; rewrite E.
    + left. reflexivity.
    + destruct (update_effects rnd g) as (_ & _ & _ & _ & _ & _ & Hs).
      cbv zeta in Hs. rewrite Hs, phase_update.
      destruct (Game.checkCollisions (Game.advance rnd g));
        [|left; reflexivity].
      right. split; [|split; reflexivity].
      destruct (Game.phase g); try reflexivity;
        rewrite Hc in Hin; destruct Hin.
  - intros Ho Hne. apply over_frozen_input; try assumption.
    rewrite Ho in Hc. exact Hc.
Qed.

(** The tick on which the bird of a game without a second jump falls
    through the floor. *)
Lemma score_posted_once_per_game_over_witness :
  let g := play untilTheFloor (@Game.mounted float F64) in
  let g' := perform (Happens (Game.Timer 1 0.5%float)) g in
  (Game.submitted g' = Game.submitted g \/
   (Game.phase g = Running /\ Game.phase g' = Over /\
    Game.submitted g' = Game.score (Game.state g') :: Game.submitted g)) /\
  (Game.phase g = Over ->
   restarts (Happens (Game.Timer 1 0.5%float)) = false -> g' = g).
Proof.
  refine (score_posted_once_per_game_over float F64 untilTheFloor _
            (Happens (Game.Timer 1 0.5%float))).
  vm_compute. reflexivity.
Defined.

(** ** Collisions are noticed at once *)

Section Clear.
Context {num : Type} {ops : JsNumber num}.
Hypothesis start_clear : Game.checkCollisions (@Game.mounted num ops) = false.

Lemma noticed_handle (e : Game.Event) (g : Game.t num) :
  (Game.checkCollisions g = true -> Game.gameOver (Game.state g) = true) ->
  Game.checkCollisions (Game.handle e g) = true ->
  Game.gameOver (Game.state (Game.handle e g)) = true.
Proof.
  intros IH.
  destruct e as [code| |h rnd].
  - destruct code.
    + assert (E : Game.checkCollisions (Game.handle (Game.KeyDown Space) g)
                  = Game.checkCollisions g /\
                  Game.gameOver (Game.state (Game.handle (Game.KeyDown Space) g))
                  = Game.gameOver (Game.state g)).
      { destruct g as [[gs go sc pa] fc ps b lp iv nh sub].
        destruct gs, go, pa; split; reflexivity. }
      destruct E as [E1 E2]. rewrite E1, E2. exact IH.
    + assert (E : Game.checkCollisions (Game.handle (Game.KeyDown KeyP) g)
                  = Game.checkCollisions g /\
                  Game.gameOver (Game.state (Game.handle (Game.KeyDown KeyP) g))
                  = Game.gameOver (Game.state g)).
      { destruct g as [[gs go sc pa] fc ps b lp iv nh sub].
        destruct gs, go, pa; split; reflexivity. }
      destruct E as [E1 E2]. rewrite E1, E2. exact IH.
    + change (Game.checkCollisions (Game.handle (Game.KeyDown KeyR) g))
        with (Game.checkCollisions (@Game.mounted num ops)).
      rewrite start_clear. discriminate.
    + exact IH.
  - assert (E : Game.checkCollisions (Game.handle Game.Click g)
                = Game.checkCollisions g /\
                Game.gameOver (Game.state (Game.handle Game.Click g))
                = Game.gameOver (Game.state g)).
    { destruct g as [[gs go sc pa] fc ps b lp iv nh sub].
      destruct gs, go, pa; split; reflexivity. }
    destruct E as [E1 E2]. rewrite E1, E2. exact IH.
  - destruct (timer_cases h rnd g) as [E | (_ & _ & E)]; rewrite E;
      [exact IH|].
    unfold Game.update.
    destruct (Game.checkCollisions (Game.advance rnd g)) eqn:Hhit.
    + intros _. reflexivity.
    + rewrite Hhit. discriminate.
Qed.

Lemma noticed_run (es : list Game.Event) :
  let g := Game.run es (@Game.mounted num ops) in
  Game.checkCollisions g = true -> Game.gameOver (Game.state g) = true.
Proof.
  assert (H : forall g : Game.t num, reachable g ->
             Game.checkCollisions g = true ->
             Game.gameOver (Game.state g) = true).
  { induction 1 as [|e g _ IH].
    - rewrite start_clear. discriminate.
    - apply noticed_handle. exact IH. }
  apply H. apply reachable_run. constructor.
Qed.
End Clear.

(** X5. In every state that the mounted component reaches, if the
    collision test is true then the game is over.  So while [gameOver] is
    false the bird is within the bounds and overlaps no pipe: a collision
    is noticed on the tick that causes it.  This holds in binary64 and in
    exact arithmetic. *)
Theorem no_collision_goes_unnoticed :
  (forall es : list (@Game.Event float),
     let g := Game.run es Game.mounted in
     Game.checkCollisions g = true -> Game.gameOver (Game.state g) = true) /\
  (forall es : list (@Game.Event Q),
     let g := Game.run es Game.mounted in
     Game.checkCollisions g = true -> Game.gameOver (Game.state g) = true).
Proof.
  split; intros es.
  - apply noticed_run. vm_compute. reflexivity.
  - apply noticed_run. vm_compute. reflexivity.
Qed.

(** The game whose bird has fallen through the floor is over. *)
Lemma no_collision_goes_unnoticed_witness :
  Game.gameOver (Game.state (Game.run fallen Game.mounted)) = true.
Proof.
  refine (proj1 no_collision_goes_unnoticed fallen _).
  vm_compute. reflexivity.
Defined.

(** ** The pipes on the screen: the arithmetic of the ages *)

Section AgeArith.
Local Open Scope N_scope.

Lemma next_tick (n : N) :
  let q := n / 240 in let r := n mod 240 in
  (r = 239 /\ (n + 1) / 240 = q + 1 /\ (n + 1) mod 240 = 0) \/
  (r < 239 /\ (n + 1) / 240 = q /\ (n + 1) mod 240 = r + 1).
Proof.
  cbv zeta.
  pose proof (N.div_mod n 240 ltac:(lia)) as Hdm.
  pose proof (N.mod_lt n 240 ltac:(lia)) as Hlt.
  destruct (N.eq_dec (n mod 240) 239) as [E | E].
  - left. split; [exact E|].
    assert (H : n + 1 = 240 * (n / 240 + 1) + 0) by lia.
    split; [symmetry; apply (N.div_unique _ _ _ 0); lia
           | symmetry; apply (N.mod_unique _ _ (n / 240 + 1)); lia].
  - right. split; [lia|].
    split; [symmetry; apply (N.div_unique _ _ _ (n mod 240 + 1)); lia
           | symmetry; apply (N.mod_unique _ _ (n / 240)); lia].
Qed.

Ltac split_leb :=
  repeat match goal with
  | |- context [(?a <=? ?b)] => destruct (N.leb_spec a b)
  | |- context [(?a =? ?b)] => destruct (N.eqb_spec a b)
  end.

Lemma ages_step (n : N) :
  ages (n + 1) = filter onScreen (map N.succ (ages n ++ spawnAges n)).
Proof.
  unfold ages, spawnAges.
  pose proof (N.mod_lt n 240 ltac:(lia)) as Hlt.
  destruct (next_tick n) as [(Hr & Hq' & Hr') | (Hr & Hq' & Hr')];
    rewrite Hq', Hr'; clear Hq' Hr';
    set (q := n / 240) in *; set (r := n mod 240) in *; clearbody q r.
  - subst r. change (0 =? 0) with true. cbv iota.
    change (239 <=? 92) with false. rewrite andb_false_r.
    change (0 <=? 92) with true. rewrite andb_true_r.
    unfold onScreen.
    destruct (N.leb_spec 3 (q + 1)), (N.leb_spec 2 (q + 1)),
      (N.leb_spec 1 (q + 1)), (N.leb_spec 2 q),
      (N.leb_spec 1 q); try (exfalso; lia); reflexivity.
  - assert (Hz : (r + 1 =? 0) = false) by (apply N.eqb_neq; lia).
    rewrite Hz, app_nil_r.
    unfold onScreen.
    destruct (N.leb_spec 3 q), (N.leb_spec 2 q),
      (N.leb_spec 1 q), (N.leb_spec r 92),
      (N.leb_spec (r + 1) 92); try (exfalso; lia);
      cbn [andb app map filter];
      split_leb; try (exfalso; lia);
      repeat (f_equal; try lia).
Qed.

Lemma score_step (n : N) :
  scoreAt (n + 1) =
  scoreAt n
  + N.of_nat (length (filter (N.eqb 473) (ages n ++ spawnAges n))).
Proof.
  unfold scoreAt, ages, spawnAges.
  pose proof (N.mod_lt n 240 ltac:(lia)) as Hlt.
  pose proof (N.div_mod n 240 ltac:(lia)) as Hdm.
  pose proof (N.div_mod (n + 7) 240 ltac:(lia)) as Hdm7.
  pose proof (N.mod_lt (n + 7) 240 ltac:(lia)) as Hlt7.
  replace (n + 1 + 7) with (n + 7 + 1) by lia.
  destruct (next_tick (n + 7)) as [(Hr & Hq' & Hr') | (Hr & Hq' & Hr')];
    rewrite Hq'; clear Hq' Hr'.
  - (* n + 8 is a multiple of 240: n mod 240 = 232 *)
    assert (Hm : n mod 240 = 232)
      by (symmetry; apply (N.mod_unique _ _ ((n + 7) / 240)); lia).
    assert (Hq : n / 240 = (n + 7) / 240)
      by (symmetry; apply (N.div_unique _ _ _ 232); lia).
    assert (Hz : ((n + 1) mod 240 =? 0) = false).
    { apply N.eqb_neq.
      rewrite <- (N.mod_unique (n + 1) 240 ((n + 7) / 240) 233); lia. }
    rewrite Hm, Hq, Hz, app_nil_r.
    set (q := (n + 7) / 240) in *. clearbody q.
    destruct (N.leb_spec 3 q), (N.leb_spec 2 q),
      (N.leb_spec 1 q); try (exfalso; lia);
      cbn; lia.
  - assert (Hne : n mod 240 <> 232).
    { intro E.
      assert ((n + 7) mod 240 = 239); [|lia].
      symmetry. apply (N.mod_unique _ _ (n / 240)); lia. }
    set (q := n / 240) in *. set (r := n mod 240) in *.
    set (z := (n + 1) mod 240 =? 0).
    assert (Hnone : length (filter (N.eqb 473)
              (((if (3 <=? q) && (r <=? 92) then [r + 481] else []) ++
                (if 2 <=? q then [r + 241] else []) ++
                (if 1 <=? q then [r + 1] else [])) ++
               (if z then [0] else []))) = 0%nat).
    { clearbody q r z.
      destruct ((3 <=? q) && (r <=? 92)), (2 <=? q),
        (1 <=? q), z;
        cbn [andb app map filter negb length];
        split_leb; try (exfalso; lia); reflexivity. }
    rewrite Hnone. simpl. lia.
Qed.

Lemma length_ages (n : N) : (length (ages n) <= 3)%nat.
Proof.
  unfold ages.
  destruct (_ && _), (2 <=? _), (1 <=? _); simpl; lia.
Qed.

Lemma ages_range (n k : N) : In k (ages n) -> 1 <= k <= 573.
Proof.
  unfold ages.
  pose proof (N.mod_lt n 240 ltac:(lia)) as Hlt.
  set (q := n / 240). set (r := n mod 240) in *. clearbody q r.
  intro Hin.
  repeat (apply in_app_or in Hin; destruct Hin as [Hin | Hin]).
  - destruct (N.leb_spec 3 q), (N.leb_spec r 92); cbn in Hin;
      try contradiction; destruct Hin as [<- | []]; lia.
  - destruct (N.leb_spec 2 q); cbn in Hin;
      try contradiction; destruct Hin as [<- | []]; lia.
  - destruct (N.leb_spec 1 q); cbn in Hin;
      try contradiction; destruct Hin as [<- | []]; lia.
Qed.

Lemma ages_beside (n k : N) :
  In k (ages n) -> 430 <= k <= 477 ->
  669 <= n /\ 189 <= n mod 240 <= 236.
Proof.
  unfold ages.
  pose proof (N.mod_lt n 240 ltac:(lia)) as Hlt.
  pose proof (N.div_mod n 240 ltac:(lia)) as Hdm.
  set (q := n / 240) in *. set (r := n mod 240) in *. clearbody q r.
  intros Hin Hk.
  repeat (apply in_app_or in Hin; destruct Hin as [Hin | Hin]).
  - destruct (N.leb_spec 3 q), (N.leb_spec r 92); cbn in Hin;
      try contradiction; destruct Hin as [<- | []]; lia.
  - destruct (N.leb_spec 2 q); cbn in Hin;
      try contradiction; destruct Hin as [<- | []]; lia.
  - destruct (N.leb_spec 1 q); cbn in Hin;
      try contradiction; destruct Hin as [<- | []]; lia.
Qed.
End AgeArith.

(** ** The pipes on the screen: one tick *)

Section Fleet.
Context {num : Type} {ops : JsNumber num}.
Local Open Scope js_scope.
Hypothesis table : @gridTable num ops = true.

(* What is known of the two pipes of a pair beyond their place, and of
   the draws: a pair made from a good draw is in order, and being in
   order depends on the heights and the vertical positions only. *)
Variable pairOk : Pipe.t num -> Pipe.t num -> Prop.
Variable okDraw : num -> Prop.
Hypothesis pairOk_new : forall (rnd : num) (g : Game.t num) upper lower,
  okDraw rnd -> Game.generatePipes rnd g = [upper; lower] ->
  pairOk upper lower.
Hypothesis pairOk_moved : forall u l u' l' : Pipe.t num,
  Pipe.y u' = Pipe.y u -> Pipe.height u' = Pipe.height u ->
  Pipe.y l' = Pipe.y l -> Pipe.height l' = Pipe.height l ->
  pairOk u l -> pairOk u' l'.

Lemma xAfter_succ (k : N) : xAfter (k + 1) = xAfter k - lit 1.5.
Proof. unfold xAfter. rewrite N.add_1_r, N.iter_succ. reflexivity. Qed.

Lemma gridRows_row (n : nat) : forall k j : N,
  gridRows n k (xAfter k) = true ->
  (k < j <= k + N.of_nat n)%N -> gridRow j = true.
Proof.
  induction n as [|m IH]; intros k j Hrows Hj; [lia|].
  cbn [gridRows] in Hrows. rewrite <- xAfter_succ in Hrows.
  apply andb_true_iff in Hrows. destruct Hrows as [Hrow Hrest].
  destruct (N.eq_dec j (k + 1)) as [-> | Hne]; [exact Hrow|].
  apply (IH (k + 1)%N j Hrest). lia.
Qed.

Lemma grid_entries (k : N) : (1 <= k <= 574)%N ->
  (xAfter k + PIPE_WIDTH <? lit 0) = (574 <=? k)%N /\
  (xAfter k + PIPE_WIDTH <? lit 150) = (474 <=? k)%N /\
  besideBird (xAfter k) = ((430 <=? k)%N && (k <=? 477)%N).
Proof.
  intro Hk.
  assert (H : gridRow k = true) by (apply (gridRows_row 574 0 k table); lia).
  unfold gridRow, gridEntry in H.
  apply andb_true_iff in H. destruct H as [H H3].
  apply andb_true_iff in H. destruct H as [H1 H2].
  apply eqb_prop in H1, H2, H3. repeat split; assumption.
Qed.

(* One pipe through the body of the forEach. *)
Lemma visit_occupies (k : N) (b : bool) (p : Pipe.t num) :
  occupies k b p ->
  let p' := fst (Game.visitPipe (lit 150) 0 p) in
  Pipe.isDead p' = negb (onScreen (N.succ k)) /\
  (onScreen (N.succ k) = true -> occupies (N.succ k) b p') /\
  scoresNow (lit 150) p = negb b && (473 =? k)%N /\
  Pipe.y p' = Pipe.y p /\ Pipe.height p' = Pipe.height p.
Proof.
  intros (Hk & Hx & Hb & Hs & Hd & Hw) p'.
  unfold occupies, onScreen. rewrite <- N.add_1_r.
  destruct (grid_entries (k + 1) ltac:(lia)) as (Hdead & Hpass & _).
  assert (Hnow : scoresNow (lit 150) p = negb b && (473 =? k)%N).
  { unfold scoresNow. rewrite Hs, Hb, Hx, <- xAfter_succ, Hpass.
    destruct b; cbn [negb andb]; [rewrite andb_false_r; reflexivity|].
    rewrite andb_true_r.
    destruct (N.leb_spec 474 k), (N.leb_spec 474 (k + 1)),
      (N.eqb_spec 473 k); try (exfalso; lia); reflexivity. }
  assert (Hx' : Pipe.x p' = xAfter (k + 1)).
  { unfold p'. rewrite visitPipe_scoresNow.
    destruct (scoresNow _ _); cbn; rewrite Hx, xAfter_succ; reflexivity. }
  assert (Hd' : Pipe.isDead p' = negb (k + 1 <=? 573)%N).
  { unfold p'. rewrite visitPipe_scoresNow.
    assert (Hu : Pipe.isDead (Pipe.update p) = negb (k + 1 <=? 573)%N).
    { cbn. rewrite Hx, <- xAfter_succ, Hd, Hdead.
      destruct (N.leb_spec 574 (k + 1)), (N.leb_spec (k + 1) 573);
        try (exfalso; lia); reflexivity. }
    destruct (scoresNow _ _); exact Hu. }
  assert (Hrest : Pipe.isBottom p' = b /\ Pipe.width p' = PIPE_WIDTH /\
                  Pipe.scored p' = (scoresNow (lit 150) p || Pipe.scored p) /\
                  Pipe.y p' = Pipe.y p /\ Pipe.height p' = Pipe.height p).
  { unfold p'. rewrite visitPipe_scoresNow.
    destruct (scoresNow _ _); cbn; repeat split; assumption. }
  destruct Hrest as (Hb' & Hw' & Hs' & Hy' & Hh').
  split; [exact Hd'|]. split; [|split; [exact Hnow|split; assumption]].
  intro Hon. apply N.leb_le in Hon.
  split; [exact Hon|]. split; [exact Hx'|].
  split; [exact Hb'|]. split; [|split; [|exact Hw']].
  - rewrite Hs', Hnow, Hs.
    destruct b; cbn [negb andb orb]; [reflexivity|].
    destruct (N.leb_spec 474 k), (N.leb_spec 474 (k + 1)),
      (N.eqb_spec 473 k); try (exfalso; lia); reflexivity.
  - rewrite Hd'. apply negb_false_iff. apply N.leb_le. exact Hon.
Qed.

(* The whole forEach and the filter that follows it. *)
Lemma forEach_formation (ks : list N) (ps : list (Pipe.t num)) :
  formation pairOk ks ps ->
  formation pairOk (filter onScreen (map N.succ ks))
    (filter (fun pipe => negb (Pipe.isDead pipe))
       (map (fun pipe => fst (Game.visitPipe (lit 150) 0 pipe)) ps)) /\
  length (filter (scoresNow (lit 150)) ps) = length (filter (N.eqb 473) ks).
Proof.
  induction 1 as [|k u l ks ps Hu Hl Hok _ [IH1 IH2]]; [split; constructor|].
  destruct (visit_occupies k false u Hu) as (Hdu & Hou & Hnu & Hyu & Hhu).
  destruct (visit_occupies k true l Hl) as (Hdl & Hol & Hnl & Hyl & Hhl).
  cbn [map filter]. rewrite Hdu, Hdl, Hnu, Hnl, negb_involutive.
  cbn [negb andb].
  split.
  - destruct (onScreen (N.succ k)); [|exact IH1].
    constructor;
      [apply Hou; reflexivity | apply Hol; reflexivity | | exact IH1].
    apply (pairOk_moved u l); assumption.
  - destruct (473 =? k)%N; cbn [length]; rewrite IH2; reflexivity.
Qed.

Lemma formation_app (ks1 ks2 : list N) (ps1 ps2 : list (Pipe.t num)) :
  formation pairOk ks1 ps1 -> formation pairOk ks2 ps2 ->
  formation pairOk (ks1 ++ ks2) (ps1 ++ ps2).
Proof.
  induction 1 as [|k u l ks ps Hu Hl Hok _ IH]; intro H2; [exact H2|].
  cbn [app]. constructor; try assumption. apply IH. exact H2.
Qed.

Lemma spawn_formation (rnd : num) (g : Game.t num) :
  okDraw rnd ->
  formation pairOk (ages (Game.frameCount g)) (Game.pipes g) ->
  formation pairOk (ages (Game.frameCount g) ++ spawnAges (Game.frameCount g))
    (Game.spawnStep rnd g).
Proof.
  intros Hrnd H. unfold Game.spawnStep, spawnAges.
  destruct (_ =? 0)%N; [|rewrite !app_nil_r; exact H].
  apply formation_app; [exact H|].
  pose proof (pairOk_new rnd g _ _ Hrnd eq_refl) as Hok.
  unfold Game.generatePipes in *.
  constructor; [| |exact Hok|constructor];
    unfold occupies; (split; [lia|]); repeat split; reflexivity.
Qed.

Lemma inFormation_update (rnd : num) (g : Game.t num) :
  okDraw rnd -> Bird.x (Game.bird g) = lit 150 ->
  inFormation pairOk g -> inFormation pairOk (Game.update rnd g).
Proof.
  intros Hrnd Hbx [Hf Hs].
  destruct (update_fields rnd g) as (Hfc & _ & Hp & Hsc & _).
  destruct (advance_fields rnd g) as (Hafc & _ & Hap & Hasc & _).
  cbv zeta in Hfc, Hp, Hsc, Hafc, Hap, Hasc.
  rewrite Hbx in Hap, Hasc.
  destruct (forEach_formation _ _ (spawn_formation rnd g Hrnd Hf)) as [H1 H2].
  split.
  - rewrite Hfc, Hafc, Hp, Hap, ages_step. exact H1.
  - rewrite Hsc, Hasc, Hfc, Hafc, score_step, H2, Hs. reflexivity.
Qed.

Lemma keys_keep_pipes (e : Game.Event) (g : Game.t num) :
  (forall h rnd, e <> Game.Timer h rnd) -> e <> Game.KeyDown KeyR ->
  Game.frameCount (Game.handle e g) = Game.frameCount g /\
  Game.pipes (Game.handle e g) = Game.pipes g /\
  Game.score (Game.state (Game.handle e g)) = Game.score (Game.state g).
Proof.
  intros Hk Hr.
  destruct g as [[gs go sc pa] fc ps b lp iv nh sub].
  destruct e as [[| | |]| |h rnd]; simpl;
    unfold Game.togglePause, Game.onClick; simpl;
    try (destruct gs, go, pa; repeat split; reflexivity).
  - congruence.
  - exfalso. apply (Hk h rnd). reflexivity.
Qed.

Lemma inFormation_handle (e : Game.Event) (g : Game.t num) :
  drawsIn okDraw [e] ->
  Bird.x (Game.bird g) = lit 150 ->
  inFormation pairOk g -> inFormation pairOk (Game.handle e g).
Proof.
  intros Hd Hbx F.
  destruct e as [code| |h rnd].
  - assert (Hk : code = KeyR \/ code <> KeyR)
      by (destruct code; [right|right|left|right]; congruence).
    destruct Hk as [-> | Hne].
    + split; [constructor | reflexivity].
    + destruct (keys_keep_pipes (Game.KeyDown code) g) as (A & B & C);
        [discriminate | congruence |].
      unfold inFormation. rewrite A, B, C. exact F.
  - destruct (keys_keep_pipes Game.Click g
                ltac:(discriminate) ltac:(discriminate)) as (A & B & C).
    unfold inFormation. rewrite A, B, C. exact F.
  - destruct (timer_cases h rnd g) as [E | (_ & _ & E)]; rewrite E.
    + exact F.
    + apply inFormation_update; try assumption.
      unfold drawsIn in Hd. apply Forall_inv in Hd. exact Hd.
Qed.

Lemma inFormation_run (es : list Game.Event) :
  drawsIn okDraw es ->
  inFormation pairOk (Game.run es (@Game.mounted num ops)).
Proof.
  assert (H : forall (es : list Game.Event) (g : Game.t num),
             drawsIn okDraw es -> reachable g -> inFormation pairOk g ->
             inFormation pairOk (Game.run es g)).
  { clear es. induction es as [|e rest IH]; intros g Hd Hg F; [exact F|].
    change (Game.run (e :: rest) g) with (Game.run rest (Game.handle e g)).
    unfold drawsIn in Hd. apply Forall_cons_iff in Hd.
    destruct Hd as [He Hrest].
    apply IH; [exact Hrest | constructor; exact Hg |].
    apply inFormation_handle; [constructor; [exact He | constructor] | | exact F].
    apply reachable_wellFormed in Hg. destruct Hg as [Hx _]. exact Hx. }
  intro Hd. apply H; [exact Hd | constructor |].
  split; [constructor | reflexivity].
Qed.
End Fleet.

Lemma table_f64 : @gridTable float F64 = true.
Proof. vm_compute. reflexivity. Qed.

Lemma table_exact : @gridTable Q Exact = true.
Proof. vm_compute. reflexivity. Qed.

(* No condition on the draws, nothing said of the heights. *)
Lemma drawsIn_any {num : Type} (es : list (@Game.Event num)) :
  drawsIn (fun _ => True) es.
Proof.
  unfold drawsIn. apply Forall_forall. intros e _. destruct e; exact I.
Qed.

Lemma formation_plain {num : Type} {ops : JsNumber num} :
  @gridTable num ops = true ->
  forall es : list Game.Event,
    inFormation (fun _ _ => True) (Game.run es (@Game.mounted num ops)).
Proof.
  intros table es.
  apply (inFormation_run table (fun _ _ => True) (fun _ => True)).
  - intros. exact I.
  - intros. exact I.
  - apply drawsIn_any.
Qed.

(** ** The pipes on the screen: every reachable state *)

Lemma gridClosed_row (n : nat) : forall k j : N,
  gridClosed n k (xAfter k) = true ->
  (k < j <= k + N.of_nat n)%N ->
  @xAfter float F64 j = (800 - 1.5 * f64_of_Z (Z.of_N j))%float /\
  PrimFloat.leb (-59.5)%float (xAfter j) = true /\
  PrimFloat.leb (xAfter j) 798.5%float = true.
Proof.
  induction n as [|m IH]; intros k j Hrows Hj; [lia|].
  cbn [gridClosed] in Hrows. rewrite <- xAfter_succ in Hrows.
  apply andb_true_iff in Hrows. destruct Hrows as [Hrow Hrest].
  destruct (N.eq_dec j (k + 1)) as [-> | Hne].
  - apply andb_true_iff in Hrow. destruct Hrow as [Hrow H3].
    apply andb_true_iff in Hrow. destruct Hrow as [H1 H2].
    apply FloatAxioms.Leibniz.eqb_spec in H1.
    repeat split; assumption.
  - apply (IH (k + 1)%N j Hrest). lia.
Qed.

Lemma closed_f64 : gridClosed 573 0 (@xAfter float F64 0) = true.
Proof. vm_compute. reflexivity. Qed.

Section FormationFacts.
Context {num : Type} {ops : JsNumber num}.
Variable pairOk : Pipe.t num -> Pipe.t num -> Prop.

Lemma formation_length (ks : list N) (ps : list (Pipe.t num)) :
  formation pairOk ks ps -> length ps = (2 * length ks)%nat.
Proof.
  induction 1 as [|k u l ks ps _ _ _ _ IH]; [reflexivity|].
  cbn [length]. rewrite IH. lia.
Qed.

Lemma formation_In (ks : list N) (ps : list (Pipe.t num)) (p : Pipe.t num) :
  formation pairOk ks ps -> In p ps ->
  exists k b, In k ks /\ occupies k b p.
Proof.
  induction 1 as [|k u l ks ps Hu Hl _ _ IH]; intro Hin; [destruct Hin|].
  destruct Hin as [<- | [<- | Hin]].
  - exists k, false. split; [left; reflexivity | exact Hu].
  - exists k, true. split; [left; reflexivity | exact Hl].
  - destruct (IH Hin) as (k' & b & Hk & Ho). exists k', b.
    split; [right; exact Hk | exact Ho].
Qed.

Lemma formation_unpair (ks : list N) (ps : list (Pipe.t num)) :
  formation pairOk ks ps ->
  exists prs,
    ps = unpair prs /\
    Forall (fun pr =>
              Pipe.isBottom (fst pr) = false /\
              Pipe.isBottom (snd pr) = true /\
              Pipe.x (snd pr) = Pipe.x (fst pr) /\
              pairOk (fst pr) (snd pr)) prs.
Proof.
  induction 1 as [|k u l ks ps Hu Hl Hok _ (prs & Hps & Hall)].
  - exists []. split; [reflexivity | constructor].
  - exists ((u, l) :: prs). split; [cbn; rewrite Hps; reflexivity|].
    constructor; [|exact Hall]. cbn [fst snd].
    destruct Hu as (_ & Hxu & Hbu & _). destruct Hl as (_ & Hxl & Hbl & _).
    repeat split; try assumption. rewrite Hxu, Hxl. reflexivity.
Qed.
End FormationFacts.

(** X6. The pipes in the list follow from the tick counter n, up to
    their heights.  With n = 240 q + r and r < 240, the list holds, in this
    order, the pair that has moved r + 481 times (if q >= 3 and r <= 92),
    the pair that has moved r + 241 times (if q >= 2) and the pair that has
    moved r + 1 times (if q >= 1), each as an upper pipe followed by a
    lower pipe.  A pipe that has moved k times is at x = 800 - 1.5 - ... -
    1.5 (k subtractions), has width 60, is not dead, and is marked scored
    exactly when it is an upper pipe and k >= 474.  This holds in every
    state the mounted component reaches, in binary64 and in exact
    arithmetic. *)
Theorem pipes_follow_the_tick_counter :
  (forall es : list (@Game.Event float),
     let g := Game.run es Game.mounted in
     formation (fun _ _ => True) (ages (Game.frameCount g)) (Game.pipes g)) /\
  (forall es : list (@Game.Event Q),
     let g := Game.run es Game.mounted in
     formation (fun _ _ => True) (ages (Game.frameCount g)) (Game.pipes g)).
Proof.
  split; intros es g.
  - exact (proj1 (formation_plain table_f64 es)).
  - exact (proj1 (formation_plain table_exact es)).
Qed.

(** X7. The list of pipes never holds more than six pipes (three
    pairs), whatever the events are, in binary64 and in exact
    arithmetic. *)
Theorem at_most_six_pipes :
  (forall es : list (@Game.Event float),
     (length (Game.pipes (Game.run es Game.mounted)) <= 6)%nat) /\
  (forall es : list (@Game.Event Q),
     (length (Game.pipes (Game.run es Game.mounted)) <= 6)%nat).
Proof.
  split; intros es.
  - destruct (formation_plain table_f64 es) as [H _].
    apply formation_length in H. rewrite H.
    pose proof (length_ages (Game.frameCount (Game.run es Game.mounted))).
    lia.
  - destruct (formation_plain table_exact es) as [H _].
    apply formation_length in H. rewrite H.
    pose proof (length_ages (Game.frameCount (Game.run es Game.mounted))).
    lia.
Qed.

(** X8. The score is a function of the tick counter: it is
    (n + 7) div 240 - 2, cut off at 0.  The first point is made on tick
    713 and one more on every 240th tick after it; a restart sets both
    back to 0.  In binary64 and in exact arithmetic. *)
Theorem score_follows_the_tick_counter :
  (forall es : list (@Game.Event float),
     let g := Game.run es Game.mounted in
     Game.score (Game.state g) = ((Game.frameCount g + 7) / 240 - 2)%N) /\
  (forall es : list (@Game.Event Q),
     let g := Game.run es Game.mounted in
     Game.score (Game.state g) = ((Game.frameCount g + 7) / 240 - 2)%N).
Proof.
  split; intros es g.
  - exact (proj2 (formation_plain table_f64 es)).
  - exact (proj2 (formation_plain table_exact es)).
Qed.

(** X9. In binary64, every pipe in the list of a state that the
    mounted component reaches is not dead and sits at x = 800 - 1.5 k for
    some k from 1 to 573, computed without rounding error; its x lies
    between -59.5 and 798.5. *)
Theorem pipes_stay_on_the_grid :
  forall (es : list (@Game.Event float)) (p : Pipe.t float),
    In p (Game.pipes (Game.run es Game.mounted)) ->
    Pipe.isDead p = false /\
    (-59.5 <=? Pipe.x p)%float = true /\
    (Pipe.x p <=? 798.5)%float = true /\
    exists k : Z,
      (1 <= k <= 573)%Z /\ Pipe.x p = (800 - 1.5 * f64_of_Z k)%float.
Proof.
  intros es p Hin.
  destruct (formation_plain table_f64 es) as [H _].
  destruct (formation_In _ _ _ _ H Hin) as (k & b & Hk & Hocc).
  apply ages_range in Hk.
  destruct Hocc as (_ & Hx & _ & _ & Hd & _).
  destruct (gridClosed_row 573 0 k closed_f64 ltac:(lia))
    as (Hc & Hlo & Hhi).
  rewrite Hx. split; [exact Hd|]. split; [exact Hlo|]. split; [exact Hhi|].
  exists (Z.of_N k). split; [lia | exact Hc].
Qed.

(** The upper pipe of the first pair, on the tick that made it. *)
Lemma pipes_stay_on_the_grid_witness :
  let p := Pipe.update (Pipe.new 125%float false) in
  Pipe.isDead p = false /\
  (-59.5 <=? Pipe.x p)%float = true /\
  (Pipe.x p <=? 798.5)%float = true /\
  exists k : Z,
    (1 <= k <= 573)%Z /\ Pipe.x p = (800 - 1.5 * f64_of_Z k)%float.
Proof.
  refine (pipes_stay_on_the_grid toFirstPair
            (Pipe.update (Pipe.new 125%float false)) _).
  vm_compute. left. reflexivity.
Defined.

Section Window.
Context {num : Type} {ops : JsNumber num}.
Hypothesis table : @gridTable num ops = true.

Lemma hitsPipe_besideBird (g : Game.t num) (p : Pipe.t num) :
  wellFormed g -> Pipe.width p = PIPE_WIDTH ->
  Game.hitsPipe (Bird.getBounds (Game.bird g)) p = true ->
  besideBird (Pipe.x p) = true.
Proof.
  intros (Hx & _ & Hr & _) Hw Hhit.
  unfold Game.hitsPipe, Bird.getBounds, Pipe.getBounds in Hhit.
  cbn [left right top bottom] in Hhit. rewrite Hx, Hr, Hw in Hhit.
  apply andb_true_iff in Hhit. destruct Hhit as [Hhit _].
  apply andb_true_iff in Hhit. destruct Hhit as [Hhit _].
  exact Hhit.
Qed.

Lemma hit_window (es : list Game.Event) (p : Pipe.t num) :
  let g := Game.run es (@Game.mounted num ops) in
  In p (Game.pipes g) ->
  Game.hitsPipe (Bird.getBounds (Game.bird g)) p = true ->
  (669 <= Game.frameCount g)%N /\
  (189 <= Game.frameCount g mod 240 <= 236)%N.
Proof.
  intros g Hin Hhit.
  assert (W : wellFormed g)
    by (apply reachable_wellFormed, reachable_run; constructor).
  destruct (formation_plain table es) as [H _]. fold g in H.
  destruct (formation_In _ _ _ _ H Hin) as (k & b & Hk & Hocc).
  pose proof (ages_range _ _ Hk) as Hage.
  destruct Hocc as (_ & Hx & _ & _ & _ & Hw).
  pose proof (hitsPipe_besideBird g p W Hw Hhit) as Hb.
  rewrite Hx in Hb.
  destruct (grid_entries table k ltac:(lia)) as (_ & _ & Hbe).
  rewrite Hbe in Hb. apply andb_true_iff in Hb. destruct Hb as [H1 H2].
  apply N.leb_le in H1, H2.
  apply (ages_beside _ k Hk). lia.
Qed.

Lemma currentGap_formation (es : list Game.Event) :
  let g := Game.run es (@Game.mounted num ops) in
  Game.currentGap g =
  if (Game.frameCount g <? 1193)%N then (PIPE_GAP + lit 50)%js else PIPE_GAP.
Proof.
  intro g. destruct (formation_plain table es) as [_ Hs]. fold g in Hs.
  unfold Game.currentGap. rewrite Hs. unfold scoreAt.
  set (n := Game.frameCount g). clearbody n.
  pose proof (N.div_mod (n + 7) 240 ltac:(lia)) as Hdm.
  pose proof (N.mod_lt (n + 7) 240 ltac:(lia)) as Hlt.
  set (q := ((n + 7) / 240)%N) in *. set (r := ((n + 7) mod 240)%N) in *.
  clearbody q r.
  destruct (N.ltb_spec (q - 2) 3), (N.ltb_spec n 1193);
    try (exfalso; lia); reflexivity.
Qed.
End Window.

(** X10. A pipe of the list can overlap the bird only while it is
    beside it: if [hitsPipe] is true for a pipe of a reachable state, the
    tick counter n is at least 669 and n mod 240 lies between 189 and 236.
    On all other ticks only the upper and lower bounds can end the game.
    In binary64 and in exact arithmetic. *)
Theorem pipes_are_hit_only_beside_the_bird :
  (forall (es : list (@Game.Event float)) (p : Pipe.t float),
     let g := Game.run es Game.mounted in
     In p (Game.pipes g) ->
     Game.hitsPipe (Bird.getBounds (Game.bird g)) p = true ->
     (669 <= Game.frameCount g)%N /\
     (189 <= Game.frameCount g mod 240 <= 236)%N) /\
  (forall (es : list (@Game.Event Q)) (p : Pipe.t Q),
     let g := Game.run es Game.mounted in
     In p (Game.pipes g) ->
     Game.hitsPipe (Bird.getBounds (Game.bird g)) p = true ->
     (669 <= Game.frameCount g)%N /\
     (189 <= Game.frameCount g mod 240 <= 236)%N).
Proof.
  split; intros es p.
  - exact (hit_window table_f64 es p).
  - exact (hit_window table_exact es p).
Qed.

(** The bird that climbs into the upper pipe of the first pair hits it on
    tick 679. *)
Lemma pipes_are_hit_only_beside_the_bird_witness :
  let g := Game.run intoThePipe (@Game.mounted float F64) in
  (669 <= Game.frameCount g)%N /\
  (189 <= Game.frameCount g mod 240 <= 236)%N.
Proof.
  refine (proj1 pipes_are_hit_only_beside_the_bird intoThePipe
            (Nat.iter 440 Pipe.update (Pipe.new 125%float false)) _ _).
  - vm_compute. left. reflexivity.
  - vm_compute. reflexivity.
Defined.

(** X11. The gap that [generatePipes] would use in a reachable state
    is 250 while the tick counter is below 1193 and 200 from then on: the
    pairs made on ticks 240, 480, 720 and 960 get the wide gap, all later
    ones the gap of 200. *)
Theorem first_four_pairs_get_the_wide_gap :
  (forall es : list (@Game.Event float),
     let g := Game.run es Game.mounted in
     Game.currentGap g =
       (if (Game.frameCount g <? 1193)%N then 250 else 200)%float) /\
  (forall es : list (@Game.Event Q),
     let g := Game.run es Game.mounted in
     Game.currentGap g =
       if (Game.frameCount g <? 1193)%N then (200 + 50)%Q else 200%Q).
Proof.
  split; intros es g.
  - unfold g. rewrite (currentGap_formation table_f64 es).
    destruct (_ <? _)%N; vm_compute; reflexivity.
  - unfold g. rewrite (currentGap_formation table_exact es).
    destruct (_ <? _)%N; reflexivity.
Qed.

Lemma pairOk64_new (rnd : float) (g : Game.t float) (upper lower : Pipe.t float) :
  PrimFloat.leb 0%float rnd && PrimFloat.ltb rnd 1%float = true ->
  Game.generatePipes rnd g = [upper; lower] -> pairOk64 upper lower.
Proof.
  intros Hrnd Hgen. apply andb_true_iff in Hrnd. destruct Hrnd as [H0 H1].
  destruct (f64_pair_heights rnd g H0 H1) as (Ht & Hb & Hsum).
  cbv zeta in Ht, Hb, Hsum.
  assert (H30 : @MIN_PIPE_HEIGHT float F64 = 30%float)
    by (vm_compute; reflexivity).
  assert (H500 : @HEIGHT float F64 = 500%float) by (vm_compute; reflexivity).
  unfold Game.generatePipes in Hgen.
  injection Hgen as Hu Hl. subst upper lower.
  unfold pairOk64. cbn [Pipe.new Pipe.y Pipe.height].
  rewrite H30 in *. rewrite H500 in *.
  split; [vm_compute; reflexivity|]. split; [reflexivity|].
  split; [exact Ht|]. split; [exact Hb|].
  destruct (currentGap_cases g) as [[_ E] | [_ E]]; rewrite E in Hsum.
  - left. replace 250%float with (@PIPE_GAP float F64 + lit 50)%js
      by (vm_compute; reflexivity).
    rewrite <- E in Hsum |- *. exact Hsum.
  - right. replace 200%float with (@PIPE_GAP float F64)
      by (vm_compute; reflexivity).
    rewrite <- E in Hsum |- *. exact Hsum.
Qed.

Lemma pairOk64_moved (u l u' l' : Pipe.t float) :
  Pipe.y u' = Pipe.y u -> Pipe.height u' = Pipe.height u ->
  Pipe.y l' = Pipe.y l -> Pipe.height l' = Pipe.height l ->
  pairOk64 u l -> pairOk64 u' l'.
Proof.
  intros A B C D H. unfold pairOk64. rewrite A, B, C, D. exact H.
Qed.

(** X12. In binary64, when every draw of Math.random() lies in [0, 1),
    the list of pipes of every reachable state is a sequence of pairs, an
    upper pipe followed by a lower pipe at the same x.  The upper pipe
    starts at y = 0, the lower one at y = 500 - height, both are at least
    30 high, and the two heights and a gap of 250 or of 200 add up to 500
    exactly. *)
Theorem pairs_on_screen_fill_the_height :
  forall es : list (@Game.Event float),
    forallb unitDraw es = true ->
    exists prs : list (Pipe.t float * Pipe.t float),
      Game.pipes (Game.run es Game.mounted) = unpair prs /\
      Forall (fun pr =>
                Pipe.isBottom (fst pr) = false /\
                Pipe.isBottom (snd pr) = true /\
                Pipe.x (snd pr) = Pipe.x (fst pr) /\
                pairOk64 (fst pr) (snd pr)) prs.
Proof.
  intros es Hd.
  assert (Hdraws : drawsIn
            (fun rnd => PrimFloat.leb 0%float rnd && PrimFloat.ltb rnd 1%float
                        = true) es).
  { unfold drawsIn. apply Forall_forall. intros e He.
    rewrite forallb_forall in Hd. specialize (Hd e He).
    destruct e; [exact I | exact I | exact Hd]. }
  destruct (inFormation_run table_f64 pairOk64 _ pairOk64_new pairOk64_moved
              es Hdraws) as [H _].
  exact (formation_unpair pairOk64 _ _ H).
Qed.

(** After 520 ticks of a played game. *)
Lemma pairs_on_screen_fill_the_height_witness :
  exists prs : list (Pipe.t float * Pipe.t float),
    Game.pipes (Game.run toSecondPair Game.mounted) = unpair prs /\
    Forall (fun pr =>
              Pipe.isBottom (fst pr) = false /\
              Pipe.isBottom (snd pr) = true /\
              Pipe.x (snd pr) = Pipe.x (fst pr) /\
              pairOk64 (fst pr) (snd pr)) prs.
Proof.
  refine (pairs_on_screen_fill_the_height toSecondPair _).
  vm_compute. reflexivity.
Defined.

(** ** Rounding in binary64: sums, differences and comparisons of signed
    values

    An addition or a subtraction of two finite floats returns the float
    nearest to the exact result: its value is off by half a unit of the
    last place at most, and it stays between any two multiples of 1/64
    that enclose the exact result.  The comparisons of finite floats are
    the comparisons of their values. *)

Section Signed.
Local Open Scope Z_scope.

Lemma round_aux_sign (m e : Z) (l : location) :
  binary_round_aux prec emax true m e l
  = SFopp (binary_round_aux prec emax false m e l).
Proof.
  unfold binary_round_aux.
  destruct (shr_fexp prec emax m e l) as [mrs' e'].
  destruct (shr_fexp prec emax _ e' loc_Exact) as [mrs'' e''].
  destruct (shr_m mrs'') as [|p|p]; try reflexivity.
  destruct (e'' <=? emax - prec); reflexivity.
Qed.

Lemma round_sign (p : positive) (e : Z) :
  binary_round prec emax true p e = SFopp (binary_round prec emax false p e).
Proof.
  unfold binary_round.
  destruct (shl_align p e _) as [mz ez]. apply round_aux_sign.
Qed.

Lemma zv_opp (x : spec_float) : zv (SFopp x) = - zv x.
Proof.
  destruct x as [s|s| |s m e]; try reflexivity.
  destruct s; simpl; lia.
Qed.

Lemma fin_opp (x : spec_float) : fin (SFopp x) = fin x.
Proof. destruct x; reflexivity. Qed.

(* What the normalisation that ends an addition or a subtraction returns
   for the integer M at the exponent e: a finite float whose value is a
   multiple of some 2^g nearest to M * 2^e. *)
Lemma normalize_zv (M e : Z) :
  -1074 <= e ->
  Z.abs (M * 2 ^ (e + 1074)) < 2 ^ 1087 ->
  let V := M * 2 ^ (e + 1074) in
  let r := binary_normalize prec emax M e false in
  fin r = true /\
  exists X g, 0 <= g <= 1034 /\ zv r = X * 2 ^ g /\
              - 2 ^ g <= 2 * (X * 2 ^ g - V) <= 2 ^ g.
Proof.
  intros He Hov V r.
  assert (HP : 0 < 2 ^ (e + 1074)) by (apply Z.pow_pos_nonneg; lia).
  assert (Hpos : forall P : Z, 0 < P ->
            Z.abs (P * 2 ^ (e + 1074)) < 2 ^ 1087 ->
            let W := P * 2 ^ (e + 1074) in
            let s := binary_normalize prec emax P e false in
            fin s = true /\
            exists X g, 0 <= g <= 1034 /\ zv s = X * 2 ^ g /\
                        - 2 ^ g <= 2 * (X * 2 ^ g - W) <= 2 ^ g).
  { intros P HPp HPov W s.
    assert (HW : 0 < W) by (unfold W; nia).
    assert (HlW : Z.log2 W < 1087).
    { apply Z.log2_lt_pow2; [exact HW|]. unfold W. lia. }
    pose proof HlW as HlP. unfold W in HlP.
    rewrite Z.log2_mul_pow2 in HlP by lia.
    unfold s. rewrite normalize_spec by lia.
    rewrite (normalized_fl 1074) by lia. fold W.
    set (g := Z.max (Z.log2 W - 52) (1074 - 1074)).
    assert (Hg : 0 <= g <= 1034) by (unfold g; lia).
    destruct (sv_fl 1074 W HW) as [Hsv _]; [lia|]. fold g in Hsv.
    destruct (fl_cases 1074 W HW) as [[Hz _] | (m & e1 & Hf & _ & _)];
      [lia| |].
    - rewrite Hz in *. split; [reflexivity|].
      exists (rne W g), g. split; [exact Hg|].
      split; [simpl in Hsv |- *; exact Hsv|].
      apply rne_nearest. lia.
    - rewrite Hf in *. split; [reflexivity|].
      exists (rne W g), g. split; [exact Hg|].
      split; [exact Hsv|]. apply rne_nearest. lia. }
  destruct M as [|p|p].
  - split; [reflexivity|]. exists 0, 0. unfold V. change (2 ^ 0) with 1.
    simpl zv. lia.
  - apply Hpos; [lia | exact Hov].
  - unfold r. simpl binary_normalize. rewrite round_sign.
    rewrite fin_opp, zv_opp.
    assert (Hov' : Z.abs (Z.pos p * 2 ^ (e + 1074)) < 2 ^ 1087).
    { replace (Z.pos p * 2 ^ (e + 1074)) with (- (Z.neg p * 2 ^ (e + 1074)))
        by lia.
      rewrite Z.abs_opp. exact Hov. }
    destruct (Hpos (Z.pos p) ltac:(lia) Hov') as (Hf & X & g & Hg & Hz & Hn).
    cbv zeta in Hf, Hz, Hn. simpl binary_normalize in Hf, Hz.
    split; [exact Hf|].
    exists (- X), g. split; [exact Hg|]. rewrite Hz.
    split; [ring|]. unfold V.
    replace (Z.neg p * 2 ^ (e + 1074)) with (- (Z.pos p * 2 ^ (e + 1074)))
      by lia.
    replace (- X * 2 ^ g) with (- (X * 2 ^ g)) by ring.
    lia.
Qed.

Lemma valid_exponent (s : bool) (m : positive) (e : Z) :
  valid_binary (S754_finite s m e) = true ->
  -1074 <= e /\ Z.pos m < 2 ^ 53 /\ (-1074 < e -> 2 ^ 52 <= Z.pos m).
Proof. intro Hv. apply valid_bounds. exact Hv. Qed.

Lemma cond_Zopp_mul (s : bool) (a b : Z) :
  cond_Zopp s a * b = cond_Zopp s (a * b).
Proof. destruct s; simpl; lia. Qed.

(* The aligned sum or difference has the value of the sum or difference. *)
Lemma aligned_value (s : bool) (m : positive) (e ez : Z) :
  -1074 <= ez -> ez <= e ->
  cond_Zopp s (Z.pos (fst (shl_align m e ez))) * 2 ^ (ez + 1074)
  = zv (S754_finite s m e).
Proof.
  intros Hz Hle. rewrite shl_align_fst by exact Hle.
  rewrite cond_Zopp_mul. unfold zv. f_equal.
  rewrite <- Z.mul_assoc, <- Z.pow_add_r by lia. do 2 f_equal. lia.
Qed.

Lemma rounds_exact (V : Z) : rounds V V.
Proof. exists V, 0. change (2 ^ 0) with 1. lia. Qed.

(* The sum of two finite floats. *)
Lemma add_rounds (a b : float) :
  finite a = true -> finite b = true ->
  Z.abs (val a + val b) < 2 ^ 1087 ->
  finite (a + b) = true /\ rounds (val (a + b)) (val a + val b).
Proof.
  unfold finite, val. rewrite FloatAxioms.add_spec.
  pose proof (Prim2SF_valid a) as Va. pose proof (Prim2SF_valid b) as Vb.
  destruct (Prim2SF a) as [sa|sa| |sa ma ea]; try discriminate;
    destruct (Prim2SF b) as [sb|sb| |sb mb eb]; try discriminate;
    intros _ _ Hov.
  - destruct sa, sb; split; try reflexivity; apply rounds_exact.
  - split; [reflexivity|]. apply rounds_exact.
  - split; [reflexivity|]. simpl zv at 3. rewrite Z.add_0_r.
    apply rounds_exact.
  - destruct (valid_exponent _ _ _ Va) as (Ha & _).
    destruct (valid_exponent _ _ _ Vb) as (Hb & _).
    unfold SF64add, SFadd. cbv zeta.
    set (ez := Z.min ea eb).
    set (M := cond_Zopp sa (Z.pos (fst (shl_align ma ea ez)))
              + cond_Zopp sb (Z.pos (fst (shl_align mb eb ez)))).
    assert (HV : M * 2 ^ (ez + 1074)
                 = zv (S754_finite sa ma ea) + zv (S754_finite sb mb eb)).
    { unfold M. rewrite Z.mul_add_distr_r.
      rewrite !aligned_value by (unfold ez; lia). reflexivity. }
    rewrite <- HV in Hov |- *.
    destruct (normalize_zv M ez ltac:(unfold ez; lia) Hov) as [Hf Hr].
    split; [exact Hf | exact Hr].
Qed.

(* The difference of two finite floats. *)
Lemma sub_rounds (a b : float) :
  finite a = true -> finite b = true ->
  Z.abs (val a - val b) < 2 ^ 1087 ->
  finite (a - b) = true /\ rounds (val (a - b)) (val a - val b).
Proof.
  unfold finite, val. rewrite FloatAxioms.sub_spec.
  pose proof (Prim2SF_valid a) as Va. pose proof (Prim2SF_valid b) as Vb.
  destruct (Prim2SF a) as [sa|sa| |sa ma ea]; try discriminate;
    destruct (Prim2SF b) as [sb|sb| |sb mb eb]; try discriminate;
    intros _ _ Hov.
  - destruct sa, sb; split; try reflexivity; apply rounds_exact.
  - split; [reflexivity|].
    replace (zv (S754_zero sa) - zv (S754_finite sb mb eb))
      with (zv (SF64sub (S754_zero sa) (S754_finite sb mb eb))).
    + apply rounds_exact.
    + simpl. destruct sb; simpl; lia.
  - split; [reflexivity|]. simpl zv at 3. rewrite Z.sub_0_r.
    apply rounds_exact.
  - destruct (valid_exponent _ _ _ Va) as (Ha & _).
    destruct (valid_exponent _ _ _ Vb) as (Hb & _).
    unfold SF64sub, SFsub. cbv zeta.
    set (ez := Z.min ea eb).
    set (M := cond_Zopp sa (Z.pos (fst (shl_align ma ea ez)))
              - cond_Zopp sb (Z.pos (fst (shl_align mb eb ez)))).
    assert (HV : M * 2 ^ (ez + 1074)
                 = zv (S754_finite sa ma ea) - zv (S754_finite sb mb eb)).
    { unfold M. rewrite Z.mul_sub_distr_r.
      rewrite !aligned_value by (unfold ez; lia). reflexivity. }
    rewrite <- HV in Hov |- *.
    destruct (normalize_zv M ez ltac:(unfold ez; lia) Hov) as [Hf Hr].
    split; [exact Hf | exact Hr].
Qed.

Lemma u64_pos : 0 < u64.
Proof. reflexivity. Qed.

Lemma ulp_pos : 0 < ulp.
Proof. reflexivity. Qed.

Lemma u64_ulp : u64 = 2 ^ 35 * ulp.
Proof. reflexivity. Qed.

Lemma pow2_1087 : 2 ^ 1087 = 2 ^ 19 * u64.
Proof. reflexivity. Qed.

(* A rounding stays between two multiples of 1/64 that enclose the
   value. *)
Lemma rounds_between (r V A B : Z) :
  rounds r V -> A * u64 <= V <= B * u64 -> A * u64 <= r <= B * u64.
Proof.
  intros (X & g & Hg & -> & Hn) HV.
  assert (Hu : u64 = 2 ^ (1068 - g) * 2 ^ g).
  { rewrite <- Z.pow_add_r by lia. unfold u64. f_equal. lia. }
  assert (HP : 0 < 2 ^ g) by (apply Z.pow_pos_nonneg; lia).
  set (P := 2 ^ g) in *. set (K := 2 ^ (1068 - g)) in *.
  rewrite Hu in HV |- *. clearbody P K.
  rewrite !Z.mul_assoc in *.
  split.
  - apply Z.mul_le_mono_nonneg_r; [lia|]. nia.
  - apply Z.mul_le_mono_nonneg_r; [lia|]. nia.
Qed.

(* A rounding of a value below 8192 is off by 2^-41 at most. *)
Lemma rounds_error (r V : Z) :
  rounds r V -> - ulp <= r - V <= ulp.
Proof.
  intros (X & g & Hg & -> & Hn).
  assert (2 ^ g <= 2 ^ 1034) by (apply Z.pow_le_mono_r; lia).
  change (2 ^ 1034) with (2 * ulp) in H. lia.
Qed.

Lemma add_between (a b : float) (A B : Z) :
  finite a = true -> finite b = true ->
  - 2 ^ 18 <= A -> B <= 2 ^ 18 ->
  A * u64 <= val a + val b <= B * u64 ->
  finite (a + b) = true /\ A * u64 <= val (a + b) <= B * u64.
Proof.
  intros Fa Fb HA HB HV.
  pose proof u64_pos as Hu.
  destruct (add_rounds a b Fa Fb) as [Hf Hr].
  { rewrite pow2_1087. apply Z.abs_lt. nia. }
  split; [exact Hf|]. apply (rounds_between _ _ _ _ Hr HV).
Qed.

Lemma sub_between (a b : float) (A B : Z) :
  finite a = true -> finite b = true ->
  - 2 ^ 18 <= A -> B <= 2 ^ 18 ->
  A * u64 <= val a - val b <= B * u64 ->
  finite (a - b) = true /\ A * u64 <= val (a - b) <= B * u64.
Proof.
  intros Fa Fb HA HB HV.
  pose proof u64_pos as Hu.
  destruct (sub_rounds a b Fa Fb) as [Hf Hr].
  { rewrite pow2_1087. apply Z.abs_lt. nia. }
  split; [exact Hf|]. apply (rounds_between _ _ _ _ Hr HV).
Qed.

(* One addition or subtraction with a result below 8192 is off by 2^-41
   at most. *)
Lemma add_error (a b : float) :
  finite a = true -> finite b = true ->
  - (2 ^ 19 * u64) < val a + val b < 2 ^ 19 * u64 ->
  finite (a + b) = true /\
  - ulp <= val (a + b) - (val a + val b) <= ulp.
Proof.
  intros Fa Fb HV.
  destruct (add_rounds a b Fa Fb) as [Hf Hr].
  { rewrite pow2_1087. apply Z.abs_lt. exact HV. }
  split; [exact Hf|]. apply rounds_error. exact Hr.
Qed.

Lemma sub_error (a b : float) :
  finite a = true -> finite b = true ->
  - (2 ^ 19 * u64) < val a - val b < 2 ^ 19 * u64 ->
  finite (a - b) = true /\
  - ulp <= val (a - b) - (val a - val b) <= ulp.
Proof.
  intros Fa Fb HV.
  destruct (sub_rounds a b Fa Fb) as [Hf Hr].
  { rewrite pow2_1087. apply Z.abs_lt. exact HV. }
  split; [exact Hf|]. apply rounds_error. exact Hr.
Qed.

(* The order of two finite floats is the order of their values. *)
Lemma compare_zv (x y : spec_float) :
  valid_binary x = true -> valid_binary y = true ->
  fin x = true -> fin y = true ->
  SFcompare x y = Some (zv x ?= zv y).
Proof.
  intros Vx Vy Fx Fy.
  destruct x as [sx|sx| |sx mx ex]; try discriminate;
    destruct y as [sy|sy| |sy my ey]; try discriminate.
  - reflexivity.
  - destruct (valid_exponent _ _ _ Vy) as (He & _).
    assert (0 < Z.pos my * 2 ^ (ey + 1074))
      by (apply Z.mul_pos_pos; [lia | apply Z.pow_pos_nonneg; lia]).
    unfold SFcompare, zv. f_equal. destruct sy; unfold cond_Zopp; symmetry;
      [apply Z.compare_gt_iff | apply Z.compare_lt_iff]; lia.
  - destruct (valid_exponent _ _ _ Vx) as (He & _).
    assert (0 < Z.pos mx * 2 ^ (ex + 1074))
      by (apply Z.mul_pos_pos; [lia | apply Z.pow_pos_nonneg; lia]).
    unfold SFcompare, zv. f_equal. destruct sx; unfold cond_Zopp; symmetry;
      [apply Z.compare_lt_iff | apply Z.compare_gt_iff]; lia.
  - destruct (valid_exponent _ _ _ Vx) as (Hex & Hmx & Hnx).
    destruct (valid_exponent _ _ _ Vy) as (Hey & Hmy & Hny).
    assert (Hx : 0 < Z.pos mx * 2 ^ (ex + 1074))
      by (apply Z.mul_pos_pos; [lia | apply Z.pow_pos_nonneg; lia]).
    assert (Hy : 0 < Z.pos my * 2 ^ (ey + 1074))
      by (apply Z.mul_pos_pos; [lia | apply Z.pow_pos_nonneg; lia]).
    assert (Hlt : forall m1 e1 m2 e2,
              -1074 <= e1 -> e1 < e2 -> Z.pos m1 < 2 ^ 53 ->
              2 ^ 52 <= Z.pos m2 ->
              Z.pos m1 * 2 ^ (e1 + 1074) < Z.pos m2 * 2 ^ (e2 + 1074)).
    { intros m1 e1 m2 e2 H1 H12 Hm1 Hm2.
      replace (e2 + 1074) with ((e2 - e1 - 1) + (1 + (e1 + 1074))) by lia.
      rewrite (Z.pow_add_r 2 (e2 - e1 - 1)) by lia.
      rewrite (Z.pow_add_r 2 1) by lia.
      assert (0 < 2 ^ (e1 + 1074)) by (apply Z.pow_pos_nonneg; lia).
      assert (0 < 2 ^ (e2 - e1 - 1)) by (apply Z.pow_pos_nonneg; lia).
      change (2 ^ 1) with 2. change (2 ^ 53) with (2 * 2 ^ 52) in Hm1.
      set (P := 2 ^ (e1 + 1074)) in *. set (K := 2 ^ (e2 - e1 - 1)) in *.
      clearbody P K.
      apply Z.lt_le_trans with (2 * 2 ^ 52 * P); [nia|].
      apply Z.le_trans with (Z.pos m2 * (2 * P)); [nia|].
      apply Z.mul_le_mono_nonneg_l; [lia|]. nia. }
    unfold SFcompare. f_equal.
    change (Pos.compare_cont Eq mx my) with (Pos.compare mx my).
    destruct sx, sy; unfold zv, cond_Zopp.
    + destruct (Z.compare_spec ex ey) as [E|E|E].
      * subst ey. rewrite <- Pos.compare_antisym.
        change (Pos.compare my mx) with (Z.compare (Z.pos my) (Z.pos mx)).
        assert (HP : 0 < 2 ^ (ex + 1074)) by (apply Z.pow_pos_nonneg; lia).
        rewrite Z.compare_opp.
        symmetry.
        destruct (Z.compare_spec (Z.pos my) (Z.pos mx)) as [C|C|C].
        -- apply Z.compare_eq_iff. rewrite C. reflexivity.
        -- apply Z.compare_lt_iff. nia.
        -- apply Z.compare_gt_iff. nia.
      * symmetry. apply Z.compare_gt_iff.
        pose proof (Hlt mx ex my ey Hex E Hmx (Hny ltac:(lia))). lia.
      * symmetry. apply Z.compare_lt_iff.
        pose proof (Hlt my ey mx ex Hey E Hmy (Hnx ltac:(lia))). lia.
    + symmetry. apply Z.compare_lt_iff. lia.
    + symmetry. apply Z.compare_gt_iff. lia.
    + destruct (Z.compare_spec ex ey) as [E|E|E].
      * subst ey.
        change (Pos.compare mx my) with (Z.compare (Z.pos mx) (Z.pos my)).
        assert (HP : 0 < 2 ^ (ex + 1074)) by (apply Z.pow_pos_nonneg; lia).
        symmetry.
        destruct (Z.compare_spec (Z.pos mx) (Z.pos my)) as [C|C|C].
        -- apply Z.compare_eq_iff. rewrite C. reflexivity.
        -- apply Z.compare_lt_iff. nia.
        -- apply Z.compare_gt_iff. nia.
      * symmetry. apply Z.compare_lt_iff.
        apply Hlt; try assumption. apply Hny. lia.
      * symmetry. apply Z.compare_gt_iff.
        apply Hlt; try assumption. apply Hnx. lia.
Qed.

Lemma leb_val (a b : float) :
  finite a = true -> finite b = true ->
  PrimFloat.leb a b = (val a <=? val b).
Proof.
  intros Fa Fb. rewrite FloatAxioms.leb_spec. unfold SFleb.
  rewrite (compare_zv _ _ (Prim2SF_valid a) (Prim2SF_valid b) Fa Fb).
  unfold val, Z.leb. destruct (zv (Prim2SF a) ?= zv (Prim2SF b)); reflexivity.
Qed.

Lemma ltb_val (a b : float) :
  finite a = true -> finite b = true ->
  PrimFloat.ltb a b = (val a <? val b).
Proof.
  intros Fa Fb. rewrite FloatAxioms.ltb_spec. unfold SFltb.
  rewrite (compare_zv _ _ (Prim2SF_valid a) (Prim2SF_valid b) Fa Fb).
  unfold val, Z.ltb. destruct (zv (Prim2SF a) ?= zv (Prim2SF b)); reflexivity.
Qed.

(* A float between two finite floats is finite. *)
Lemma between_finite (a y b : float) :
  finite a = true -> finite b = true ->
  PrimFloat.leb a y = true -> PrimFloat.leb y b = true ->
  finite y = true /\ val a <= val y <= val b.
Proof.
  intros Fa Fb Hay Hyb.
  assert (Fy : finite y = true).
  { unfold finite in *.
    rewrite FloatAxioms.leb_spec in Hay, Hyb. unfold SFleb in Hay, Hyb.
    destruct (Prim2SF y) as [sy|sy| |sy my ey]; try reflexivity.
    - destruct sy.
      + destruct (Prim2SF a) as [sa|sa| |sa ma ea]; try discriminate.
      + destruct (Prim2SF b) as [sb|sb| |sb mb eb]; try discriminate.
    - destruct (Prim2SF a) as [sa|sa| |sa ma ea]; discriminate. }
  split; [exact Fy|].
  rewrite (leb_val _ _ Fa Fy) in Hay. rewrite (leb_val _ _ Fy Fb) in Hyb.
  apply Z.leb_le in Hay, Hyb. lia.
Qed.

End Signed.

(** ** The bird in free fall and after a jump *)

Lemma fall_fields {num : Type} {ops : JsNumber num} (n : nat) (b : Bird.t num) :
  Bird.x (Nat.iter n Bird.update b) = Bird.x b /\
  Bird.gravity (Nat.iter n Bird.update b) = Bird.gravity b /\
  Bird.radius (Nat.iter n Bird.update b) = Bird.radius b.
Proof.
  induction n as [|n (A & B & C)]; [repeat split|].
  rewrite Nat.iter_succ. destruct (Nat.iter n Bird.update b). cbn in *.
  repeat split; assumption.
Qed.

Lemma fall_closed (n : nat) (b : Bird.t Q) :
  let t := inject_Z (Z.of_nat n) in
  Bird.velocity (Nat.iter n Bird.update b)
    == Bird.velocity b + t * Bird.gravity b /\
  Bird.y (Nat.iter n Bird.update b)
    == Bird.y b + t * Bird.velocity b + t * (t + 1) / 2 * Bird.gravity b.
Proof.
  induction n as [|n [IHv IHy]].
  - cbn. split; field.
  - cbv zeta in *.
    destruct (fall_fields n b) as (_ & Hg & _).
    rewrite Nat2Z.inj_succ. unfold Z.succ. rewrite inject_Z_plus.
    rewrite Nat.iter_succ. destruct (Nat.iter n Bird.update b) as [bx by_ bg bv br].
    cbn [Bird.update Bird.velocity Bird.y Bird.gravity] in *.
    cbn [num_add Exact]. rewrite Hg, IHv, IHy.
    change (inject_Z 1) with 1.
    split; field.
Qed.

Lemma fall_exact (b : Bird.t Q) (n : nat) :
  let b' := Nat.iter n Bird.update b in
  let t := inject_Z (Z.of_nat n) in
  Bird.velocity b' == Bird.velocity b + t * Bird.gravity b /\
  Bird.y b' == Bird.y b + t * Bird.velocity b
               + t * (t + 1) / 2 * Bird.gravity b /\
  Bird.x b' = Bird.x b /\
  Bird.gravity b' = Bird.gravity b /\
  Bird.radius b' = Bird.radius b.
Proof.
  intros b' t.
  destruct (fall_closed n b) as [Hv Hy].
  destruct (fall_fields n b) as (Hx & Hg & Hr).
  repeat split; assumption.
Qed.

Lemma consecutive_product (z : Z) : (0 <= (z - 19) * (z - 20))%Z.
Proof.
  destruct (Z_le_gt_dec z 19).
  - apply Z.mul_nonpos_nonpos; lia.
  - apply Z.mul_nonneg_nonneg; lia.
Qed.

Lemma jump_exact (b : Bird.t Q) (n : nat) :
  Bird.gravity b == 0.4 ->
  let b' := Nat.iter n Bird.update (Bird.jump b) in
  Bird.y b - 76 <= Bird.y b' /\
  (n = 19%nat \/ n = 20%nat -> Bird.y b' == Bird.y b - 76) /\
  (n = 39%nat -> Bird.y b' == Bird.y b /\ Bird.velocity b' == 7.6) /\
  ((39 <= n)%nat -> Bird.y b <= Bird.y b').
Proof.
  intros Hg b'.
  destruct (fall_closed n (Bird.jump b)) as [Hv Hy].
  cbv zeta in Hv, Hy. fold b' in Hv, Hy.
  cbn [Bird.jump Bird.velocity Bird.y Bird.gravity lit Exact] in Hv, Hy.
  rewrite Hg in Hv, Hy.
  set (z := Z.of_nat n) in *.
  assert (Hy' : Bird.y b' - (Bird.y b - 76)
                == (2 # 10) * inject_Z ((z - 19) * (z - 20))).
  { rewrite Hy. rewrite inject_Z_mult. unfold Z.sub.
    rewrite !inject_Z_plus. change (inject_Z (- (19))) with (- (19))%Q.
    change (inject_Z (- (20))) with (- (20))%Q. field. }
  assert (Hy39 : Bird.y b' - Bird.y b
                 == (2 # 10) * inject_Z (z * (z - 39))).
  { rewrite Hy. rewrite inject_Z_mult. unfold Z.sub.
    rewrite !inject_Z_plus. change (inject_Z (- (39))) with (- (39))%Q.
    field. }
  split; [|split; [|split]].
  - pose proof (consecutive_product z) as Hp.
    assert (0 <= inject_Z ((z - 19) * (z - 20)))
      by (change 0 with (inject_Z 0); rewrite <- Zle_Qle; exact Hp).
    lra.
  - intros [-> | ->]; subst z.
    + change (inject_Z ((Z.of_nat 19 - 19) * (Z.of_nat 19 - 20))) with 0 in Hy'.
      lra.
    + change (inject_Z ((Z.of_nat 20 - 19) * (Z.of_nat 20 - 20))) with 0 in Hy'.
      lra.
  - intros ->. subst z.
    change (inject_Z (Z.of_nat 39 * (Z.of_nat 39 - 39))) with 0 in Hy39.
    change (inject_Z (Z.of_nat 39)) with 39 in Hv.
    split; lra.
  - intro Hn.
    assert (0 <= inject_Z (z * (z - 39))).
    { change 0 with (inject_Z 0). rewrite <- Zle_Qle.
      apply Z.mul_nonneg_nonneg; lia. }
    lra.
Qed.

Section Fall64.
Local Open Scope Z_scope.

(* The binary64 of 0.4 is a little more than 0.4. *)
Lemma gravity_tight :
  finite (@lit float F64 0.4) = true /\
  0 <= 5 * val (@lit float F64 0.4) - 128 * u64 <= ulp.
Proof.
  split; [vm_compute; reflexivity|].
  split; apply Z.leb_le; vm_compute; reflexivity.
Qed.

Lemma inFreeFall_start (b : Bird.t float) :
  Bird.gravity b = lit 0.4 ->
  finite (Bird.velocity b) = true -> finite (Bird.y b) = true ->
  inFreeFall (val (Bird.velocity b)) (val (Bird.y b)) 0 b.
Proof.
  intros Hg Fv Fy. unfold inFreeFall.
  split; [exact Hg|]. split; [exact Fv|]. split; [exact Fy|].
  change (Z.of_nat 0) with 0.
  set (G := val (@lit float F64 0.4)).
  set (V0 := val (Bird.velocity b)). set (Y0 := val (Bird.y b)).
  split.
  - replace (V0 - (V0 + 0 * G)) with 0 by ring.
    change (Z.abs 0) with 0. lia.
  - replace (2 * Y0 - (2 * Y0 + 2 * 0 * V0 + 0 * (0 + 1) * G)) with 0
      by ring.
    change (Z.abs 0) with 0. lia.
Qed.

Lemma inFreeFall_update (V0 Y0 : Z) (n : nat) (b : Bird.t float) :
  - 1024 * u64 <= V0 <= 1024 * u64 ->
  - 32000 * u64 <= Y0 <= 32000 * u64 -> (n < 100)%nat ->
  inFreeFall V0 Y0 n b -> inFreeFall V0 Y0 (S n) (Bird.update b).
Proof.
  intros HV HY Hn (Hg & Fv & Fy & Hv & Hy).
  cbv zeta in Hv, Hy.
  unfold inFreeFall. rewrite Nat2Z.inj_succ. unfold Z.succ.
  set (k := Z.of_nat n) in *.
  assert (Hk : 0 <= k < 100) by (unfold k; lia).
  destruct gravity_tight as [Fg HG].
  set (G := val (@lit float F64 0.4)) in *.
  pose proof u64_pos as Hu. pose proof ulp_pos as He.
  pose proof u64_ulp as Hue.
  assert (HG' : 25 * u64 <= G <= 26 * u64) by lia.
  assert (HkG : 0 <= k * G <= 2600 * u64) by nia.
  assert (HkkG : 0 <= k * k * G <= 260000 * u64) by nia.
  assert (HkV : - 102400 * u64 <= k * V0 <= 102400 * u64) by nia.
  assert (Hke : 0 <= k * ulp <= 100 * ulp) by nia.
  assert (Hkke : 0 <= k * k * ulp <= 10000 * ulp) by nia.
  destruct b as [bx by_ bg bv br].
  cbn [Bird.update Bird.velocity Bird.y Bird.gravity] in *. subst bg.
  cbn [num_add F64].
  destruct (add_error bv (lit 0.4) Fv Fg) as [Fv' Hv']; [fold G; lia|].
  fold G in Hv'.
  destruct (add_error by_ (bv + lit 0.4)%float Fy Fv') as [Fy' Hy']; [lia|].
  split; [reflexivity|]. split; [exact Fv'|]. split; [exact Fy'|].
  split; lia.
Qed.

Lemma inFreeFall_iter (b : Bird.t float) (n : nat) :
  Bird.gravity b = lit 0.4 ->
  finite (Bird.velocity b) = true -> finite (Bird.y b) = true ->
  - 1024 * u64 <= val (Bird.velocity b) <= 1024 * u64 ->
  - 32000 * u64 <= val (Bird.y b) <= 32000 * u64 -> (n <= 100)%nat ->
  inFreeFall (val (Bird.velocity b)) (val (Bird.y b)) n
    (Nat.iter n Bird.update b).
Proof.
  intros Hg Fv Fy HV HY. induction n as [|n IH]; intro Hn.
  - apply inFreeFall_start; assumption.
  - rewrite Nat.iter_succ.
    apply inFreeFall_update; [exact HV | exact HY | lia |].
    apply IH. lia.
Qed.

Lemma range_val :
  finite (-16)%float = true /\ val (-16)%float = - 1024 * u64 /\
  finite 16%float = true /\ val 16%float = 1024 * u64 /\
  finite 0%float = true /\ val 0%float = 0 /\
  finite 500%float = true /\ val 500%float = 32000 * u64.
Proof. repeat split; vm_compute; reflexivity. Qed.

Lemma fall_binary64 (b : Bird.t float) (n : nat) :
  Bird.gravity b = lit 0.4 ->
  PrimFloat.leb (-16) (Bird.velocity b) = true ->
  PrimFloat.leb (Bird.velocity b) 16 = true ->
  PrimFloat.leb 0 (Bird.y b) = true ->
  PrimFloat.leb (Bird.y b) 500 = true ->
  (n <= 100)%nat ->
  let b' := Nat.iter n Bird.update b in
  let k := Z.of_nat n in
  let G := val (@lit float F64 0.4) in
  finite (Bird.velocity b') = true /\ finite (Bird.y b') = true /\
  Z.abs (val (Bird.velocity b') - (val (Bird.velocity b) + k * G))
    <= k * ulp /\
  Z.abs (2 * val (Bird.y b')
         - (2 * val (Bird.y b) + 2 * k * val (Bird.velocity b)
            + k * (k + 1) * G))
    <= k * (k + 3) * ulp /\
  Bird.x b' = Bird.x b /\
  Bird.gravity b' = Bird.gravity b /\
  Bird.radius b' = Bird.radius b.
Proof.
  intros Hg Hv1 Hv2 Hy1 Hy2 Hn b' k G.
  destruct range_val as (Fm & Vm & F16 & V16 & F0 & V0 & F500 & V500).
  destruct (between_finite _ _ _ Fm F16 Hv1 Hv2) as [Fv HV].
  destruct (between_finite _ _ _ F0 F500 Hy1 Hy2) as [Fy HY].
  rewrite Vm, V16 in HV. rewrite V0, V500 in HY.
  pose proof u64_pos as Hu.
  destruct (inFreeFall_iter b n Hg Fv Fy HV ltac:(lia) Hn)
    as (_ & Fv' & Fy' & Hv' & Hy').
  destruct (fall_fields n b) as (Hx & Hg' & Hr).
  repeat split; assumption.
Qed.

(* The height after a jump, between the exact parabola and the
   roundings. *)
Lemma arc_height (Y0 : Z) (n : nat) (b : Bird.t float) :
  (n <= 100)%nat -> inFreeFall (- 512 * u64) Y0 n b ->
  let k := Z.of_nat n in
  10 * Y0 + 128 * (k * (k - 39)) * u64 - 70000 * ulp
  <= 10 * val (Bird.y b)
  <= 10 * Y0 + 128 * (k * (k - 39)) * u64 + 70000 * ulp.
Proof.
  intros Hn (_ & _ & _ & _ & Hy). cbv zeta in *.
  set (k := Z.of_nat n) in *.
  assert (Hk : 0 <= k <= 100) by (unfold k; lia).
  destruct gravity_tight as [_ HG].
  set (G := val (@lit float F64 0.4)) in *.
  pose proof u64_pos as Hu. pose proof ulp_pos as He.
  assert (Hkk : 0 <= k * (k + 1) <= 10100) by nia.
  assert (Hke : 0 <= k * (k + 3) * ulp <= 10300 * ulp) by nia.
  assert (H5 : 128 * (k * (k + 1)) * u64 <= 5 * (k * (k + 1) * G)
               <= 128 * (k * (k + 1)) * u64 + 10100 * ulp) by nia.
  replace (128 * (k * (k - 39)) * u64)
    with (128 * (k * (k + 1)) * u64 - 5120 * k * u64) by ring.
  lia.
Qed.

Lemma tolerance_val :
  finite 76.000001%float = true /\
  4864 * u64 + 20000 * ulp <= val 76.000001%float <= 4865 * u64 /\
  finite 75.999999%float = true /\
  4863 * u64 <= val 75.999999%float <= 4864 * u64 - 20000 * ulp /\
  finite 0.000001%float = true /\
  20000 * ulp <= val 0.000001%float <= u64.
Proof.
  repeat split; try (vm_compute; reflexivity);
    apply Z.leb_le; vm_compute; reflexivity.
Qed.

Lemma jump_binary64 (b : Bird.t float) (n : nat) :
  Bird.gravity b = lit 0.4 ->
  PrimFloat.leb 0 (Bird.y b) = true ->
  PrimFloat.leb (Bird.y b) 500 = true ->
  (n <= 100)%nat ->
  let b' := Nat.iter n Bird.update (Bird.jump b) in
  PrimFloat.leb (Bird.y b - 76.000001) (Bird.y b') = true /\
  (n = 19%nat \/ n = 20%nat ->
   PrimFloat.leb (Bird.y b') (Bird.y b - 75.999999) = true) /\
  (n = 39%nat ->
   PrimFloat.leb (Bird.y b - 0.000001) (Bird.y b') = true /\
   PrimFloat.leb (Bird.y b') (Bird.y b + 0.000001) = true) /\
  ((39 <= n)%nat ->
   PrimFloat.leb (Bird.y b - 0.000001) (Bird.y b') = true).
Proof.
  intros Hg H0 H500 Hn b'.
  destruct tolerance_val as (F76 & V76 & F75 & V75 & Fe & Ve).
  destruct range_val as (_ & _ & _ & _ & F0 & V0 & F500 & V500).
  destruct (between_finite _ _ _ F0 F500 H0 H500) as [Fy HY].
  rewrite V0, V500 in HY.
  pose proof u64_pos as Hu. pose proof ulp_pos as He.
  pose proof u64_ulp as Hue.
  assert (Fj : finite (Bird.velocity (Bird.jump b)) = true)
    by (vm_compute; reflexivity).
  assert (Vj : val (Bird.velocity (Bird.jump b)) = - 512 * u64)
    by (vm_compute; reflexivity).
  pose proof (inFreeFall_iter (Bird.jump b) n Hg Fj Fy) as A.
  rewrite Vj in A. cbn [Bird.jump Bird.y] in A.
  specialize (A ltac:(lia) ltac:(lia) Hn). fold b' in A.
  pose proof (arc_height _ n b' Hn A) as Hh. cbv zeta in Hh.
  destruct A as (_ & _ & Fy' & _).
  set (k := Z.of_nat n) in *.
  assert (Hk : 0 <= k <= 100) by (unfold k; lia).
  set (Y0 := val (Bird.y b)) in *.
  destruct (sub_error (Bird.y b) 0.000001%float Fy Fe) as [Fd1 Hd1];
    [fold Y0; lia|]. fold Y0 in Hd1.
  split; [|split; [|split]].
  - destruct (sub_error (Bird.y b) 76.000001%float Fy F76) as [Fd Hd];
      [fold Y0; lia|]. fold Y0 in Hd.
    rewrite (leb_val _ _ Fd Fy'). apply Z.leb_le.
    pose proof (consecutive_product k) as Hp.
    assert (- 380 <= k * (k - 39)) by nia.
    assert (- 48640 * u64 <= 128 * (k * (k - 39)) * u64) by nia.
    lia.
  - intro H19.
    assert (Hkk : k * (k - 39) = - 380)
      by (unfold k; destruct H19 as [-> | ->]; reflexivity).
    rewrite Hkk in Hh.
    destruct (sub_error (Bird.y b) 75.999999%float Fy F75) as [Fd Hd];
      [fold Y0; lia|]. fold Y0 in Hd.
    rewrite (leb_val _ _ Fy' Fd). apply Z.leb_le. lia.
  - intro H39.
    assert (Hkk : k * (k - 39) = 0) by (unfold k; rewrite H39; reflexivity).
    rewrite Hkk in Hh.
    destruct (add_error (Bird.y b) 0.000001%float Fy Fe) as [Fs Hs];
      [fold Y0; lia|]. fold Y0 in Hs.
    rewrite (leb_val _ _ Fd1 Fy'), (leb_val _ _ Fy' Fs).
    split; apply Z.leb_le; lia.
  - intro H39.
    assert (0 <= k * (k - 39)) by nia.
    assert (0 <= 128 * (k * (k - 39)) * u64) by nia.
    rewrite (leb_val _ _ Fd1 Fy'). apply Z.leb_le. lia.
Qed.
End Fall64.

(** X13. Free fall in closed form.  n ticks without a jump take a bird
    with velocity v, height y and gravity g to velocity v + n g and height
    y + n v + n (n + 1) / 2 * g, and leave x, gravity and radius as they
    are: exactly so in exact arithmetic.  In binary64, with the gravity of
    the constructor (the binary64 nearest to 0.4), a velocity between -16
    and 16, a height between 0 and 500 and up to 100 ticks, velocity and
    height stay finite and differ from the closed form by no more than
    the roundings made: n * 2^-41 for the velocity and n (n + 3) / 2 * 2^-41
    for the height.  ([val] is the value times 2^1074 and [ulp] is
    2^-41 on that scale.) *)
Theorem free_fall_in_closed_form :
  (forall (b : Bird.t float) (n : nat),
     Bird.gravity b = lit 0.4 ->
     PrimFloat.leb (-16) (Bird.velocity b) = true ->
     PrimFloat.leb (Bird.velocity b) 16 = true ->
     PrimFloat.leb 0 (Bird.y b) = true ->
     PrimFloat.leb (Bird.y b) 500 = true ->
     (n <= 100)%nat ->
     let b' := Nat.iter n Bird.update b in
     let k := Z.of_nat n in
     let G := val (@lit float F64 0.4) in
     finite (Bird.velocity b') = true /\ finite (Bird.y b') = true /\
     (Z.abs (val (Bird.velocity b') - (val (Bird.velocity b) + k * G))
      <= k * ulp)%Z /\
     (Z.abs (2 * val (Bird.y b')
             - (2 * val (Bird.y b) + 2 * k * val (Bird.velocity b)
                + k * (k + 1) * G))
      <= k * (k + 3) * ulp)%Z /\
     Bird.x b' = Bird.x b /\
     Bird.gravity b' = Bird.gravity b /\
     Bird.radius b' = Bird.radius b) /\
  (forall (b : Bird.t Q) (n : nat),
     let b' := Nat.iter n Bird.update b in
     let t := inject_Z (Z.of_nat n) in
     Bird.velocity b' == Bird.velocity b + t * Bird.gravity b /\
     Bird.y b' == Bird.y b + t * Bird.velocity b
                  + t * (t + 1) / 2 * Bird.gravity b /\
     Bird.x b' = Bird.x b /\
     Bird.gravity b' = Bird.gravity b /\
     Bird.radius b' = Bird.radius b).
Proof.
  split.
  - exact fall_binary64.
  - exact fall_exact.
Qed.

(** A hundred ticks of the newly constructed bird, in binary64: the
    height differs from the closed form by 5150 * 2^-41 at most. *)
Lemma free_fall_in_closed_form_witness :
  let b' := Nat.iter 100 Bird.update (@Bird.new float F64) in
  finite (Bird.y b') = true /\
  (Z.abs (2 * val (Bird.y b')
          - (2 * val (Bird.y (@Bird.new float F64))
             + 2 * 100 * val (Bird.velocity (@Bird.new float F64))
             + 100 * (100 + 1) * val (@lit float F64 0.4)))
   <= 100 * (100 + 3) * ulp)%Z.
Proof.
  destruct (proj1 free_fall_in_closed_form (@Bird.new float F64) 100%nat)
    as (_ & H1 & _ & H2 & _).
  - vm_compute. reflexivity.
  - vm_compute. reflexivity.
  - vm_compute. reflexivity.
  - vm_compute. reflexivity.
  - vm_compute. reflexivity.
  - lia.
  - split; [exact H1 | exact H2].
Defined.

(** X14. With the gravity 0.4 of the constructor, a jump lifts the bird
    by 76.  In binary64, for a jump made between y = 0 and y = 500 and the
    100 ticks that follow it: the bird never gets more than 76.000001
    above the height of the jump; after 19 and after 20 ticks it is at
    least 75.999999 above it; after 39 ticks it is back at that height, up
    to 0.000001, and from then on it is not above it by more than
    0.000001.  In exact arithmetic the numbers are 76, 76, 0 and 0, for
    every number of ticks, and the velocity after 39 ticks is 7.6. *)
Theorem a_jump_lifts_the_bird_by_76 :
  (forall (b : Bird.t float) (n : nat),
     Bird.gravity b = lit 0.4 ->
     PrimFloat.leb 0 (Bird.y b) = true ->
     PrimFloat.leb (Bird.y b) 500 = true ->
     (n <= 100)%nat ->
     let b' := Nat.iter n Bird.update (Bird.jump b) in
     PrimFloat.leb (Bird.y b - 76.000001) (Bird.y b') = true /\
     (n = 19%nat \/ n = 20%nat ->
      PrimFloat.leb (Bird.y b') (Bird.y b - 75.999999) = true) /\
     (n = 39%nat ->
      PrimFloat.leb (Bird.y b - 0.000001) (Bird.y b') = true /\
      PrimFloat.leb (Bird.y b') (Bird.y b + 0.000001) = true) /\
     ((39 <= n)%nat ->
      PrimFloat.leb (Bird.y b - 0.000001) (Bird.y b') = true)) /\
  (forall (b : Bird.t Q) (n : nat),
     Bird.gravity b == 0.4 ->
     let b' := Nat.iter n Bird.update (Bird.jump b) in
     Bird.y b - 76 <= Bird.y b' /\
     (n = 19%nat \/ n = 20%nat -> Bird.y b' == Bird.y b - 76) /\
     (n = 39%nat -> Bird.y b' == Bird.y b /\ Bird.velocity b' == 7.6) /\
     ((39 <= n)%nat -> Bird.y b <= Bird.y b')).
Proof.
  split.
  - exact jump_binary64.
  - exact jump_exact.
Qed.

(** The newly constructed bird, 19 ticks after a jump, in binary64. *)
Lemma a_jump_lifts_the_bird_by_76_witness :
  let b' := Nat.iter 19 Bird.update (Bird.jump (@Bird.new float F64)) in
  PrimFloat.leb (Bird.y (@Bird.new float F64) - 76.000001) (Bird.y b') = true /\
  PrimFloat.leb (Bird.y b') (Bird.y (@Bird.new float F64) - 75.999999) = true.
Proof.
  destruct (proj1 a_jump_lifts_the_bird_by_76 (@Bird.new float F64) 19%nat)
    as (H1 & H2 & _).
  - vm_compute. reflexivity.
  - vm_compute. reflexivity.
  - vm_compute. reflexivity.
  - lia.
  - split; [exact H1 | apply H2; left; reflexivity].
Defined.

(** ** The corridor between the two pipes of a pair *)

Lemma moved_pipe_fields {num : Type} {ops : JsNumber num}
  (n : nat) (p : Pipe.t num) :
  Pipe.y (Nat.iter n Pipe.update p) = Pipe.y p /\
  Pipe.height (Nat.iter n Pipe.update p) = Pipe.height p /\
  Pipe.width (Nat.iter n Pipe.update p) = Pipe.width p /\
  Pipe.isBottom (Nat.iter n Pipe.update p) = Pipe.isBottom p.
Proof.
  induction n as [|n (A & B & C & D)]; [repeat split|].
  rewrite Nat.iter_succ. destruct (Nat.iter n Pipe.update p). cbn in *.
  repeat split; assumption.
Qed.

Lemma Qlt_b_false (a b : Q) : b <= a -> Qlt_b a b = false.
Proof.
  intro H. unfold Qlt_b. apply negb_false_iff. apply Qle_bool_iff. exact H.
Qed.

Lemma corridor_exact (rnd : Q) (g : Game.t Q) (b : Bird.t Q) (n : nat) :
  let gap := Game.currentGap g in
  let topHeight := 30 + rnd * (500 - gap - 30 - 30) in
  let bottomHeight := 500 - topHeight - gap in
  let upper := Nat.iter n Pipe.update (Pipe.new topHeight false) in
  let lower := Nat.iter n Pipe.update (Pipe.new bottomHeight true) in
  Bird.radius b == 12 ->
  topHeight + 6 <= Bird.y b -> Bird.y b <= topHeight + gap - 6 ->
  Game.generatePipes rnd g
    = [Pipe.new topHeight false; Pipe.new bottomHeight true] /\
  Game.hitsPipe (Bird.getBounds b) upper = false /\
  Game.hitsPipe (Bird.getBounds b) lower = false.
Proof.
  intros gap topHeight bottomHeight upper lower Hr Hlo Hhi.
  split; [reflexivity|].
  destruct (moved_pipe_fields n (Pipe.new topHeight false)) as (Uy & Uh & _).
  destruct (moved_pipe_fields n (Pipe.new bottomHeight true)) as (Ly & Lh & _).
  fold upper in Uy, Uh. fold lower in Ly, Lh.
  cbn [Pipe.new Pipe.y Pipe.height] in Uy, Uh, Ly, Lh.
  unfold Game.hitsPipe, Bird.getBounds, Pipe.getBounds.
  cbn [left right top bottom num_lt num_add num_sub lit Exact].
  split.
  - rewrite Uy, Uh. cbn [lit Exact].
    assert (E : Qlt_b (Bird.y b - Bird.radius b + 3) (0 + topHeight - 3) = false)
      by (apply Qlt_b_false; lra).
    rewrite E. apply andb_false_r.
  - rewrite Ly, Lh. cbn [num_sub Exact].
    assert (E : Qlt_b (@HEIGHT Q Exact - bottomHeight + 3)
                  (Bird.y b + Bird.radius b - 3) = false).
    { apply Qlt_b_false. unfold bottomHeight, HEIGHT. cbn [lit Exact]. lra. }
    rewrite E. rewrite andb_false_r. reflexivity.
Qed.

Section Corridor64.
Local Open Scope Z_scope.

(* The height of the upper pipe, for a draw in [0,1): between 30 and
   470 - gap. *)
Lemma top_height_val (rnd gap c : float) (Gi : Z) :
  (Gi = 200 /\ gap = 200%float /\ c = 240%float) \/
  (Gi = 250 /\ gap = 250%float /\ c = 190%float) ->
  PrimFloat.leb 0 rnd = true -> PrimFloat.ltb rnd 1 = true ->
  let t := (30 + rnd * c)%float in
  finite t = true /\
  1920 * u64 <= val t <= (470 - Gi) * 64 * u64 /\
  finite gap = true /\ val gap = Gi * 64 * u64.
Proof.
  intros Hgc H0 H1 t.
  assert (Hpar : (Gi = 200 \/ Gi = 250) /\
            Prim2SF c = S754_finite false (Z.to_pos ((500 - Gi - 60) * 2 ^ 45)) (-45) /\
            finite gap = true /\ val gap = Gi * 64 * u64).
  { destruct Hgc as [(-> & -> & ->) | (-> & -> & ->)].
    - split; [left; reflexivity|]. repeat split; vm_compute; reflexivity.
    - split; [right; reflexivity|]. repeat split; vm_compute; reflexivity. }
  destruct Hpar as (HGi & Hc & Fgap & Vgap).
  assert (Hci : 128 <= 500 - Gi - 60 < 256) by lia.
  pose proof (product_sf rnd c (500 - Gi - 60) Hci Hc H0 H1) as Hp.
  destruct (top_sf (rnd * c)%float (500 - Gi - 60) Hci Hp)
    as (mt & et & Ht & Het & HT).
  fold t in Ht.
  split; [unfold finite; rewrite Ht; reflexivity|].
  split; [|split; assumption].
  unfold val. rewrite Ht. unfold zv, cond_Zopp.
  replace (et + 1074) with ((et + 48) + 1026) by lia.
  rewrite Z.pow_add_r by lia. rewrite Z.mul_assoc.
  set (T := Z.pos mt * 2 ^ (et + 48)) in *.
  change u64 with (2 ^ 42 * 2 ^ 1026).
  change (2 ^ 48) with (64 * 2 ^ 42) in HT.
  assert (0 < 2 ^ 1026) by reflexivity.
  set (P := 2 ^ 1026) in *. clearbody P T. nia.
Qed.

Lemma corridor_val :
  finite 6.000001%float = true /\
  384 * u64 + 20 * ulp <= val 6.000001%float <= 385 * u64 /\
  finite 12%float = true /\ val 12%float = 768 * u64 /\
  finite 3%float = true /\ val 3%float = 192 * u64 /\
  finite 500%float = true /\ val 500%float = 32000 * u64 /\
  finite 0%float = true /\ val 0%float = 0.
Proof.
  repeat split; try (vm_compute; reflexivity);
    apply Z.leb_le; vm_compute; reflexivity.
Qed.

Lemma corridor_binary64 (rnd : float) (g : Game.t float) (b : Bird.t float)
  (n : nat) :
  PrimFloat.leb 0 rnd = true -> PrimFloat.ltb rnd 1 = true ->
  let gap := Game.currentGap g in
  let topHeight := (30 + rnd * (500 - gap - 30 - 30))%float in
  let bottomHeight := (500 - topHeight - gap)%float in
  let upper := Nat.iter n Pipe.update (Pipe.new topHeight false) in
  let lower := Nat.iter n Pipe.update (Pipe.new bottomHeight true) in
  Bird.radius b = 12%float ->
  PrimFloat.leb (topHeight + 6.000001) (Bird.y b) = true ->
  PrimFloat.leb (Bird.y b) (topHeight + gap - 6.000001) = true ->
  Game.generatePipes rnd g
    = [Pipe.new topHeight false; Pipe.new bottomHeight true] /\
  Game.hitsPipe (Bird.getBounds b) upper = false /\
  Game.hitsPipe (Bird.getBounds b) lower = false.
Proof.
  intros H0 H1 gap topHeight bottomHeight upper lower Hr Hlo Hhi.
  assert (Hgen : Game.generatePipes rnd g
            = [Pipe.new topHeight false; Pipe.new bottomHeight true])
    by reflexivity.
  split; [exact Hgen|]. clear Hgen.
  assert (Hgc : exists Gi,
            (Gi = 200 /\ gap = 200%float /\
             (500 - gap - 30 - 30)%float = 240%float) \/
            (Gi = 250 /\ gap = 250%float /\
             (500 - gap - 30 - 30)%float = 190%float)).
  { unfold gap.
    destruct (currentGap_cases g) as [[_ E] | [_ E]]; rewrite E.
    - exists 250. right. repeat split; vm_compute; reflexivity.
    - exists 200. left. repeat split; vm_compute; reflexivity. }
  destruct Hgc as (Gi & Hgc).
  assert (HGi : Gi = 200 \/ Gi = 250)
    by (destruct Hgc as [(-> & _) | (-> & _)]; [left | right]; reflexivity).
  destruct (top_height_val rnd gap _ Gi Hgc H0 H1) as (Ft & Vt & Fg & Vg).
  fold topHeight in Ft, Vt.
  destruct corridor_val
    as (F6 & V6 & F12 & V12 & F3 & V3 & F500 & V500 & F0 & V0).
  pose proof u64_pos as Hu. pose proof ulp_pos as He.
  pose proof u64_ulp as Hue.
  set (T := val topHeight) in *.
  (* the bounds of the corridor, and the bird between them *)
  destruct (add_error topHeight 6.000001%float Ft F6) as [Flo Vlo];
    [fold T; lia|]. fold T in Vlo.
  destruct (add_error topHeight gap Ft Fg) as [Ftg Vtg];
    [fold T; rewrite Vg; lia|]. fold T in Vtg. rewrite Vg in Vtg.
  destruct (sub_error (topHeight + gap)%float 6.000001%float Ftg F6)
    as [Fhi Vhi]; [lia|].
  destruct (between_finite _ _ _ Flo Fhi Hlo Hhi) as [Fy Vy].
  set (Y := val (Bird.y b)) in *.
  (* the box of the bird *)
  destruct (sub_error (Bird.y b) 12%float Fy F12) as [Fbt Vbt];
    [fold Y; lia|]. fold Y in Vbt. rewrite V12 in Vbt.
  destruct (add_error (Bird.y b - 12)%float 3%float Fbt F3) as [Fbt3 Vbt3];
    [lia|]. rewrite V3 in Vbt3.
  destruct (add_error (Bird.y b) 12%float Fy F12) as [Fbb Vbb];
    [fold Y; lia|]. fold Y in Vbb. rewrite V12 in Vbb.
  destruct (sub_error (Bird.y b + 12)%float 3%float Fbb F3) as [Fbb3 Vbb3];
    [lia|]. rewrite V3 in Vbb3.
  (* the pipes keep their y and height while they move *)
  destruct (moved_pipe_fields n (Pipe.new topHeight false)) as (Uy & Uh & _).
  destruct (moved_pipe_fields n (Pipe.new bottomHeight true)) as (Ly & Lh & _).
  fold upper in Uy, Uh. fold lower in Ly, Lh.
  cbn [Pipe.new Pipe.y Pipe.height] in Uy, Uh, Ly, Lh.
  assert (E0 : @lit float F64 0 = 0%float) by (vm_compute; reflexivity).
  assert (E3 : @lit float F64 3 = 3%float) by (vm_compute; reflexivity).
  assert (E500 : @HEIGHT float F64 = 500%float) by (vm_compute; reflexivity).
  rewrite E0 in Uy. rewrite E500 in Ly. cbn [num_sub F64] in Ly.
  unfold Game.hitsPipe, Bird.getBounds, Pipe.getBounds.
  cbn [left right top bottom]. rewrite Hr, E3.
  cbn [num_lt num_add num_sub F64].
  split.
  - rewrite Uy, Uh.
    destruct (add_error 0%float topHeight F0 Ft) as [Fpb Vpb];
      [fold T; rewrite V0; lia|]. fold T in Vpb. rewrite V0 in Vpb.
    destruct (sub_error (0 + topHeight)%float 3%float Fpb F3) as [Fpb3 Vpb3];
      [lia|]. rewrite V3 in Vpb3.
    rewrite (ltb_val _ _ Fbt3 Fpb3).
    replace (val (Bird.y b - 12 + 3) <? val (0 + topHeight - 3)) with false
      by (symmetry; apply Z.ltb_ge; lia).
    apply andb_false_r.
  - rewrite Ly, Lh.
    (* the height of the lower pipe *)
    destruct (sub_error 500%float topHeight F500 Ft) as [Fu Vu];
      [fold T; rewrite V500; lia|]. fold T in Vu. rewrite V500 in Vu.
    destruct (sub_error (500 - topHeight)%float gap Fu Fg) as [Fbh Vbh];
      [rewrite Vg; lia|]. rewrite Vg in Vbh. fold bottomHeight in Fbh, Vbh.
    destruct (sub_error 500%float bottomHeight F500 Fbh) as [Fpt Vpt];
      [rewrite V500; lia|]. rewrite V500 in Vpt.
    destruct (add_error (500 - bottomHeight)%float 3%float Fpt F3)
      as [Fpt3 Vpt3]; [lia|]. rewrite V3 in Vpt3.
    rewrite (ltb_val _ _ Fpt3 Fbb3).
    replace (val (500 - bottomHeight + 3) <? val (Bird.y b + 12 - 3))
      with false by (symmetry; apply Z.ltb_ge; lia).
    rewrite andb_false_r. reflexivity.
Qed.
End Corridor64.

(** X15. The pair that [generatePipes] makes leaves a corridor, wherever
    the pipes have moved to.  In binary64, for a draw in [0, 1): a bird of
    radius 12 whose y lies between topHeight + 6.000001 and
    topHeight + gap - 6.000001 overlaps neither pipe of the pair.  In
    exact arithmetic the same holds with 6 in place of 6.000001, for every
    draw: the corridor is gap - 12 high. *)
Theorem the_gap_is_a_safe_corridor :
  (forall (rnd : float) (g : Game.t float) (b : Bird.t float) (n : nat),
     PrimFloat.leb 0 rnd = true -> PrimFloat.ltb rnd 1 = true ->
     let gap := Game.currentGap g in
     let topHeight := (30 + rnd * (500 - gap - 30 - 30))%float in
     let bottomHeight := (500 - topHeight - gap)%float in
     let upper := Nat.iter n Pipe.update (Pipe.new topHeight false) in
     let lower := Nat.iter n Pipe.update (Pipe.new bottomHeight true) in
     Bird.radius b = 12%float ->
     PrimFloat.leb (topHeight + 6.000001) (Bird.y b) = true ->
     PrimFloat.leb (Bird.y b) (topHeight + gap - 6.000001) = true ->
     Game.generatePipes rnd g
       = [Pipe.new topHeight false; Pipe.new bottomHeight true] /\
     Game.hitsPipe (Bird.getBounds b) upper = false /\
     Game.hitsPipe (Bird.getBounds b) lower = false) /\
  (forall (rnd : Q) (g : Game.t Q) (b : Bird.t Q) (n : nat),
     let gap := Game.currentGap g in
     let topHeight := 30 + rnd * (500 - gap - 30 - 30) in
     let bottomHeight := 500 - topHeight - gap in
     let upper := Nat.iter n Pipe.update (Pipe.new topHeight false) in
     let lower := Nat.iter n Pipe.update (Pipe.new bottomHeight true) in
     Bird.radius b == 12 ->
     topHeight + 6 <= Bird.y b -> Bird.y b <= topHeight + gap - 6 ->
     Game.generatePipes rnd g
       = [Pipe.new topHeight false; Pipe.new bottomHeight true] /\
     Game.hitsPipe (Bird.getBounds b) upper = false /\
     Game.hitsPipe (Bird.getBounds b) lower = false).
Proof.
  split.
  - exact corridor_binary64.
  - exact corridor_exact.
Qed.

(** The bird at mid-height and the pair of the draw 0.5, after 440 moves,
    in binary64. *)
Lemma the_gap_is_a_safe_corridor_witness :
  let t := (30 + 0.5 * (500 - Game.currentGap (@Game.mounted float F64)
                        - 30 - 30))%float in
  let bh := (500 - t - Game.currentGap (@Game.mounted float F64))%float in
  Game.hitsPipe (Bird.getBounds (@Bird.new float F64))
    (Nat.iter 440 Pipe.update (Pipe.new t false)) = false /\
  Game.hitsPipe (Bird.getBounds (@Bird.new float F64))
    (Nat.iter 440 Pipe.update (Pipe.new bh true)) = false.
Proof.
  refine (proj2 (proj1 the_gap_is_a_safe_corridor 0.5%float
                   (@Game.mounted float F64) (@Bird.new float F64) 440%nat
                   _ _ _ _ _)).
  - vm_compute. reflexivity.
  - vm_compute. reflexivity.
  - vm_compute. reflexivity.
  - vm_compute. reflexivity.
  - vm_compute. reflexivity.
Defined.

(** ** The name form and the score service *)

#[local] Arguments isWhiteSpace : simpl never.

Lemma trimStart_split (s : JsString) :
  exists w, s = w ++ trimStart s /\ forallb isWhiteSpace w = true.
Proof.
  induction s as [|c rest (w & Hs & Hw)]; [exists []; split; reflexivity|].
  cbn [trimStart]. destruct (isWhiteSpace c) eqn:Ec.
  - exists (c :: w). split; [cbn; rewrite <- Hs; reflexivity|].
    cbn. rewrite Ec. exact Hw.
  - exists []. split; reflexivity.
Qed.

Lemma trimStart_fixed (s : JsString) :
  trimStart s = s <->
  match s with [] => True | c :: _ => isWhiteSpace c = false end.
Proof.
  destruct s as [|c rest]; [split; reflexivity|].
  cbn [trimStart]. destruct (isWhiteSpace c) eqn:Ec; split; try reflexivity.
  - intro H. exfalso.
    destruct (trimStart_split rest) as (w & Hs & _).
    apply (f_equal (@length _)) in H. apply (f_equal (@length _)) in Hs.
    rewrite length_app in Hs. cbn in H. lia.
  - discriminate.
Qed.

Lemma trimStart_idem (s : JsString) : trimStart (trimStart s) = trimStart s.
Proof.
  induction s as [|c rest IH]; [reflexivity|].
  cbn [trimStart]. destruct (isWhiteSpace c) eqn:Ec; [exact IH|].
  cbn [trimStart]. rewrite Ec. reflexivity.
Qed.

Lemma trimEnd_split (s : JsString) :
  exists w, s = trimEnd s ++ w /\ forallb isWhiteSpace w = true.
Proof.
  destruct (trimStart_split (rev s)) as (w & Hs & Hw).
  exists (rev w). split.
  - unfold trimEnd. rewrite <- rev_app_distr, <- Hs, rev_involutive.
    reflexivity.
  - rewrite forallb_forall in Hw |- *. intros c Hc.
    apply Hw. apply in_rev. exact Hc.
Qed.

Lemma trimEnd_idem (s : JsString) : trimEnd (trimEnd s) = trimEnd s.
Proof.
  unfold trimEnd. rewrite rev_involutive, trimStart_idem. reflexivity.
Qed.

(* Cutting the end leaves the start as it was. *)
Lemma trimStart_trimEnd (s : JsString) :
  trimStart s = s -> trimStart (trimEnd s) = trimEnd s.
Proof.
  intro Hs. destruct (trimEnd_split s) as (w & Hsplit & _).
  apply trimStart_fixed. apply trimStart_fixed in Hs.
  destruct (trimEnd s) as [|c rest]; [exact I|].
  rewrite Hsplit in Hs. exact Hs.
Qed.

Lemma trim_idem (s : JsString) : trim (trim s) = trim s.
Proof.
  unfold trim.
  rewrite (trimStart_trimEnd (trimStart s) (trimStart_idem s)).
  apply trimEnd_idem.
Qed.

Lemma length_trim (s : JsString) : (length (trim s) <= length s)%nat.
Proof.
  unfold trim.
  destruct (trimStart_split s) as (w1 & H1 & _).
  destruct (trimEnd_split (trimStart s)) as (w2 & H2 & _).
  apply (f_equal (@length _)) in H1, H2. rewrite length_app in H1, H2. lia.
Qed.

(* A score of the game, as a number, is never below zero. *)
Lemma score_not_negative (n : N) :
  PrimFloat.ltb (f64_of_Z (Z.of_N n)) 0%float = false.
Proof.
  destruct n as [|p]; [vm_compute; reflexivity|].
  cbn [Z.of_N f64_of_Z].
  rewrite FloatAxioms.ltb_spec, FloatAxioms.of_uint63_spec.
  change (Prim2SF 0) with (S754_zero false).
  pose proof (Uint63.to_Z_bounded (Uint63.of_Z (Z.pos p))) as Hb.
  set (M := Uint63.to_Z (Uint63.of_Z (Z.pos p))) in *. clearbody M.
  destruct (Z.eq_dec M 0) as [-> | Hne]; [vm_compute; reflexivity|].
  rewrite normalize_spec; [|lia|].
  - unfold normalized. cbv zeta.
    destruct (_ <=? _)%Z;
      repeat match goal with
             | |- context [if ?c then _ else _] => destruct c
             end; reflexivity.
  - assert (Z.log2 M < 63)%Z.
    { apply Z.log2_lt_pow2; [lia|]. change (2 ^ 63)%Z with wB. lia. }
    lia.
Qed.

(** X16. When the handler of POST /api/scores answers 201, the
    username of the request was a string, the stored name is that string
    trimmed, it is not empty, at most 50 code units long and has no white
    space at either end (the call of substring cuts nothing), the score
    was a number that is not below 0, and the insertion was made with
    exactly this name and this score. *)
Theorem stored_names_are_trimmed_and_short :
  forall (dbRun : Server.DbRun) (username score : JsValue)
         (id : N) (name : JsString) (sc : float),
    Server.postScores dbRun username score = Server.Status201 id name sc ->
    exists raw : JsString,
      username = JsStr raw /\ score = JsNum sc /\
      name = trim raw /\ trim name = name /\
      (1 <= length name <= 50)%nat /\
      PrimFloat.ltb sc 0%float = false /\
      dbRun name sc = Some id.
Proof.
  intros dbRun username score id name sc H.
  unfold Server.postScores in H.
  destruct username as [| | | |raw|]; try discriminate.
  exists raw.
  destruct (falsy (JsStr raw) || (length (trim raw) =? 0)%nat) eqn:E1;
    [discriminate|].
  destruct score as [| | |x| |]; try discriminate.
  destruct (PrimFloat.ltb x 0%float) eqn:E2; [discriminate|].
  destruct (50 <? length raw)%nat eqn:E3; [discriminate|].
  apply orb_false_iff in E1. destruct E1 as [_ E1].
  apply Nat.eqb_neq in E1. apply Nat.ltb_ge in E3.
  pose proof (length_trim raw) as Hlen.
  rewrite firstn_all2 in H by lia.
  destruct (dbRun (trim raw) x) as [lastID|] eqn:Edb; [|discriminate].
  injection H as -> <- <-.
  repeat split; try reflexivity; try assumption; try lia.
  apply trim_idem.
Qed.

(** The name bird, typed with a blank on each side, and the score 3. *)
Lemma stored_names_are_trimmed_and_short_witness :
  exists raw : JsString,
    JsStr paddedName = JsStr raw /\ JsNum 3%float = JsNum 3%float /\
    [98; 105; 114; 100]%N = trim raw /\
    trim [98; 105; 114; 100]%N = [98; 105; 114; 100]%N /\
    (1 <= length [98; 105; 114; 100]%N <= 50)%nat /\
    PrimFloat.ltb 3%float 0%float = false /\
    (fun _ _ => Some 7%N) [98; 105; 114; 100]%N 3%float = Some 7%N.
Proof.
  refine (stored_names_are_trimmed_and_short (fun _ _ => Some 7%N)
            (JsStr paddedName) (JsNum 3%float) 7%N
            [98; 105; 114; 100]%N 3%float _).
  vm_compute. reflexivity.
Defined.

Lemma getUsername_cases (value : JsString) (st : App.State) :
  (trim value <> [] /\
   App.username (App.getUsername value st) = trim value /\
   App.hasUsername (App.getUsername value st) = true) \/
  (trim value = [] /\ App.getUsername value st = st).
Proof.
  unfold App.getUsername.
  destruct (trim value) as [|c rest] eqn:E.
  - right. split; reflexivity.
  - left. split; [discriminate|]. split; reflexivity.
Qed.

(* The name in the state of App, after any number of submissions of the
   form. *)
Lemma form_name_invariant (values : list JsString) : forall st : App.State,
  (App.hasUsername st = true ->
   App.username st <> [] /\ trim (App.username st) = App.username st) ->
  let st' := fold_left (fun st value => App.getUsername value st) values st in
  App.hasUsername st' = true ->
  App.username st' <> [] /\ trim (App.username st') = App.username st'.
Proof.
  induction values as [|value rest IH]; intros st Hst; [exact Hst|].
  cbn [fold_left]. apply IH.
  destruct (getUsername_cases value st) as [(Hne & Hu & _) | (_ & Hsame)].
  - intros _. rewrite Hu. split; [exact Hne | apply trim_idem].
  - rewrite Hsame. exact Hst.
Qed.

(** X17. Whatever is submitted through the name form, once App holds a
    username it is not empty and has no white space at either end; and if
    it is at most 50 code units long, the service refuses no score that
    the game posts under it: the name is stored as it is, and the answer
    is 201, or 500 when the insertion fails. *)
Theorem form_names_pass_the_service :
  forall (values : list JsString) (score : N) (dbRun : Server.DbRun),
    let st :=
      fold_left (fun st value => App.getUsername value st) values App.initial in
    let name := App.username st in
    let points := f64_of_Z (Z.of_N score) in
    App.hasUsername st = true -> (length name <= 50)%nat ->
    name <> [] /\ trim name = name /\
    App.newScore st score = (JsStr name, JsNum points) /\
    Server.postScores dbRun (JsStr name) (JsNum points) =
      match dbRun name points with
      | Some id => Server.Status201 id name points
      | None => Server.Status500 Server.failedToSave
      end.
Proof.
  intros values score dbRun st name points Hhas Hlen.
  destruct (form_name_invariant values App.initial) as [Hne Hidem];
    [discriminate | exact Hhas |].
  fold st in Hne, Hidem. fold name in Hne, Hidem.
  split; [exact Hne|]. split; [exact Hidem|]. split; [reflexivity|].
  assert (Hlen0 : (length name =? 0)%nat = false).
  { apply Nat.eqb_neq. destruct name; [congruence | discriminate]. }
  assert (Hshort : (50 <? length name)%nat = false)
    by (apply Nat.ltb_ge; lia).
  assert (Hpos : PrimFloat.ltb points 0%float = false)
    by apply score_not_negative.
  unfold Server.postScores. cbn [falsy].
  rewrite !Hidem, Hlen0, Hpos, Hshort. cbn [orb].
  rewrite firstn_all2 by lia. reflexivity.
Qed.

(** A blank submission followed by the name bird with blanks around it. *)
Lemma form_names_pass_the_service_witness :
  let st := App.getUsername paddedName (App.getUsername [32]%N App.initial) in
  let name := App.username st in
  let points := f64_of_Z (Z.of_N 3) in
  name <> [] /\ trim name = name /\
  App.newScore st 3 = (JsStr name, JsNum points) /\
  Server.postScores (fun _ _ => Some 7%N) (JsStr name) (JsNum points) =
    match (fun _ _ => Some 7%N) name points with
    | Some id => Server.Status201 id name points
    | None => Server.Status500 Server.failedToSave
    end.
Proof.
  refine (form_names_pass_the_service [[32]%N; paddedName] 3
            (fun _ _ => Some 7%N) _ _).
  - vm_compute. reflexivity.
  - vm_compute. lia.
Defined.

(** X18. A name that consists of white space only is refused twice:
    the form leaves the state of App as it is, and the service answers
    400 to a request that carries it, whatever the score. *)
Theorem blank_names_are_refused :
  forall (value : JsString) (st : App.State) (score : JsValue)
         (dbRun : Server.DbRun),
    forallb isWhiteSpace value = true ->
    App.getUsername value st = st /\
    Server.postScores dbRun (JsStr value) score
      = Server.Status400 Server.usernameRequired.
Proof.
  intros value st score dbRun Hw.
  assert (Ht : trimStart value = []).
  { induction value as [|c rest IH]; [reflexivity|].
    cbn [forallb] in Hw. apply andb_true_iff in Hw. destruct Hw as [Hc Hr].
    cbn [trimStart]. rewrite Hc. apply IH. exact Hr. }
  assert (Htrim : trim value = []) by (unfold trim; rewrite Ht; reflexivity).
  split.
  - unfold App.getUsername. rewrite Htrim. reflexivity.
  - unfold Server.postScores. rewrite Htrim. cbn [length Nat.eqb].
    rewrite orb_true_r. reflexivity.
Qed.

(** A space, a tab and a no-break space. *)
Lemma blank_names_are_refused_witness :
  App.getUsername [32; 9; 160]%N App.initial = App.initial /\
  Server.postScores (fun _ _ => Some 7%N) (JsStr [32; 9; 160]%N) (JsNum 3%float)
    = Server.Status400 Server.usernameRequired.
Proof.
  refine (blank_names_are_refused [32; 9; 160]%N App.initial (JsNum 3%float)
            (fun _ _ => Some 7%N) _).
  vm_compute. reflexivity.
Defined.

(** ** The earliest end of a game *)

Section Earliest.
Context {num : Type} {ops : JsNumber num}.

Lemma reachable_is_run (g : Game.t num) :
  reachable g -> exists es, g = Game.run es Game.mounted.
Proof.
  induction 1 as [|e g _ (es & ->)].
  - exists []. reflexivity.
  - exists (es ++ [e]). rewrite run_app. reflexivity.
Qed.

(* What an event does to the tick counter and the bird. *)
Lemma handle_bird (e : Game.Event) (g : Game.t num) :
  let g' := Game.handle e g in
  (Game.frameCount g' = Game.frameCount g /\
   (Game.bird g' = Game.bird g \/ Game.bird g' = Bird.jump (Game.bird g))) \/
  (Game.frameCount g' = 0%N /\ Game.bird g' = Bird.new) \/
  (exists rnd, g' = Game.update rnd g).
Proof.
  cbv zeta. destruct e as [code| |h rnd].
  - destruct g as [[gs go sc pa] fc ps b lp iv nh sub].
    destruct code.
    + left. destruct gs, go, pa; split; try reflexivity;
        first [left; reflexivity | right; reflexivity].
    + left. destruct gs, go, pa; split; try reflexivity; left; reflexivity.
    + right. left. split; reflexivity.
    + left. split; [reflexivity | left; reflexivity].
  - left. destruct g as [[gs go sc pa] fc ps b lp iv nh sub].
    destruct gs, go, pa; split; try reflexivity;
      first [left; reflexivity | right; reflexivity].
  - destruct (timer_cases h rnd g) as [E | (_ & _ & E)]; rewrite E.
    + left. split; [reflexivity | left; reflexivity].
    + right. right. exists rnd. reflexivity.
Qed.

Lemma update_bird (rnd : num) (g : Game.t num) :
  Game.frameCount (Game.update rnd g) = (Game.frameCount g + 1)%N /\
  Game.bird (Game.update rnd g) = Bird.update (Game.bird g).
Proof.
  destruct (update_fields rnd g) as (Hfc & Hb & _).
  destruct (advance_fields rnd g) as (Hafc & Hab & _).
  cbv zeta in Hfc, Hb, Hafc, Hab. rewrite Hfc, Hafc, Hb, Hab.
  split; reflexivity.
Qed.

Lemma checkCollisions_update (rnd : num) (g : Game.t num) :
  Game.checkCollisions (Game.update rnd g)
  = Game.checkCollisions (Game.advance rnd g).
Proof.
  destruct (update_fields rnd g) as (_ & Hb & Hp & _). cbv zeta in Hb, Hp.
  rewrite !checkCollisions_orb, Hb, Hp. reflexivity.
Qed.

Hypothesis table : @gridTable num ops = true.
Hypothesis inside : forall g : Game.t num,
  reachable g -> (Game.frameCount g < 32)%N ->
  Game.outOfBounds (Bird.getBounds (Game.bird g)) = false.

(* A collision in a reachable state needs at least 32 ticks. *)
Lemma collision_after_32 (g : Game.t num) :
  reachable g -> Game.checkCollisions g = true ->
  (32 <= Game.frameCount g)%N.
Proof.
  intros Hg Hhit.
  rewrite checkCollisions_orb in Hhit. apply orb_true_iff in Hhit.
  destruct Hhit as [Hout | Hpipe].
  - destruct (N.lt_ge_cases (Game.frameCount g) 32) as [Hlt | Hge];
      [|exact Hge].
    rewrite (inside g Hg Hlt) in Hout. discriminate.
  - apply existsb_exists in Hpipe. destruct Hpipe as (p & Hin & Hp).
    destruct (reachable_is_run g Hg) as (es & ->).
    destruct (hit_window table es p Hin Hp) as [H669 _]. lia.
Qed.

Lemma lastsLongEnough_reachable (g : Game.t num) :
  reachable g -> lastsLongEnough g.
Proof.
  induction 1 as [|e g Hg IH]; [discriminate|].
  unfold lastsLongEnough in *.
  destruct e as [code| |h rnd].
  - assert (Hk : code = KeyR \/ code <> KeyR)
      by (destruct code; [right|right|left|right]; congruence).
    destruct Hk as [-> | Hne]; [discriminate|].
    assert (E : Game.frameCount (Game.handle (Game.KeyDown code) g)
                = Game.frameCount g /\
                Game.gameOver (Game.state (Game.handle (Game.KeyDown code) g))
                = Game.gameOver (Game.state g)).
    { destruct g as [[gs go sc pa] fc ps b lp iv nh sub].
      destruct code; try congruence;
        destruct gs, go, pa; split; reflexivity. }
    destruct E as [E1 E2]. rewrite E1, E2. exact IH.
  - assert (E : Game.frameCount (Game.handle Game.Click g)
                = Game.frameCount g /\
                Game.gameOver (Game.state (Game.handle Game.Click g))
                = Game.gameOver (Game.state g)).
    { destruct g as [[gs go sc pa] fc ps b lp iv nh sub].
      destruct gs, go, pa; split; reflexivity. }
    destruct E as [E1 E2]. rewrite E1, E2. exact IH.
  - pose proof (reach_handle (Game.Timer h rnd) g Hg) as Hnext.
    destruct (timer_cases h rnd g) as [E | (_ & _ & E)]; rewrite E in *;
      [exact IH|].
    destruct (update_effects rnd g) as (_ & _ & Hgo & _). cbv zeta in Hgo.
    rewrite Hgo. intro Hover. apply orb_true_iff in Hover.
    destruct Hover as [Hhit | Hwas].
    + apply (collision_after_32 _ Hnext).
      rewrite checkCollisions_update. exact Hhit.
    + specialize (IH Hwas).
      destruct (update_bird rnd g) as [Hfc _]. rewrite Hfc. lia.
Qed.

Lemma earliest_end (es : list Game.Event) :
  let g := Game.run es (@Game.mounted num ops) in
  (Game.gameOver (Game.state g) = true -> (32 <= Game.frameCount g)%N) /\
  ((Game.frameCount g < 32)%N ->
   Game.checkCollisions g = false /\ Game.phase g <> Over).
Proof.
  intro g.
  assert (Hg : reachable g) by (apply reachable_run; constructor).
  pose proof (lastsLongEnough_reachable g Hg) as Hlast.
  split; [exact Hlast|].
  intro Hlt. split.
  - destruct (Game.checkCollisions g) eqn:Hhit; [|reflexivity].
    pose proof (collision_after_32 g Hg Hhit). lia.
  - intro Hover. apply phase_Over in Hover.
    specialize (Hlast Hover). lia.
Qed.
End Earliest.

(* The reach in exact arithmetic. *)

Lemma ticks_nonneg (n : N) : 0 <= inject_Z (Z.of_N n).
Proof. change 0 with (inject_Z 0). rewrite <- Zle_Qle. lia. Qed.

Lemma birdInReach_new (g : Game.t Q) :
  Game.frameCount g = 0%N -> Game.bird g = Bird.new -> birdInReach g.
Proof.
  intros Hfc Hb. unfold birdInReach. rewrite Hfc, Hb.
  change (inject_Z (Z.of_N 0)) with 0.
  assert (Hy : Bird.y (@Bird.new Q Exact) == 250) by reflexivity.
  assert (Hv : Bird.velocity (@Bird.new Q Exact) == 0) by reflexivity.
  repeat split; lra.
Qed.

Lemma birdInReach_handle (e : Game.Event) (g : Game.t Q) :
  wellFormed g -> birdInReach g -> birdInReach (Game.handle e g).
Proof.
  intros (_ & Hg & _) B.
  destruct (handle_bird e g) as [[E1 [E2 | E2]] | [[E1 E2] | (rnd & E)]];
    cbv zeta in *.
  - unfold birdInReach. rewrite E1, E2. exact B.
  - unfold birdInReach. rewrite E1, E2.
    destruct B as (Hv1 & Hv2 & Hy1 & Hy2).
    cbn [Bird.jump Bird.velocity Bird.y].
    cbn [lit Exact]. pose proof (ticks_nonneg (Game.frameCount g)).
    repeat split; try assumption; lra.
  - apply birdInReach_new; assumption.
  - rewrite E. destruct (update_bird rnd g) as [Hfc Hb].
    destruct B as (Hv1 & Hv2 & Hy1 & Hy2).
    unfold birdInReach. rewrite Hfc, Hb.
    rewrite N2Z.inj_add, inject_Z_plus. change (inject_Z (Z.of_N 1)) with 1.
    set (n := inject_Z (Z.of_N (Game.frameCount g))) in *.
    destruct (Game.bird g) as [bx by_ bg bv br]. cbn in *. subst bg.
    cbn [lit Exact].
    repeat split; lra.
Qed.

Lemma birdInReach_reachable (g : Game.t Q) : reachable g -> birdInReach g.
Proof.
  induction 1 as [|e g Hg IH].
  - apply birdInReach_new; reflexivity.
  - apply birdInReach_handle; [apply reachable_wellFormed; exact Hg | exact IH].
Qed.

(* A bird in reach is within the bounds during the first 31 ticks. *)
Lemma inside_before_32 (g : Game.t Q) :
  reachable g -> (Game.frameCount g < 32)%N ->
  Game.outOfBounds (Bird.getBounds (Game.bird g)) = false.
Proof.
  intros Hg Hn.
  destruct (reachable_wellFormed g Hg) as (_ & _ & Hr & _).
  destruct (birdInReach_reachable g Hg) as (_ & _ & Hy1 & Hy2).
  cbv zeta in Hy1, Hy2.
  set (z := Z.of_N (Game.frameCount g)) in *.
  assert (Hz : (0 <= z <= 31)%Z) by (unfold z; lia).
  assert (Hq : 0 <= inject_Z z /\ inject_Z z <= 31).
  { split; [change 0 with (inject_Z 0) | change 31 with (inject_Z 31)];
      rewrite <- Zle_Qle; lia. }
  assert (Hsq : inject_Z z * (inject_Z z + 1) <= 992).
  { change 992 with (inject_Z 992). change 1 with (inject_Z 1).
    rewrite <- inject_Z_plus, <- inject_Z_mult, <- Zle_Qle. nia. }
  set (n := inject_Z z) in *.
  unfold Game.outOfBounds, Bird.getBounds. cbn [top bottom].
  rewrite Hr. cbn [lit Exact num_le num_add num_sub HEIGHT].
  apply orb_false_iff. split.
  - apply not_true_is_false. intro H. apply Qle_bool_iff in H. lra.
  - apply not_true_is_false. intro H. apply Qle_bool_iff in H.
    unfold HEIGHT in H. cbn [lit Exact] in H. lra.
Qed.

(* The reach in binary64. *)

Section Reach64.
Local Open Scope Z_scope.

Lemma gravity_val :
  finite (@lit float F64 0.4) = true /\
  16 * u64 <= val (@lit float F64 0.4) <= 26 * u64.
Proof.
  split; [vm_compute; reflexivity|].
  split; apply Z.leb_le; vm_compute; reflexivity.
Qed.

Lemma jump_val :
  finite (@lit float F64 (-8)) = true /\
  val (@lit float F64 (-8)) = -512 * u64.
Proof. split; vm_compute; reflexivity. Qed.

Lemma radius_val :
  finite (@lit float F64 12) = true /\ val (@lit float F64 12) = 768 * u64.
Proof. split; vm_compute; reflexivity. Qed.

Lemma new_val :
  finite (Bird.velocity (@Bird.new float F64)) = true /\
  finite (Bird.y (@Bird.new float F64)) = true /\
  val (Bird.velocity (@Bird.new float F64)) = 0 /\
  val (Bird.y (@Bird.new float F64)) = 16000 * u64.
Proof. repeat split; vm_compute; reflexivity. Qed.

Lemma bounds_val :
  finite (@lit float F64 (-5)) = true /\
  val (@lit float F64 (-5)) = -320 * u64 /\
  finite (@HEIGHT float F64 + lit 5)%js = true /\
  val (@HEIGHT float F64 + lit 5)%js = 32320 * u64.
Proof. repeat split; vm_compute; reflexivity. Qed.

Lemma birdInReach64_new (g : Game.t float) :
  Game.frameCount g = 0%N -> Game.bird g = Bird.new -> birdInReach64 g.
Proof.
  intros Hfc Hb. unfold birdInReach64. rewrite Hfc, Hb.
  destruct new_val as (A & B & C & D). rewrite C, D.
  pose proof u64_pos. intros _. repeat split; try assumption; lia.
Qed.

Lemma birdInReach64_handle (e : Game.Event) (g : Game.t float) :
  wellFormed g -> birdInReach64 g -> birdInReach64 (Game.handle e g).
Proof.
  intros (_ & Hg & _) B.
  pose proof u64_pos as Hu.
  destruct (handle_bird e g) as [[E1 [E2 | E2]] | [[E1 E2] | (rnd & E)]];
    cbv zeta in *.
  - unfold birdInReach64. rewrite E1, E2. exact B.
  - unfold birdInReach64. rewrite E1, E2. intro Hn.
    destruct (B Hn) as (Fv & Fy & Hv & Hy).
    cbn [Bird.jump Bird.velocity Bird.y].
    destruct jump_val as [Fj Vj]. rewrite Vj.
    repeat split; try assumption; try nia.
  - apply birdInReach64_new; assumption.
  - rewrite E. destruct (update_bird rnd g) as [Hfc Hb].
    unfold birdInReach64. rewrite Hfc, Hb. intro Hn.
    rewrite N2Z.inj_add in Hn |- *. change (Z.of_N 1) with 1 in Hn |- *.
    unfold birdInReach64 in B.
    set (n := Z.of_N (Game.frameCount g)) in *.
    assert (Hn0 : 0 <= n) by (unfold n; lia).
    destruct (B ltac:(lia)) as (Fv & Fy & Hv & Hy).
    destruct gravity_val as [Fg Vg].
    destruct (Game.bird g) as [bx by_ bg bv br].
    cbn [Bird.update Bird.velocity Bird.y Bird.gravity] in *. subst bg.
    cbn [num_add F64].
    destruct (add_between bv (lit 0.4) (-496) (26 * (n + 1)) Fv Fg)
      as [Fv' Hv']; [lia | lia | lia |].
    destruct (add_between by_ (bv + lit 0.4)%float
                (16000 - 496 * (n + 1)) (16000 + 13 * (n + 1) * (n + 1 + 1))
                Fy Fv') as [Fy' Hy']; [nia | nia | nia |].
    repeat split; try assumption; lia.
Qed.

Lemma birdInReach64_reachable (g : Game.t float) :
  reachable g -> birdInReach64 g.
Proof.
  induction 1 as [|e g Hg IH].
  - apply birdInReach64_new; reflexivity.
  - apply birdInReach64_handle;
      [apply reachable_wellFormed; exact Hg | exact IH].
Qed.

(* The bird is within the bounds during the first 31 ticks. *)
Lemma inside_before_32_f64 (g : Game.t float) :
  reachable g -> (Game.frameCount g < 32)%N ->
  Game.outOfBounds (Bird.getBounds (Game.bird g)) = false.
Proof.
  intros Hg Hn.
  destruct (reachable_wellFormed g Hg) as (_ & _ & Hr & _).
  pose proof (birdInReach64_reachable g Hg) as B. unfold birdInReach64 in B.
  set (n := Z.of_N (Game.frameCount g)) in *.
  assert (Hn0 : 0 <= n <= 31) by (unfold n; lia).
  destruct (B ltac:(lia)) as (_ & Fy & _ & Hy).
  pose proof u64_pos as Hu.
  destruct radius_val as [Fr Vr].
  destruct bounds_val as (F5 & V5 & F505 & V505).
  unfold Game.outOfBounds, Bird.getBounds. cbn [top bottom].
  rewrite Hr. cbn [num_le num_sub F64].
  change (@num_add float F64) with PrimFloat.add.
  destruct (sub_between (Bird.y (Game.bird g)) (lit 12) (-144) 30000 Fy Fr)
    as [Ft Ht]; [lia | lia | nia |].
  destruct (add_between (Bird.y (Game.bird g)) (lit 12) 0 29664 Fy Fr)
    as [Fb Hb]; [lia | lia | nia |].
  rewrite (leb_val _ _ Ft F5), V5.
  change (PrimFloat.add (@HEIGHT float F64) (lit 5))
    with (@HEIGHT float F64 + lit 5)%js.
  rewrite (leb_val _ _ F505 Fb), V505.
  apply orb_false_iff. split; apply Z.leb_gt; lia.
Qed.
End Reach64.

(** X19. No game ends before tick 32, whatever the player does: in every
    state that the mounted component reaches with a tick counter below 32
    the collision test is false and the game is not over.  In binary64
    and in exact arithmetic.  The bound is reached in both: with a jump
    before every tick the bird leaves through the top on tick 32. *)
Theorem no_game_ends_before_tick_32 :
  (forall es : list (@Game.Event float),
     let g := Game.run es Game.mounted in
     (Game.gameOver (Game.state g) = true -> (32 <= Game.frameCount g)%N) /\
     ((Game.frameCount g < 32)%N ->
      Game.checkCollisions g = false /\ Game.phase g <> Over)) /\
  (forall es : list (@Game.Event Q),
     let g := Game.run es Game.mounted in
     (Game.gameOver (Game.state g) = true -> (32 <= Game.frameCount g)%N) /\
     ((Game.frameCount g < 32)%N ->
      Game.checkCollisions g = false /\ Game.phase g <> Over)) /\
  (Game.phase (Game.run straightUp64 Game.mounted) = Over /\
   Game.frameCount (Game.run straightUp64 Game.mounted) = 32%N) /\
  (Game.phase (Game.run straightUp Game.mounted) = Over /\
   Game.frameCount (Game.run straightUp Game.mounted) = 32%N).
Proof.
  split; [|split; [|split; split; vm_compute; reflexivity]].
  - exact (earliest_end table_f64 inside_before_32_f64).
  - exact (earliest_end table_exact inside_before_32).
Qed.

(** ** The request log of the server *)

Lemma startsWith_app (t post : JsString) :
  Analytics.startsWith (t ++ post) t = true.
Proof.
  induction t as [|c t IH]; [destruct post; reflexivity|].
  cbn. rewrite N.eqb_refl. exact IH.
Qed.

Lemma includes_startsWith (s t : JsString) :
  Analytics.startsWith s t = true -> Analytics.includes s t = true.
Proof.
  intro H. destruct s; cbn [Analytics.includes]; rewrite H; reflexivity.
Qed.

Lemma includes_app (pre t post : JsString) :
  Analytics.includes (pre ++ t ++ post) t = true.
Proof.
  induction pre as [|c pre IH].
  - apply includes_startsWith. exact (startsWith_app t post).
  - cbn [app Analytics.includes]. rewrite IH. apply orb_true_r.
Qed.

Lemma firstEntry_no_comma (s : JsString) :
  ~ In 44%N (Analytics.firstEntry s).
Proof.
  induction s as [|c rest IH]; [intros []|].
  cbn [Analytics.firstEntry]. destruct (N.eqb_spec c 44); [intros []|].
  intros [E | Hin]; [congruence | exact (IH Hin)].
Qed.

Lemma trim_incl (s : JsString) (c : N) : In c (trim s) -> In c s.
Proof.
  intro Hin. unfold trim in Hin.
  destruct (trimStart_split s) as (w1 & H1 & _).
  destruct (trimEnd_split (trimStart s)) as (w2 & H2 & _).
  rewrite H1, H2. apply in_or_app. right. apply in_or_app. left. exact Hin.
Qed.

Section RequestLog.
Import String.
Local Open Scope string_scope.
Local Open Scope list_scope.

(** X20. [getClientIP] never returns an empty string.  When the first
    entry of the x-forwarded-for header is not blank, the result is that
    entry, trimmed: it holds no comma and no white space at either end.
    When the request carries none of the four addresses, the result is
    the string unknown. *)
Theorem client_address_is_never_empty :
  forall req : Analytics.Request,
    Analytics.getClientIP req <> [] /\
    (forall s, Analytics.xForwardedFor req = Some s ->
       trim (Analytics.firstEntry s) <> [] ->
       Analytics.getClientIP req = trim (Analytics.firstEntry s) /\
       ~ In 44%N (Analytics.getClientIP req) /\
       trim (Analytics.getClientIP req) = Analytics.getClientIP req) /\
    (Analytics.xForwardedFor req = None -> Analytics.xRealIp req = None ->
     Analytics.connectionAddress req = None ->
     Analytics.socketAddress req = None ->
     Analytics.getClientIP req = Analytics.codes "unknown").
Proof.
  intros [xff xri ca sa]. split; [|split].
  - unfold Analytics.getClientIP, Analytics.orElse.
    cbn [Analytics.xForwardedFor Analytics.xRealIp
         Analytics.connectionAddress Analytics.socketAddress].
    destruct xff as [s|];
      [destruct (trim (Analytics.firstEntry s)) as [|c1 r1] eqn:E1|];
      cbn [List.length Nat.eqb]; try discriminate;
      (destruct xri as [[|c2 r2]|]; cbn [List.length Nat.eqb];
       try discriminate);
      (destruct ca as [[|c3 r3]|]; cbn [List.length Nat.eqb];
       try discriminate);
      (destruct sa as [[|c4 r4]|]; cbn [List.length Nat.eqb];
       discriminate).
  - intros s Hs Hne. cbn in Hs. subst xff.
    assert (E : Analytics.getClientIP
                  {| Analytics.xForwardedFor := Some s;
                     Analytics.xRealIp := xri;
                     Analytics.connectionAddress := ca;
                     Analytics.socketAddress := sa |}
                = trim (Analytics.firstEntry s)).
    { unfold Analytics.getClientIP, Analytics.orElse.
      cbn [Analytics.xForwardedFor].
      destruct (trim (Analytics.firstEntry s)) as [|c r]; [congruence|].
      reflexivity. }
    rewrite E. split; [reflexivity|]. split; [|apply trim_idem].
    intro Hin. apply trim_incl in Hin.
    exact (firstEntry_no_comma s Hin).
  - cbn. intros -> -> -> ->. reflexivity.
Qed.

(** The first of two forwarded addresses, without the blanks around it. *)
Lemma client_address_is_never_empty_witness :
  Analytics.getClientIP Analytics.behindProxy
    = trim (Analytics.firstEntry Analytics.forwardedHeader) /\
  ~ In 44%N (Analytics.getClientIP Analytics.behindProxy) /\
  trim (Analytics.getClientIP Analytics.behindProxy)
    = Analytics.getClientIP Analytics.behindProxy.
Proof.
  refine (proj1 (proj2 (client_address_is_never_empty Analytics.behindProxy))
            Analytics.forwardedHeader _ _).
  - reflexivity.
  - vm_compute. discriminate.
Defined.

(** X21. [parseUserAgent] answers by the first test that matches.  A
    user agent that contains Linux is classified as Windows, macOS or
    Linux, so never as Android; one that contains Mac OS X as Windows or
    macOS, so never as iOS; one that contains Chrome as Chrome, Firefox or
    Edge, so never as Safari or Opera; one that contains Mobile is a
    Mobile device, never a Tablet.  A missing or empty user agent gives
    Unknown, Unknown and Desktop. *)
Theorem user_agents_are_classified_by_the_first_match :
  forall pre post : JsString,
    let agent (t : string) :=
      Analytics.parseUserAgent (Some (pre ++ Analytics.codes t ++ post)) in
    (Analytics.os (agent "Linux") = "Windows" \/
     Analytics.os (agent "Linux") = "macOS" \/
     Analytics.os (agent "Linux") = "Linux") /\
    (Analytics.os (agent "Mac OS X") = "Windows" \/
     Analytics.os (agent "Mac OS X") = "macOS") /\
    (Analytics.browser (agent "Chrome") = "Chrome" \/
     Analytics.browser (agent "Chrome") = "Firefox" \/
     Analytics.browser (agent "Chrome") = "Edge") /\
    Analytics.deviceType (agent "Mobile") = "Mobile" /\
    Analytics.parseUserAgent None
      = {| Analytics.browser := "Unknown"; Analytics.os := "Unknown";
           Analytics.deviceType := "Desktop" |} /\
    Analytics.parseUserAgent (Some []) = Analytics.parseUserAgent None.
Proof.
  intros pre post agent.
  assert (Hua : forall s : JsString,
            match Analytics.orElse (Some s) (Some []) with
            | Some u => u
            | None => []
            end = s).
  { intros [|c r]; reflexivity. }
  split; [|split; [|split; [|split; [|split]]]].
  - unfold agent, Analytics.parseUserAgent. cbn [Analytics.os].
    rewrite Hua, (includes_app pre (Analytics.codes "Linux") post).
    destruct (Analytics.includes _ (Analytics.codes "Windows"));
      [left; reflexivity|].
    destruct (Analytics.includes _ (Analytics.codes "Mac OS X"));
      [right; left; reflexivity | right; right; reflexivity].
  - unfold agent, Analytics.parseUserAgent. cbn [Analytics.os].
    rewrite Hua, (includes_app pre (Analytics.codes "Mac OS X") post).
    destruct (Analytics.includes _ (Analytics.codes "Windows"));
      [left; reflexivity | right; reflexivity].
  - unfold agent, Analytics.parseUserAgent. cbn [Analytics.browser].
    rewrite Hua, (includes_app pre (Analytics.codes "Chrome") post).
    cbn [andb negb].
    destruct (Analytics.includes _ (Analytics.codes "Edg"));
      cbn [negb andb]; [|left; reflexivity].
    rewrite andb_false_r.
    destruct (Analytics.includes _ (Analytics.codes "Firefox"));
      [right; left; reflexivity | right; right; reflexivity].
  - unfold agent, Analytics.parseUserAgent. cbn [Analytics.deviceType].
    rewrite Hua, (includes_app pre (Analytics.codes "Mobile") post).
    reflexivity.
  - vm_compute. reflexivity.
  - vm_compute. reflexivity.
Qed.

End RequestLog.
